(** * Recursive compose: folding an unbounded slice list into one accumulator

    A shallow embedding of [src/single-accumulator.py] and
    [src/list-files.py].  The Python list objects live in an explicit heap
    (lists are mutable and passed by reference), the storage bucket, the
    executor's queue and the clock form the state of the outside world, and
    the behaviour of the outside world that the program cannot control
    (gateway errors, the moment at which the worker pool runs a submitted
    deletion, latencies) is given by an oracle. *)

From Stdlib Require Import ZArith NArith Lia Strings.Byte.
From stdpp Require Import gmap strings list pretty.

Local Open Scope Z_scope.

(** ** Python values *)

(** A [storage.Blob] is a handle on the object stored under a path; the
    bucket is keyed by that path. *)
Abbreviation Blob := string (only parsing).

(** Python clamps the bound of a slice: a negative bound counts from the
    end of the list, and the result is brought back into [0, len]. *)
Definition slice_bound (len : nat) (k : Z) : nat :=
  if k <? 0 then Z.to_nat (Z.max 0 (Z.of_nat len + k))
  else Z.to_nat (Z.min k (Z.of_nat len)).

(** [l[:k]] *)
Definition py_prefix {A} (l : list A) (k : Z) : list A :=
  take (slice_bound (length l) k) l.

(** [l[k:]] *)
Definition py_suffix {A} (l : list A) (k : Z) : list A :=
  drop (slice_bound (length l) k) l.

(** [l.insert(i, x)], as a value, for a non-negative [i]. *)
Definition py_insert {A} (l : list A) (i : nat) (x : A) : list A :=
  take i l ++ x :: drop i l.

(** ** Results of a computation *)

Inductive Error :=
| BadReference        (* a list reference that the heap does not hold *)
| UploadFailed        (* the gateway refused the initial upload *)
| InvalidInputCount   (* more sources than the provider composes at once *)
| NotFound            (* a source of a compose call is absent *)
| ComposeFailed.      (* the gateway rejected or errored a compose call *)

(** A computation returns, raises, or is cut short by its fuel (the model of
    a loop that does not end). *)
Inductive Result (A : Type) :=
| Ok (a : A)
| Raise (e : Error)
| OutOfFuel.
Arguments Ok {A} a.
Arguments Raise {A} e.
Arguments OutOfFuel {A}.

(** State and exception monad; a raised exception keeps the state reached. *)
Definition M (S A : Type) : Type := S -> Result A * S.

Definition ret {S A} (a : A) : M S A := fun s => (Ok a, s).

Definition bind {S A B} (m : M S A) (k : A -> M S B) : M S B :=
  fun s =>
    match m s with
    | (Ok a, s') => k a s'
    | (Raise e, s') => (Raise e, s')
    | (OutOfFuel, s') => (OutOfFuel, s')
    end.

Notation "'let!' x ':=' c1 'in' c2" := (bind c1 (fun x => c2))
  (at level 10, x name, c1 at level 100, c2 at level 200).
Notation "'do!' c1 'in' c2" := (bind c1 (fun _ => c2))
  (at level 10, c1 at level 100, c2 at level 200).

(** [for x in l: body(x)] over a list value. *)
Fixpoint for_each {S A} (l : list A) (body : A -> M S unit) : M S unit :=
  match l with
  | [] => ret tt
  | x :: l' => do! body x in for_each l' body
  end.

(** ** The outside world *)

(** What the program does to its collaborators, in program order: the
    initial upload, a compose call with its outcome, a call of
    [delete_objects_concurrent] with its batch, and a deletion handed to the
    executor. *)
Inductive Event :=
| Upload (target : Blob) (ok : bool)
| Compose (target : Blob) (sources : list Blob) (ok : bool)
| Dispatch (batch : list Blob)
| Submit (blob : Blob).

Record Cloud := {
  bucket : gmap string (list byte);  (* the stored objects, by path *)
  pool : list Blob;                  (* deletions submitted and not yet run *)
  clock : N;                         (* milliseconds *)
  tick : nat;                        (* scheduling points passed *)
  trace : list (N * Event)           (* events with the time of issue *)
}.

(** The part of the world's behaviour that is not determined by the program. *)
Record Oracle := {
  upload_fails : bool;
  compose_fails : nat -> bool;       (* by number of compose calls before *)
  pool_runs : nat -> Blob -> bool;   (* at a tick, is a pending deletion run *)
  latency : nat -> N                 (* time lost at a tick *)
}.

Definition set_bucket (b : gmap string (list byte)) (c : Cloud) : Cloud :=
  {| bucket := b; pool := pool c; clock := clock c; tick := tick c;
     trace := trace c |}.

Definition set_pool (p : list Blob) (c : Cloud) : Cloud :=
  {| bucket := bucket c; pool := p; clock := clock c; tick := tick c;
     trace := trace c |}.

Definition log (t : N) (e : Event) (c : Cloud) : Cloud :=
  {| bucket := bucket c; pool := pool c; clock := clock c; tick := tick c;
     trace := trace c ++ [(t, e)] |}.

(** The events of a trace without their times. *)
Definition events (tr : list (N * Event)) : list Event := tr.*2.

(** The compose calls among some events: target, sources, success. *)
Definition compose_calls (es : list Event) : list (Blob * list Blob * bool) :=
  omap (fun e => match e with
                 | Compose tg src ok => Some (tg, src, ok)
                 | _ => None
                 end) es.

(** The times at which the compose calls of a trace were issued. *)
Definition compose_times (tr : list (N * Event)) : list N :=
  omap (fun e => match e with
                 | (t, Compose _ _ _) => Some t
                 | _ => None
                 end) tr.

(** The batches handed to the cleanup dispatcher. *)
Definition dispatches (es : list Event) : list (list Blob) :=
  omap (fun e => match e with Dispatch b => Some b | _ => None end) es.

(** The deletions submitted to the executor. *)
Definition submitted (es : list Event) : list Blob :=
  omap (fun e => match e with Submit b => Some b | _ => None end) es.

(** The provider composes at most this many slices onto the accumulator. *)
Definition provider_limit : nat := 31.

(** The concatenated content of the sources, when all of them are stored. *)
Definition read_all (b : gmap string (list byte)) (sources : list Blob)
  : option (list byte) :=
  @concat _ <$> mapM (fun s => b !! s) sources.

(** The storage client and the executor are libraries, not code of the
    repository: their operations are modelled from the interface of the
    storage gateway in the specification. Any call can fail for reasons of
    the gateway's own. A call takes time, during which the worker pool may
    run; its effect on the bucket is taken when it ends. *)
Section Gateway.
Variable env : Oracle.

(** Modelled from the spec: [delete(object)] removes an object, and its
    failure on an absent object is benign and stays in the pool. At a
    scheduling point the worker pool runs the pending deletions that the
    oracle selects. *)
Definition run_pool (c : Cloud) : Cloud :=
  let due := filter (fun b => pool_runs env (tick c) b) (pool c) in
  let rest := filter (fun b => ¬ pool_runs env (tick c) b) (pool c) in
  set_pool rest (set_bucket (foldr delete (bucket c) due) c).

(** [ms] milliseconds pass, and what the oracle adds to them. *)
Definition pause (ms : N) : M Cloud unit := fun c =>
  let c1 := run_pool c in
  (Ok tt,
   {| bucket := bucket c1; pool := pool c1;
      clock := (clock c + ms + latency env (tick c))%N;
      tick := S (tick c); trace := trace c1 |}).

(** [sleep(secs)], in milliseconds: at least that long. *)
Definition sleep (ms : N) : M Cloud unit := pause ms.

(** Modelled from the spec: [createEmpty(path)], here
    [blob.upload_from_file(io.BytesIO(b''), client=client)], creates or
    overwrites the object with empty content. *)
Definition upload_empty (target : Blob) : M Cloud unit := fun c =>
  let t0 := clock c in
  let c1 := snd (pause 0 c) in
  if upload_fails env then (Raise UploadFailed, log t0 (Upload target false) c1)
  else (Ok tt, log t0 (Upload target true)
                 (set_bucket (<[target := []]> (bucket c1)) c1)).

(** Modelled from the spec: [compose(target, orderedInputs)], here
    [target.compose(sources, client=client)], replaces the content of the
    target by the concatenation of the sources, in order, and fails with
    [InvalidInputCount] on more sources than the provider's limit plus one.
    A source that is not stored makes the call fail. *)
Definition gw_compose (target : Blob) (sources : list Blob) : M Cloud unit :=
  fun c =>
    let t0 := clock c in
    let n := length (compose_times (trace c)) in
    let c1 := snd (pause 0 c) in
    if (provider_limit + 1 <? length sources)%nat
    then (Raise InvalidInputCount, log t0 (Compose target sources false) c1)
    else if compose_fails env n
    then (Raise ComposeFailed, log t0 (Compose target sources false) c1)
    else match read_all (bucket c1) sources with
         | None => (Raise NotFound, log t0 (Compose target sources false) c1)
         | Some content =>
             (Ok tt, log t0 (Compose target sources true)
                       (set_bucket (<[target := content]> (bucket c1)) c1))
         end.

(** Modelled from the spec: the dispatcher enqueues the deletion on the
    worker pool, here [executor.submit(blob.delete, client=client)]; whether
    and when it succeeds never reaches the caller. *)
Definition submit_delete (blob : Blob) : M Cloud unit := fun c =>
  (Ok tt, log (clock c) (Submit blob) (set_pool (pool c ++ [blob]) c)).

(** An event of the program, stamped with the current time. *)
Definition emit (e : Event) : M Cloud unit := fun c =>
  (Ok tt, log (clock c) e c).
End Gateway.

(** ** The Python heap *)

Record World := {
  heap : list (list Blob);   (* the list objects, by address *)
  cloud : Cloud
}.

(** An action on the outside world leaves the heap alone. *)
Definition lift {A} (m : M Cloud A) : M World A := fun w =>
  let (r, c) := m (cloud w) in (r, {| heap := heap w; cloud := c |}).

(** A new list object, at the next address. *)
Definition alloc (l : list Blob) : M World nat := fun w =>
  (Ok (length (heap w)), {| heap := heap w ++ [l]; cloud := cloud w |}).

(** The value of the list object at an address. *)
Definition deref (a : nat) : M World (list Blob) := fun w =>
  match heap w !! a with
  | Some l => (Ok l, w)
  | None => (Raise BadReference, w)
  end.

(** [a.insert(i, x)]: the list object is changed in place. *)
Definition list_insert (a : nat) (i : nat) (x : Blob) : M World unit := fun w =>
  match heap w !! a with
  | Some l => (Ok tt, {| heap := <[a := py_insert l i x]> (heap w);
                         cloud := cloud w |})
  | None => (Raise BadReference, w)
  end.

(** [a[:k]] and [a[k:]]: slicing a list makes a new list object. *)
Definition slice_to (a : nat) (k : Z) : M World nat :=
  let! l := deref a in alloc (py_prefix l k).

Definition slice_from (a : nat) (k : Z) : M World nat :=
  let! l := deref a in alloc (py_suffix l k).

(** [a.append(x)]: the list object is changed in place. *)
Definition list_append (a : nat) (x : Blob) : M World unit := fun w =>
  match heap w !! a with
  | Some l => (Ok tt, {| heap := <[a := l ++ [x]]> (heap w);
                         cloud := cloud w |})
  | None => (Raise BadReference, w)
  end.

(** ** The chunker *)

(** A generator object of [generate_composition_chunks]: its local variable
    [slices], its argument [chunk_size], and whether it is suspended at the
    [yield] (as opposed to not started). *)
Record Generator := {
  gen_slices : nat;
  gen_chunk_size : Z;
  gen_suspended : bool
}.

(** [chunk_size: int = 31] *)
Definition default_chunk_size : Z := 31.

(** The call [generate_composition_chunks(slices, chunk_size)] makes a
    generator; nothing runs before the first [next]. Both source files
    define the same function. *)
Definition generate_composition_chunks (slices : nat) (chunk_size : Z)
  : Generator :=
  {| gen_slices := slices; gen_chunk_size := chunk_size;
     gen_suspended := false |}.

(** [next(g)]: resume after the [yield] if suspended ([slices =
    slices[chunk_size:]]), test [len(slices)], and yield the next chunk
    [slices[:chunk_size]]; [None] when the generator is exhausted. *)
Definition next (g : Generator) : M World (option (nat * Generator)) :=
  let! s := (if gen_suspended g
             then slice_from (gen_slices g) (gen_chunk_size g)
             else ret (gen_slices g)) in
  let! l := deref s in
  if (length l =? 0)%nat then ret None
  else
    let! chunk := slice_to s (gen_chunk_size g) in
    ret (Some (chunk, {| gen_slices := s;
                         gen_chunk_size := gen_chunk_size g;
                         gen_suspended := true |})).

(** [for chunk in g: body(chunk)] *)
Fixpoint for_chunks (fuel : nat) (g : Generator) (body : nat -> M World unit)
  : M World unit :=
  match fuel with
  | O => fun w => (OutOfFuel, w)
  | S fuel' =>
      let! r := next g in
      match r with
      | None => ret tt
      | Some (chunk, g') => do! body chunk in for_chunks fuel' g' body
      end
  end.

(** [[list(chunk) for chunk in g]]: the chunks as the consumer sees them. *)
Fixpoint collect (fuel : nat) (g : Generator) : M World (list (list Blob)) :=
  match fuel with
  | O => fun w => (OutOfFuel, w)
  | S fuel' =>
      let! r := next g in
      match r with
      | None => ret []
      | Some (chunk, g') =>
          let! c := deref chunk in
          let! cs := collect fuel' g' in
          ret (c :: cs)
      end
  end.

(** The outcome of the call number [n], from 0, of [next] on a generator:
    what the consumer gets who asks for one chunk after the other. *)
Fixpoint next_after (n : nat) (g : Generator)
  : M World (option (nat * Generator)) :=
  match n with
  | O => next g
  | S n' =>
      let! r := next g in
      match r with
      | None => ret None
      | Some (_, g') => next_after n' g'
      end
  end.

(** ** src/single-accumulator.py *)

(** The arguments [client] and [executor] are the bucket and the pool of the
    world; the calls of the logger are left out. *)
Module SingleAccumulator.
Section Program.
Variable env : Oracle.

(** [for blob in blobs: executor.submit(blob.delete, client=client);
    sleep(.005)]. The [Dispatch] event records the call and its batch. *)
Definition delete_objects_concurrent (blobs : nat) : M World unit :=
  let! l := deref blobs in
  lift (do! emit (Dispatch l) in
        for_each l (fun blob => do! submit_delete blob in sleep env 5)).

(** One turn of the loop of [compose]: [chunk.insert(0, final_blob)],
    [final_blob.compose(chunk, client=client)],
    [delete_objects_concurrent(chunk[1:], executor, client)], [sleep(1)]. *)
Definition compose_body (final_blob : Blob) (chunk : nat) : M World unit :=
  do! list_insert chunk 0 final_blob in
  let! sources := deref chunk in
  do! lift (gw_compose env final_blob sources) in
  let! consumed := slice_from chunk 1 in
  do! delete_objects_concurrent consumed in
  lift (sleep env 1000).

(** The [for] loop of [compose] over a generator of chunks. *)
Definition compose_loop (fuel : nat) (final_blob : Blob) (g : Generator)
  : M World unit :=
  for_chunks fuel g (compose_body final_blob).

(** [compose(object_path, slices, client, executor)]; the blob made by
    [storage.Blob.from_string(object_path)] is the handle on that path. *)
Definition compose (fuel : nat) (object_path : string) (slices : nat)
  : M World Blob :=
  let final_blob := object_path in
  do! lift (upload_empty env final_blob) in
  do! compose_loop fuel final_blob
        (generate_composition_chunks slices default_chunk_size) in
  ret final_blob.
End Program.
End SingleAccumulator.

(** ** src/list-files.py *)

(** The same [compose], with the call of [delete_objects_concurrent]
    commented out. *)
Module ListFiles.
Section Program.
Variable env : Oracle.

Definition compose_body (final_blob : Blob) (chunk : nat) : M World unit :=
  do! list_insert chunk 0 final_blob in
  let! sources := deref chunk in
  do! lift (gw_compose env final_blob sources) in
  lift (sleep env 1000).

(** The [for] loop of [compose] over a generator of chunks. *)
Definition compose_loop (fuel : nat) (final_blob : Blob) (g : Generator)
  : M World unit :=
  for_chunks fuel g (compose_body final_blob).

Definition compose (fuel : nat) (object_path : string) (slices : nat)
  : M World Blob :=
  let final_blob := object_path in
  do! lift (upload_empty env final_blob) in
  do! compose_loop fuel final_blob
        (generate_composition_chunks slices default_chunk_size) in
  ret final_blob.
End Program.
End ListFiles.

(** ** The script of src/list-files.py *)

(** The path of the blob [name] of the bucket [bucket_name], as
    [storage.Blob.from_string] reads it. *)
Definition blob_path (bucket_name name : string) : Blob :=
  "gs://" +:+ bucket_name +:+ "/" +:+ name.

(** What follows the first [/] of a string. *)
Fixpoint after_slash (s : string) : string :=
  match s with
  | EmptyString => EmptyString
  | String c s' =>
      if String.eqb (String c EmptyString) "/" then s' else after_slash s'
  end.

(** [blob.name]: the path without the scheme [gs://] and the bucket. *)
Definition blob_name (b : Blob) : string :=
  after_slash (String.substring 5 (String.length b - 5) b).

(** Modelled from the spec: [list(prefix)], here
    [storage_client.list_blobs(bucket_name, prefix=prefix)], supplies the
    objects stored in the bucket under the prefix, each of them once, in an
    order that the gateway chooses: [listed] is such a listing in the state
    [c]. *)
Definition lists (c : Cloud) (bucket_name prefix : string)
    (listed : list Blob) : Prop :=
  NoDup listed /\
  forall b, b ∈ listed <->
    is_Some (bucket c !! b) /\
    String.prefix (blob_path bucket_name prefix) b = true.

(** How the script ends. *)
Inductive Exit :=
| Finished                    (* the last statement has run *)
| NameError (name : string)   (* a variable was read that is not bound *)
| Uncaught (e : Error)        (* [compose] raised *)
| Endless.                    (* [compose] has not returned *)

(** The script runs in a world and prints lines: [print(s)] adds [s] at
    the end of [stdout]. *)
Record Process := {
  world : World;
  stdout : list string
}.

(** [for blob in blobs: l.append(blob)]. The variable [blob] is bound by
    the first turn of the loop and keeps the last blob after it. *)
Fixpoint gather (blobs : list Blob) (l : nat) (blob : option Blob)
  : M World (option Blob) :=
  match blobs with
  | [] => ret blob
  | b :: rest => do! list_append l b in gather rest l (Some b)
  end.

(** The constants of the script: the path of the output, and the bucket and
    the prefix that it lists. *)
Definition output_path : string :=
  "gs://analytics-data-lake/googl-data-avro-output/output_file.avro".

Definition listed_bucket : string := "analytics-data-lake".

Definition listed_prefix : string := "googl-data-avro/".

(** The block under [if __name__ == "__main__"], on the blobs [listed] that
    the iterator of [list_blobs] yields: it gathers them in a new list [l],
    prints the name of the blob that the loop variable holds and
    [str(len(l))], and calls [compose(output_path, l, storage_client)]. *)
Definition main (env : Oracle) (fuel : nat) (listed : list Blob) (p : Process)
  : Exit * Process :=
  match (let! l := alloc [] in
         let! blob := gather listed l None in
         ret (l, blob)) (world p) with
  | (Ok (l, Some blob), w1) =>
      let out1 := stdout p ++ ["final file name:" +:+ blob_name blob] in
      match deref l w1 with
      | (Ok lv, _) =>
          let out2 :=
            out1 ++ ["count of source files: " +:+ pretty (length lv)] in
          match ListFiles.compose env fuel output_path l w1 with
          | (Ok _, w2) => (Finished, {| world := w2; stdout := out2 |})
          | (Raise e, w2) => (Uncaught e, {| world := w2; stdout := out2 |})
          | (OutOfFuel, w2) => (Endless, {| world := w2; stdout := out2 |})
          end
      | (Raise e, _) => (Uncaught e, {| world := w1; stdout := out1 |})
      | (OutOfFuel, _) => (Endless, {| world := w1; stdout := out1 |})
      end
  | (Ok (_, None), w1) =>
      (NameError "blob", {| world := w1; stdout := stdout p |})
  | (Raise e, w1) => (Uncaught e, {| world := w1; stdout := stdout p |})
  | (OutOfFuel, w1) => (Endless, {| world := w1; stdout := stdout p |})
  end.

(** ** The chunks of a list value *)

(** The sequence of values that the loop of [generate_composition_chunks]
    yields on a list value, unfolded at most [fuel] times. *)
Fixpoint chunks_fuel {A} (fuel : nat) (l : list A) (k : Z) : list (list A) :=
  match fuel with
  | O => []
  | S fuel' =>
      match l with
      | [] => []
      | _ => py_prefix l k :: chunks_fuel fuel' (py_suffix l k) k
      end
  end.

(** With a positive chunk size every turn consumes a slice, so [length l]
    turns exhaust the list. *)
Definition chunks {A} (l : list A) (k : Z) : list (list A) :=
  chunks_fuel (length l) l k.

(** The number of chunks to expect: [n / k], rounded up. *)
Definition ceil_div (n : nat) (k : Z) : Z := (Z.of_nat n + k - 1) / k.


(** * Vocabulary of the properties *)

(** Every list object of the heap [h] is in [h'], unchanged. *)
Definition preserves (h h' : list (list Blob)) : Prop :=
  forall a l, h !! a = Some l -> h' !! a = Some l.

(** The same, but for the list object at the address [a]. *)
Definition preserves_except (a : nat) (h h' : list (list Blob)) : Prop :=
  forall a' l, a' <> a -> h !! a' = Some l -> h' !! a' = Some l.

(** The slices that a generator has still to yield. *)
Definition gen_rest (g : Generator) (h : list (list Blob))
  : option (list Blob) :=
  match h !! gen_slices g with
  | Some l =>
      Some (if gen_suspended g then py_suffix l (gen_chunk_size g) else l)
  | None => None
  end.

(** Time does not go back, objects are at most deleted, and only objects
    with a pending deletion, of which [added] are new. *)
Definition quiet (added : list Blob) (c c' : Cloud) : Prop :=
  (clock c <= clock c')%N /\
  (forall b v, bucket c' !! b = Some v -> bucket c !! b = Some v) /\
  (forall b, b ∉ pool c -> b ∉ added -> bucket c' !! b = bucket c !! b) /\
  (forall b, b ∈ pool c' -> b ∈ pool c \/ b ∈ added).

(** The events that a completed turn on the chunk [c] adds to the trace. *)
Definition turn_events (final_blob : Blob) (c : list Blob) : list Event :=
  Compose final_blob (final_blob :: c) true :: Dispatch c :: map Submit c.

(** The errors that a compose call of the gateway can raise. *)
Definition compose_error (e : Error) : Prop :=
  e = InvalidInputCount \/ e = ComposeFailed \/ e = NotFound.

(** Consecutive times at least [d] apart. *)
Definition spaced (d : N) (ts : list N) : Prop :=
  forall i t1 t2, ts !! i = Some t1 -> ts !! S i = Some t2 -> (t1 + d <= t2)%N.

(** What has been reached after the chunks [done], from the state [c0]: the
    trace, the times of the compose calls, and, as long as nothing can
    delete or overwrite the accumulator behind the loop's back, the bucket. *)
Definition reached (final_blob : Blob) (cs : list (list Blob)) (c0 : Cloud)
    (done : list (list Blob)) (c : Cloud) : Prop :=
  events (trace c)
  = events (trace c0) ++ flat_map (turn_events final_blob) done /\
  (exists ts,
     compose_times (trace c) = compose_times (trace c0) ++ ts /\
     length ts = length done /\
     spaced 1000 ts /\
     Forall (fun t => (clock c0 <= t)%N /\ (t + 1000 <= clock c)%N) ts) /\
  (clock c0 <= clock c)%N /\
  (final_blob ∉ concat cs -> final_blob ∉ pool c0 ->
   forall acc, bucket c0 !! final_blob = Some acc ->
     exists x,
       read_all (bucket c0) (concat done) = Some x /\
       bucket c !! final_blob = Some (acc ++ x) /\
       (final_blob ∉ pool c) /\
       (forall b v, b <> final_blob ->
          bucket c !! b = Some v -> bucket c0 !! b = Some v)).

(** How the loop over the chunks [cs] ends, from the state [c0]. *)
Definition finished (final_blob : Blob) (cs : list (list Blob)) (c0 : Cloud)
    (r : Result unit) (c' : Cloud) : Prop :=
  match r with
  | Ok _ => reached final_blob cs c0 cs c'
  | Raise e => exists done c rest c1 c1',
      cs = done ++ c :: rest /\
      reached final_blob cs c0 done c1 /\
      quiet [] c1 c1' /\
      bucket c' = bucket c1' /\ pool c' = pool c1' /\
      compose_error e /\
      (e = InvalidInputCount -> (provider_limit < length c)%nat) /\
      (e = NotFound -> read_all (bucket c1') (final_blob :: c) = None) /\
      events (trace c')
      = events (trace c1) ++ [Compose final_blob (final_blob :: c) false] /\
      compose_times (trace c') = compose_times (trace c1) ++ [clock c1]
  | OutOfFuel => False
  end.

(** The state [c0] in which the loop starts, after a successful upload of
    the empty accumulator in the state [c]. *)
Definition started (final_blob : Blob) (c c0 : Cloud) : Prop :=
  events (trace c0) = events (trace c) ++ [Upload final_blob true] /\
  compose_times (trace c0) = compose_times (trace c) /\
  bucket c0 !! final_blob = Some [] /\
  (clock c <= clock c0)%N /\
  (forall b, b ∈ pool c0 -> b ∈ pool c) /\
  (forall b v, b <> final_blob ->
     bucket c0 !! b = Some v -> bucket c !! b = Some v) /\
  (forall b, b <> final_blob -> b ∉ pool c ->
     bucket c0 !! b = bucket c !! b).

(** The result of [compose] from the result of its loop. *)
Definition returning (final_blob : Blob) (r : Result unit) : Result Blob :=
  match r with
  | Ok _ => Ok final_blob
  | Raise e => Raise e
  | OutOfFuel => OutOfFuel
  end.

(** The trace of a compose call that failed on the chunk [c], if any. *)
Definition attempt (final_blob : Blob) (c : option (list Blob)) : list Event :=
  match c with
  | Some c => [Compose final_blob (final_blob :: c) false]
  | None => []
  end.

(** The chunk on which the loop stopped, if it did not complete. *)
Definition stopped_at (r : Result unit) (rest : list (list Blob))
  : option (list Blob) :=
  match r with
  | Ok _ => None
  | _ => head rest
  end.

(** The state [c1] of a run that dispatches deletions against the state [c2]
    of a run that does not, on an idle executor: the former holds no object
    that the latter does not hold, and both have made as many compose
    calls. *)
Definition sim (c1 c2 : Cloud) : Prop :=
  (forall b v, bucket c1 !! b = Some v -> bucket c2 !! b = Some v) /\
  pool c2 = [] /\
  length (compose_times (trace c1)) = length (compose_times (trace c2)).

(** The states [c1] and [c2] of the same two runs when the slices [todo]
    still to compose are out of the reach of the deletions submitted so far:
    both hold the accumulator and those slices alike. *)
Definition agree (final_blob : Blob) (todo : list Blob) (c1 c2 : Cloud)
  : Prop :=
  pool c2 = [] /\
  length (compose_times (trace c1)) = length (compose_times (trace c2)) /\
  (final_blob ∉ pool c1) /\
  bucket c1 !! final_blob = bucket c2 !! final_blob /\
  (forall s, s ∈ todo -> (s ∉ pool c1) /\ bucket c1 !! s = bucket c2 !! s).

(** The object is out of the bucket, or its deletion is pending. *)
Definition gone_or_pending (c : Cloud) (b : Blob) : Prop :=
  bucket c !! b = None \/ b ∈ pool c.

(** The times at which the deletions of a trace were submitted. *)
Definition submit_times (tr : list (N * Event)) : list N :=
  omap (fun e => match e with
                 | (t, Submit _) => Some t
                 | _ => None
                 end) tr.

(** The successful compose calls among some events. *)
Definition composed (es : list Event) : list (list Blob) :=
  omap (fun e => match e with
                 | Compose _ src true => Some src
                 | _ => None
                 end) es.

(** What the loop of [compose] has done to the outside world since the
    state [c0], when it has completed its turns on the chunks [done] and at
    most failed in the compose call that follows: the time it took; what
    became of the objects other than the accumulator, which are at most
    deleted, and only when a deletion was pending or the object is a slice
    of [done]; the deletions that are pending; and that the slices of
    [done] were stored and are now deleted or pending. *)
Definition effect (final : Blob) (c0 : Cloud) (done : list (list Blob))
    (c : Cloud) : Prop :=
  (clock c0 + 1000 * N.of_nat (length done)
   + 5 * N.of_nat (length (concat done)) <= clock c)%N /\
  (forall b v, b <> final ->
     bucket c !! b = Some v -> bucket c0 !! b = Some v) /\
  (forall b, b <> final -> b ∉ pool c0 -> b ∉ concat done ->
     bucket c !! b = bucket c0 !! b) /\
  (forall b, b ∈ pool c -> b ∈ pool c0 \/ b ∈ concat done) /\
  (forall b, b <> final -> gone_or_pending c0 b -> gone_or_pending c b) /\
  (forall b, b ∈ concat done -> b <> final ->
     gone_or_pending c b /\ is_Some (bucket c0 !! b)).

(** Why a compose call on the chunk [c] has raised [e], in the state [c']
    that it has left. *)
Definition compose_failure (env : Oracle) (final : Blob) (c : list Blob)
    (e : Error) (c' : Cloud) : Prop :=
  (e = InvalidInputCount /\ (provider_limit < length c)%nat) \/
  (e = ComposeFailed /\ exists n, compose_fails env n = true) \/
  (e = NotFound /\ exists b, b ∈ final :: c /\ bucket c' !! b = None).

(** What the loop of [compose] of [src/list-files.py] has done since the
    state [c0], with no deletion pending, when it has completed its turns on
    the chunks [done]: no deletion is pending, a second has passed for every
    turn, the objects other than the accumulator are as they were, and, when
    the accumulator is not itself a slice of [done], it has grown by the
    content of [done]. *)
Definition kept (final : Blob) (c0 : Cloud) (done : list (list Blob))
    (c : Cloud) : Prop :=
  pool c = [] /\
  (clock c0 + 1000 * N.of_nat (length done) <= clock c)%N /\
  (forall b, b <> final -> bucket c !! b = bucket c0 !! b) /\
  (final ∉ concat done ->
   forall acc, bucket c0 !! final = Some acc ->
     exists x, read_all (bucket c0) (concat done) = Some x /\
               bucket c !! final = Some (acc ++ x)).

(** The events of the compose calls that succeeded on the chunks [done]. *)
Definition keep_events (final : Blob) (done : list (list Blob)) : list Event :=
  map (fun c => Compose final (final :: c) true) done.

(** The times at which the batches of a trace were handed to the cleanup
    dispatcher. [compose] calls [delete_objects_concurrent] as soon as its
    compose call has returned, so the time of a dispatch is the time at
    which the compose call before it returned. *)
Definition dispatch_times (tr : list (N * Event)) : list N :=
  omap (fun e => match e with
                 | (t, Dispatch _) => Some t
                 | _ => None
                 end) tr.

(** After each of the times [rs] at least [d] passes before the next of the
    times [ts]: with [rs] the times at which the calls returned and [ts]
    the times at which they were issued, the call number [i + 1] is issued
    at least [d] after the call number [i] has returned. *)
Definition waited (d : N) (rs ts : list N) : Prop :=
  forall i r t, rs !! i = Some r -> ts !! S i = Some t -> (r + d <= t)%N.

(** ** One turn of the loop, on the outside world alone *)

Section Runs.
Variable env : Oracle.

(** The effect of [delete_objects_concurrent] on a batch. *)
Definition dispatch (batch : list Blob) : M Cloud unit :=
  do! emit (Dispatch batch) in
  for_each batch (fun blob => do! submit_delete blob in sleep env 5).

(** The effect of one turn of the loop of [compose] on the chunk [c]. *)
Definition turn (final_blob : Blob) (c : list Blob) : M Cloud unit :=
  do! gw_compose env final_blob (final_blob :: c) in
  do! dispatch c in
  sleep env 1000.

(** The same for [src/list-files.py], which dispatches nothing. *)
Definition turn_keep (final_blob : Blob) (c : list Blob) : M Cloud unit :=
  do! gw_compose env final_blob (final_blob :: c) in
  sleep env 1000.

(** The effect of [compose] on a list of chunks. *)
Definition run (final_blob : Blob) (cs : list (list Blob)) : M Cloud Blob :=
  do! upload_empty env final_blob in
  do! for_each cs (turn final_blob) in
  ret final_blob.

Definition run_keep (final_blob : Blob) (cs : list (list Blob))
  : M Cloud Blob :=
  do! upload_empty env final_blob in
  do! for_each cs (turn_keep final_blob) in
  ret final_blob.

End Runs.

(** ** Sample oracles and worlds *)

(** No failure, no latency, and a pool that runs every deletion at once. *)
Definition calm : Oracle :=
  {| upload_fails := false; compose_fails := fun _ => false;
     pool_runs := fun _ _ => true; latency := fun _ => 0%N |}.

(** No failure, growing latencies, and a pool that runs nothing. *)
Definition lazy_pool : Oracle :=
  {| upload_fails := false; compose_fails := fun _ => false;
     pool_runs := fun _ _ => false; latency := fun t => N.of_nat t |}.

(** The gateway errors the first compose call. *)
Definition first_call_fails : Oracle :=
  {| upload_fails := false; compose_fails := fun n => (n =? 0)%nat;
     pool_runs := fun _ _ => true; latency := fun _ => 0%N |}.

(** The gateway errors the second compose call; the pool runs nothing, or
    every deletion at once. *)
Definition second_call_fails (prompt : bool) : Oracle :=
  {| upload_fails := false; compose_fails := fun n => (n =? 1)%nat;
     pool_runs := fun _ _ => prompt; latency := fun _ => 0%N |}.

(** A bucket at time 0, with an idle executor and an empty trace. *)
Definition fresh_cloud (b : gmap string (list byte)) : Cloud :=
  {| bucket := b; pool := []; clock := 0; tick := 0; trace := [] |}.

(** Three slices [a], [b], [c]; the caller's list is at address 0. *)
Definition three_slices : World :=
  {| heap := [["a"; "b"; "c"]];
     cloud := fresh_cloud {[ "a" := [x61]; "b" := [x62]; "c" := [x63] ]} |}.

(** The destination [out] is itself the only slice. *)
Definition aliased : World :=
  {| heap := [["out"]]; cloud := fresh_cloud {[ "out" := [x44] ]} |}.


(** The same slice [s], 63 times: three chunks. *)
Definition repeated63 : World :=
  {| heap := [replicate 63 "s"]; cloud := fresh_cloud {[ "s" := [x73] ]} |}.

(** The gateway refuses the upload. *)
Definition upload_refused : Oracle :=
  {| upload_fails := true; compose_fails := fun _ => false;
     pool_runs := fun _ _ => true; latency := fun _ => 0%N |}.

(** Two slices, of which [z] is not stored. *)
Definition one_missing : World :=
  {| heap := [["a"; "z"]]; cloud := fresh_cloud {[ "a" := [x61] ]} |}.

(** Two objects under the prefix of the script, and one beside it. *)
Definition data_lake : Process :=
  {| world :=
       {| heap := [];
          cloud := fresh_cloud
            {[ "gs://analytics-data-lake/googl-data-avro/part-0" := [x30];
               "gs://analytics-data-lake/googl-data-avro/part-1" := [x31];
               "gs://analytics-data-lake/other/readme" := [x72] ]} |};
     stdout := [] |}.

Definition data_lake_listing : list Blob :=
  ["gs://analytics-data-lake/googl-data-avro/part-0";
   "gs://analytics-data-lake/googl-data-avro/part-1"].

(** The first compose call takes five seconds, nothing else takes time, and
    the pool runs nothing. *)
Definition slow_gateway : Oracle :=
  {| upload_fails := false; compose_fails := fun _ => false;
     pool_runs := fun _ _ => false;
     latency := fun t => if (t =? 1)%nat then 5000%N else 0%N |}.

(** The slices [s0], [s1], ..., each of them stored: 63 distinct slices make
    three chunks. *)
Definition numbered (n : nat) : list Blob :=
  (fun i => "s" +:+ pretty i) <$> seq 0 n.

Definition sixty_three : World :=
  {| heap := [numbered 63];
     cloud := fresh_cloud
                (list_to_map ((fun s => (s, [x73])) <$> numbered 63)) |}.

(** * Properties of the chunker on values *)

Section Chunks.
Context {A : Type}.
Implicit Types (l : list A) (k : Z).

Lemma slice_bound_pos n k : 0 < k -> slice_bound n k = Nat.min (Z.to_nat k) n.
Proof.
  intros Hk. unfold slice_bound.
  destruct (Z.ltb_spec k 0); lia.
Qed.

Lemma py_prefix_pos l k : 0 < k -> py_prefix l k = take (Z.to_nat k) l.
Proof.
  intros Hk. unfold py_prefix. rewrite slice_bound_pos by done.
  destruct (Nat.le_ge_cases (Z.to_nat k) (length l)) as [H|H].
  - by rewrite Nat.min_l.
  - rewrite Nat.min_r by done. by rewrite !take_ge.
Qed.

Lemma py_suffix_pos l k : 0 < k -> py_suffix l k = drop (Z.to_nat k) l.
Proof.
  intros Hk. unfold py_suffix. rewrite slice_bound_pos by done.
  destruct (Nat.le_ge_cases (Z.to_nat k) (length l)) as [H|H].
  - by rewrite Nat.min_l.
  - rewrite Nat.min_r by done. by rewrite !drop_ge.
Qed.

Lemma py_prefix_suffix l k : py_prefix l k ++ py_suffix l k = l.
Proof. apply take_drop. Qed.

Lemma py_suffix_shorter l k :
  0 < k -> l <> [] -> (length (py_suffix l k) < length l)%nat.
Proof.
  intros Hk Hl. rewrite py_suffix_pos, length_drop by done.
  destruct l; [done|]. simpl. lia.
Qed.

Lemma py_prefix_length l k :
  0 < k -> length (py_prefix l k) = Nat.min (Z.to_nat k) (length l).
Proof. intros. by rewrite py_prefix_pos, length_take. Qed.

Lemma chunks_fuel_irrel fuel1 fuel2 l k :
  0 < k -> (length l <= fuel1)%nat -> (length l <= fuel2)%nat ->
  chunks_fuel fuel1 l k = chunks_fuel fuel2 l k.
Proof.
  intros Hk. revert fuel2 l.
  induction fuel1 as [|fuel1 IH]; intros fuel2 l H1 H2.
  - destruct l; [by destruct fuel2|simpl in H1; lia].
  - destruct l as [|x l]; [by destruct fuel2|].
    destruct fuel2 as [|fuel2]; [simpl in H2; lia|].
    cbn [chunks_fuel]. f_equal.
    pose proof (py_suffix_shorter (x :: l) k Hk ltac:(done)) as Hs.
    apply IH; lia.
Qed.

Lemma chunks_fuel_enough fuel l k :
  0 < k -> (length l <= fuel)%nat -> chunks_fuel fuel l k = chunks l k.
Proof. intros Hk Hl. by apply chunks_fuel_irrel. Qed.

Lemma chunks_nil k : chunks (@nil A) k = [].
Proof. done. Qed.

Lemma chunks_cons l k :
  0 < k -> l <> [] ->
  chunks l k = py_prefix l k :: chunks (py_suffix l k) k.
Proof.
  intros Hk Hl. unfold chunks at 1.
  destruct l as [|x l]; [done|].
  change (length (x :: l)) with (S (length l)). cbn [chunks_fuel].
  f_equal. apply chunks_fuel_enough; [done|].
  pose proof (py_suffix_shorter (x :: l) k Hk ltac:(done)) as Hs.
  simpl in Hs. lia.
Qed.

(** Induction along the turns of the chunker. *)
Lemma chunks_ind k (Hk : 0 < k) (P : list A -> Prop) :
  P [] ->
  (forall l, l <> [] -> P (py_suffix l k) -> P l) ->
  forall l, P l.
Proof.
  intros Hnil Hstep l.
  remember (length l) as n eqn:Hn.
  revert l Hn. induction (lt_wf n) as [n _ IH]. intros l ->.
  destruct (decide (length l = 0%nat)) as [H0|H0].
  - apply nil_length_inv in H0. by subst.
  - assert (l <> []) as Hl by (intros ->; done).
    apply Hstep; [done|].
    eapply IH; [|done]. by apply py_suffix_shorter.
Qed.

Lemma concat_chunks l k : 0 < k -> concat (chunks l k) = l.
Proof.
  intros Hk. induction l as [|l Hl IH] using (chunks_ind k Hk); [done|].
  rewrite chunks_cons by done. simpl. rewrite IH. apply py_prefix_suffix.
Qed.

Lemma chunks_length l k :
  0 < k -> Z.of_nat (length (chunks l k)) = ceil_div (length l) k.
Proof.
  intros Hk. unfold ceil_div.
  induction l as [|l Hl IH] using (chunks_ind k Hk).
  - simpl. symmetry. apply Z.div_small. lia.
  - rewrite chunks_cons by done. cbn [length].
    rewrite Nat2Z.inj_succ, IH.
    rewrite py_suffix_pos, length_drop by done.
    assert (0 < length l)%nat by (destruct l; [done|simpl; lia]).
    destruct (Z_lt_le_dec (Z.of_nat (length l)) k) as [Hlt|Hge].
    + replace (length l - Z.to_nat k)%nat with 0%nat by lia.
      change (Z.of_nat 0) with 0. rewrite (Z.div_small (0 + k - 1)) by lia.
      apply Z.div_unique with (r := Z.of_nat (length l) - 1); lia.
    + replace (Z.of_nat (length l - Z.to_nat k) + k - 1)
        with (Z.of_nat (length l) - 1) by lia.
      replace (Z.of_nat (length l) + k - 1)
        with (Z.of_nat (length l) - 1 + 1 * k) by lia.
      rewrite Z.div_add by lia. lia.
Qed.

(** Every chunk is non-empty and holds at most [k] slices. *)
Lemma chunks_bounded l k :
  0 < k ->
  Forall (fun c => 0 < Z.of_nat (length c) <= k) (chunks l k).
Proof.
  intros Hk. induction l as [|l Hl IH] using (chunks_ind k Hk); [constructor|].
  rewrite chunks_cons by done. constructor; [|done].
  rewrite py_prefix_length by done.
  assert (0 < length l)%nat by (destruct l; [done|simpl; lia]). lia.
Qed.



End Chunks.

(** * The monad *)

Section Monad.
Context {S A B : Type}.

Lemma bind_Ok (m : M S A) (k : A -> M S B) s a s' :
  m s = (Ok a, s') -> bind m k s = k a s'.
Proof. unfold bind. by intros ->. Qed.

Lemma bind_Raise (m : M S A) (k : A -> M S B) s e s' :
  m s = (Raise e, s') -> bind m k s = (Raise e, s').
Proof. unfold bind. by intros ->. Qed.

Lemma bind_OutOfFuel (m : M S A) (k : A -> M S B) s s' :
  m s = (OutOfFuel, s') -> bind m k s = (OutOfFuel, s').
Proof. unfold bind. by intros ->. Qed.

End Monad.

Lemma lift_run {A} (m : M Cloud A) h c r c' :
  m c = (r, c') ->
  lift m {| heap := h; cloud := c |} = (r, {| heap := h; cloud := c' |}).
Proof. unfold lift. simpl. by intros ->. Qed.

Lemma lift_eq {A} (m : M Cloud A) w :
  lift m w = (fst (m (cloud w)), {| heap := heap w; cloud := snd (m (cloud w)) |}).
Proof. unfold lift. by destruct (m (cloud w)). Qed.

(** * The heap: what a run leaves alone *)

Lemma preserves_refl h : preserves h h.
Proof. by intros a l. Qed.

Lemma preserves_trans h1 h2 h3 : preserves h1 h2 -> preserves h2 h3 -> preserves h1 h3.
Proof. intros H1 H2 a l Ha. eauto. Qed.

Lemma preserves_app h t : preserves h (h ++ t).
Proof. intros a l Ha. by apply lookup_app_l_Some. Qed.

Lemma next_spec g h c l :
  gen_rest g h = Some l ->
  exists h',
    preserves h h' /\
    match l with
    | [] => next g {| heap := h; cloud := c |} = (Ok None, {| heap := h'; cloud := c |})
    | _ => exists a g',
        next g {| heap := h; cloud := c |}
        = (Ok (Some (a, g')), {| heap := h'; cloud := c |}) /\
        (length h <= a)%nat /\
        h' !! a = Some (py_prefix l (gen_chunk_size g)) /\
        gen_slices g' <> a /\
        h' !! gen_slices g' = Some l /\
        gen_chunk_size g' = gen_chunk_size g /\
        gen_suspended g' = true
    end.
Proof.
  unfold gen_rest. destruct g as [s k susp]. simpl.
  destruct (h !! s) as [l0|] eqn:Hs; [|done]. intros [= <-].
  unfold next, bind, slice_from, slice_to, deref, alloc, ret, bind. simpl.
  destruct susp; simpl; rewrite ?Hs; simpl.
  - rewrite lookup_app_r, Nat.sub_diag by done. simpl.
    destruct (py_suffix l0 k) as [|x l] eqn:Hl; simpl.
    + eexists. split; [|done]. apply preserves_app.
    + rewrite lookup_app_r, Nat.sub_diag by done. simpl.
      eexists. split; [|eexists _, _; split; [done|]].
      * rewrite <- app_assoc. apply preserves_app.
      * simpl. rewrite !length_app. simpl.
        split; [lia|]. split.
        { rewrite lookup_app_r by (rewrite length_app; simpl; lia).
          rewrite length_app. simpl. by rewrite Nat.sub_diag. }
        split; [lia|]. split; [|done].
        rewrite lookup_app_l by (rewrite length_app; simpl; lia).
        rewrite lookup_app_r by done. by rewrite Nat.sub_diag.
  - destruct l0 as [|x l]; simpl.
    + eexists. split; [|done]. apply preserves_refl.
    + rewrite Hs. simpl. eexists. split; [|eexists _, _; split; [done|]].
      * apply preserves_app.
      * simpl. split; [lia|]. split.
        { rewrite lookup_app_r by done. by rewrite Nat.sub_diag. }
        apply lookup_lt_Some in Hs as Hlt.
        split; [lia|]. split; [|done]. by apply lookup_app_l_Some.
Qed.

(** * One turn of the loop, on the heap and on the outside world *)

Section Turns.
Variable env : Oracle.

Lemma slice_bound_one n : slice_bound (S n) 1 = 1%nat.
Proof. unfold slice_bound. simpl. lia. Qed.

Lemma compose_body_spec final a c h cl :
  h !! a = Some c ->
  exists h',
    SingleAccumulator.compose_body env final a {| heap := h; cloud := cl |}
    = (fst (turn env final c cl),
       {| heap := h'; cloud := snd (turn env final c cl) |})
    /\ preserves_except a h h'.
Proof.
  intros Ha.
  assert (Hlt : (a < length h)%nat) by (by eapply lookup_lt_Some).
  assert (Hfr : forall t, preserves_except a h (<[a:=final :: c]> h ++ t)).
  { intros t a' x Hne Hx. apply lookup_app_l_Some.
    by rewrite list_lookup_insert_ne. }
  unfold SingleAccumulator.compose_body, turn.
  erewrite bind_Ok; [|by unfold list_insert; cbn; rewrite Ha].
  erewrite bind_Ok;
    [|by unfold deref; cbn; rewrite list_lookup_insert_eq by done].
  change (py_insert c 0 final) with (final :: c).
  destruct (gw_compose env final (final :: c) cl) as [[[]|e|] cl1] eqn:Hg.
  2:{ erewrite bind_Raise; [|by apply lift_run].
      erewrite bind_Raise by done.
      exists (<[a:=final :: c]> h). split; [done|].
      specialize (Hfr []). by rewrite app_nil_r in Hfr. }
  2:{ erewrite bind_OutOfFuel; [|by apply lift_run].
      erewrite bind_OutOfFuel by done.
      exists (<[a:=final :: c]> h). split; [done|].
      specialize (Hfr []). by rewrite app_nil_r in Hfr. }
  erewrite bind_Ok; [|by apply lift_run].
  erewrite (bind_Ok (gw_compose _ _ _)) by done.
  erewrite bind_Ok.
  2:{ unfold slice_from. erewrite bind_Ok;
        [|by unfold deref; cbn; rewrite list_lookup_insert_eq by done].
      unfold alloc, py_suffix. cbn [heap cloud].
      change (length (final :: c)) with (S (length c)).
      rewrite slice_bound_one. reflexivity. }
  cbn [drop]. rewrite length_insert.
  unfold SingleAccumulator.delete_objects_concurrent.
  fold (dispatch env c).
  destruct (dispatch env c cl1) as [[[]|e|] cl2] eqn:Hd.
  2:{ erewrite bind_Raise.
      2:{ erewrite bind_Ok.
          2:{ unfold deref. cbn [heap].
              rewrite lookup_app_r, length_insert, Nat.sub_diag
                by (by rewrite length_insert). reflexivity. }
          fold (dispatch env c). by apply lift_run. }
      erewrite bind_Raise by done. eauto. }
  2:{ erewrite bind_OutOfFuel.
      2:{ erewrite bind_Ok.
          2:{ unfold deref. cbn [heap].
              rewrite lookup_app_r, length_insert, Nat.sub_diag
                by (by rewrite length_insert). reflexivity. }
          fold (dispatch env c). by apply lift_run. }
      erewrite bind_OutOfFuel by done. eauto. }
  erewrite bind_Ok.
  2:{ erewrite bind_Ok.
      2:{ unfold deref. cbn [heap].
          rewrite lookup_app_r, length_insert, Nat.sub_diag
            by (by rewrite length_insert). reflexivity. }
      fold (dispatch env c). by apply lift_run. }
  erewrite (bind_Ok (dispatch env c)) by done.
  rewrite lift_eq. eauto.
Qed.

Lemma compose_body_keep_spec final a c h cl :
  h !! a = Some c ->
  exists h',
    ListFiles.compose_body env final a {| heap := h; cloud := cl |}
    = (fst (turn_keep env final c cl),
       {| heap := h'; cloud := snd (turn_keep env final c cl) |})
    /\ preserves_except a h h'.
Proof.
  intros Ha.
  assert (Hlt : (a < length h)%nat) by (by eapply lookup_lt_Some).
  assert (Hfr : preserves_except a h (<[a:=final :: c]> h)).
  { intros a' x Hne Hx. by rewrite list_lookup_insert_ne. }
  unfold ListFiles.compose_body, turn_keep.
  erewrite bind_Ok; [|by unfold list_insert; cbn; rewrite Ha].
  erewrite bind_Ok;
    [|by unfold deref; cbn; rewrite list_lookup_insert_eq by done].
  change (py_insert c 0 final) with (final :: c).
  destruct (gw_compose env final (final :: c) cl) as [[[]|e|] cl1] eqn:Hg.
  2:{ erewrite bind_Raise; [|by apply lift_run].
      erewrite bind_Raise by done. eauto. }
  2:{ erewrite bind_OutOfFuel; [|by apply lift_run].
      erewrite bind_OutOfFuel by done. eauto. }
  erewrite bind_Ok; [|by apply lift_run].
  erewrite (bind_Ok (gw_compose _ _ _)) by done.
  rewrite lift_eq. eauto.
Qed.

End Turns.

(** * The loops over the generator *)

Lemma gen_rest_after g' a h1 h2 l k :
  gen_slices g' <> a ->
  h1 !! gen_slices g' = Some l ->
  gen_chunk_size g' = k ->
  gen_suspended g' = true ->
  preserves_except a h1 h2 ->
  gen_rest g' h2 = Some (py_suffix l k).
Proof.
  intros Hne Hl Hk Hs Hp. unfold gen_rest.
  by rewrite (Hp _ _ Hne Hl), Hs, Hk.
Qed.

Lemma preserves_fresh h h1 h2 a :
  preserves h h1 -> (length h <= a)%nat -> preserves_except a h1 h2 ->
  preserves h h2.
Proof.
  intros H1 Ha H2 a' l Hl. apply H2; [|by apply H1].
  apply lookup_lt_Some in Hl. lia.
Qed.

(** A loop over the chunks whose body acts on the outside world as [step]
    does on the value of the chunk, and on the heap only at the chunk and at
    fresh addresses, acts as [step] on each chunk in turn. *)
Lemma for_chunks_spec (body : nat -> M World unit)
    (step : list Blob -> M Cloud unit) :
  (forall a c h cl, h !! a = Some c ->
     exists h', body a {| heap := h; cloud := cl |}
                = (fst (step c cl), {| heap := h'; cloud := snd (step c cl) |})
                /\ preserves_except a h h') ->
  forall fuel g h cl l,
    0 < gen_chunk_size g ->
    gen_rest g h = Some l ->
    (length l < fuel)%nat ->
    exists h',
      for_chunks fuel g body {| heap := h; cloud := cl |}
      = (fst (for_each (chunks l (gen_chunk_size g)) step cl),
         {| heap := h';
            cloud := snd (for_each (chunks l (gen_chunk_size g)) step cl) |})
      /\ preserves h h'.
Proof.
  intros Hbody. induction fuel as [|fuel IH]; intros g h cl l Hk Hg Hfuel;
    [lia|].
  destruct (next_spec g h cl l Hg) as (h1 & Hp1 & Hnext).
  cbn [for_chunks]. destruct l as [|x l'].
  { erewrite bind_Ok by done. rewrite chunks_nil. by exists h1. }
  destruct Hnext as (a & g' & Hnext & Ha & Hc & Hne & Hs & Hk' & Hsusp).
  set (l := x :: l') in *.
  erewrite bind_Ok by done.
  rewrite chunks_cons by done. cbn [for_each].
  destruct (Hbody a _ h1 cl Hc) as (h2 & Hb & Hp2).
  set (c := py_prefix l (gen_chunk_size g)) in *.
  destruct (step c cl) as [[[]|e|] cl1] eqn:Hstep; cbn [fst snd] in Hb.
  - erewrite bind_Ok by done. erewrite (bind_Ok (step c)) by done.
    destruct (IH g' h2 cl1 (py_suffix l (gen_chunk_size g)))
      as (h3 & Hrun & Hp3).
    + by rewrite Hk'.
    + by eapply gen_rest_after.
    + pose proof (py_suffix_shorter l _ Hk ltac:(done)). lia.
    + rewrite Hk' in Hrun. exists h3. split; [done|].
      eapply preserves_trans; [|done]. by eapply preserves_fresh.
  - erewrite bind_Raise by done. erewrite (bind_Raise (step c)) by done.
    exists h2. split; [done|]. by eapply preserves_fresh.
  - erewrite bind_OutOfFuel by done.
    erewrite (bind_OutOfFuel (step c)) by done.
    exists h2. split; [done|]. by eapply preserves_fresh.
Qed.

(** Listing the generator reads the chunks of the value and changes nothing
    but fresh addresses, whatever the chunk size. *)
Lemma collect_pure fuel g h cl l :
  gen_rest g h = Some l ->
  exists r h',
    collect fuel g {| heap := h; cloud := cl |}
    = (r, {| heap := h'; cloud := cl |})
    /\ preserves h h'
    /\ (forall e, r <> Raise e).
Proof.
  revert g h l. induction fuel as [|fuel IH]; intros g h l Hg.
  { exists OutOfFuel, h. split; [done|]. split; [apply preserves_refl|done]. }
  destruct (next_spec g h cl l Hg) as (h1 & Hp1 & Hnext).
  cbn [collect]. destruct l as [|x l'].
  { erewrite bind_Ok by done. by exists (Ok []), h1. }
  destruct Hnext as (a & g' & Hnext & Ha & Hc & Hne & Hs & Hk' & Hsusp).
  erewrite bind_Ok by done. cbv beta iota.
  erewrite bind_Ok; [|by unfold deref; cbn [heap]; rewrite Hc].
  destruct (IH g' h1 (py_suffix (x :: l') (gen_chunk_size g')))
    as (r & h2 & Hrun & Hp2 & Hr).
  { unfold gen_rest. by rewrite Hs, Hsusp. }
  destruct r as [cs|e|].
  - erewrite bind_Ok by done. eexists _, h2. split; [done|].
    split; [by eapply preserves_trans|done].
  - by destruct (Hr e).
  - erewrite bind_OutOfFuel by done. eexists _, h2. split; [done|].
    split; [by eapply preserves_trans|done].
Qed.

Lemma collect_spec fuel g h cl l :
  0 < gen_chunk_size g ->
  gen_rest g h = Some l ->
  (length l < fuel)%nat ->
  exists h',
    collect fuel g {| heap := h; cloud := cl |}
    = (Ok (chunks l (gen_chunk_size g)), {| heap := h'; cloud := cl |})
    /\ preserves h h'.
Proof.
  revert g h l. induction fuel as [|fuel IH]; intros g h l Hk Hg Hfuel; [lia|].
  destruct (next_spec g h cl l Hg) as (h1 & Hp1 & Hnext).
  cbn [collect]. destruct l as [|x l'].
  { erewrite bind_Ok by done. by exists h1. }
  destruct Hnext as (a & g' & Hnext & Ha & Hc & Hne & Hs & Hk' & Hsusp).
  set (l := x :: l') in *.
  erewrite bind_Ok by done. cbv beta iota.
  erewrite bind_Ok; [|by unfold deref; cbn [heap]; rewrite Hc].
  destruct (IH g' h1 (py_suffix l (gen_chunk_size g))) as (h2 & Hrun & Hp2).
  - by rewrite Hk'.
  - unfold gen_rest. by rewrite Hs, Hsusp, Hk'.
  - pose proof (py_suffix_shorter l _ Hk ltac:(done)). lia.
  - erewrite bind_Ok by done. rewrite Hk', <- chunks_cons by done.
    exists h2. split; [done|]. by eapply preserves_trans.
Qed.

(** ** [compose] as a run over the chunks of the slice list *)

Section ComposeSpec.
Variable env : Oracle.

Lemma compose_loop_spec fuel final g h cl l :
  0 < gen_chunk_size g ->
  gen_rest g h = Some l ->
  (length l < fuel)%nat ->
  exists h',
    SingleAccumulator.compose_loop env fuel final g {| heap := h; cloud := cl |}
    = (fst (for_each (chunks l (gen_chunk_size g)) (turn env final) cl),
       {| heap := h';
          cloud := snd (for_each (chunks l (gen_chunk_size g))
                          (turn env final) cl) |})
    /\ preserves h h'.
Proof.
  apply for_chunks_spec. intros. by apply compose_body_spec.
Qed.

Lemma compose_loop_keep_spec fuel final g h cl l :
  0 < gen_chunk_size g ->
  gen_rest g h = Some l ->
  (length l < fuel)%nat ->
  exists h',
    ListFiles.compose_loop env fuel final g {| heap := h; cloud := cl |}
    = (fst (for_each (chunks l (gen_chunk_size g)) (turn_keep env final) cl),
       {| heap := h';
          cloud := snd (for_each (chunks l (gen_chunk_size g))
                          (turn_keep env final) cl) |})
    /\ preserves h h'.
Proof.
  apply for_chunks_spec. intros. by apply compose_body_keep_spec.
Qed.

Lemma compose_spec fuel dest slices h cl l :
  h !! slices = Some l ->
  (length l < fuel)%nat ->
  exists h',
    SingleAccumulator.compose env fuel dest slices {| heap := h; cloud := cl |}
    = (fst (run env dest (chunks l default_chunk_size) cl),
       {| heap := h';
          cloud := snd (run env dest (chunks l default_chunk_size) cl) |})
    /\ preserves h h'.
Proof.
  intros Hl Hfuel. unfold SingleAccumulator.compose, run.
  destruct (upload_empty env dest cl) as [[[]|e|] cl0] eqn:Hup.
  2:{ erewrite bind_Raise by (by apply lift_run).
      erewrite bind_Raise by done. exists h. split; [done|apply preserves_refl]. }
  2:{ erewrite bind_OutOfFuel by (by apply lift_run).
      erewrite bind_OutOfFuel by done.
      exists h. split; [done|apply preserves_refl]. }
  erewrite bind_Ok by (by apply lift_run).
  erewrite (bind_Ok (upload_empty _ _)) by done.
  destruct (compose_loop_spec fuel dest
              (generate_composition_chunks slices default_chunk_size)
              h cl0 l) as (h' & Hrun & Hp); [done| |done|].
  { unfold gen_rest. simpl. by rewrite Hl. }
  cbn [gen_chunk_size generate_composition_chunks] in Hrun.
  exists h'. split; [|done].
  destruct (for_each (chunks l default_chunk_size) (turn env dest) cl0)
    as [[[]|e|] cl1] eqn:Hloop; cbn [fst snd] in Hrun.
  - erewrite bind_Ok by done. by erewrite (bind_Ok (for_each _ _)) by done.
  - erewrite bind_Raise by done. by erewrite (bind_Raise (for_each _ _)) by done.
  - erewrite bind_OutOfFuel by done.
    by erewrite (bind_OutOfFuel (for_each _ _)) by done.
Qed.

Lemma compose_keep_spec fuel dest slices h cl l :
  h !! slices = Some l ->
  (length l < fuel)%nat ->
  exists h',
    ListFiles.compose env fuel dest slices {| heap := h; cloud := cl |}
    = (fst (run_keep env dest (chunks l default_chunk_size) cl),
       {| heap := h';
          cloud := snd (run_keep env dest (chunks l default_chunk_size) cl) |})
    /\ preserves h h'.
Proof.
  intros Hl Hfuel. unfold ListFiles.compose, run_keep.
  destruct (upload_empty env dest cl) as [[[]|e|] cl0] eqn:Hup.
  2:{ erewrite bind_Raise by (by apply lift_run).
      erewrite bind_Raise by done. exists h. split; [done|apply preserves_refl]. }
  2:{ erewrite bind_OutOfFuel by (by apply lift_run).
      erewrite bind_OutOfFuel by done.
      exists h. split; [done|apply preserves_refl]. }
  erewrite bind_Ok by (by apply lift_run).
  erewrite (bind_Ok (upload_empty _ _)) by done.
  destruct (compose_loop_keep_spec fuel dest
              (generate_composition_chunks slices default_chunk_size)
              h cl0 l) as (h' & Hrun & Hp); [done| |done|].
  { unfold gen_rest. simpl. by rewrite Hl. }
  cbn [gen_chunk_size generate_composition_chunks] in Hrun.
  exists h'. split; [|done].
  destruct (for_each (chunks l default_chunk_size) (turn_keep env dest) cl0)
    as [[[]|e|] cl1] eqn:Hloop; cbn [fst snd] in Hrun.
  - erewrite bind_Ok by done. by erewrite (bind_Ok (for_each _ _)) by done.
  - erewrite bind_Raise by done. by erewrite (bind_Raise (for_each _ _)) by done.
  - erewrite bind_OutOfFuel by done.
    by erewrite (bind_OutOfFuel (for_each _ _)) by done.
Qed.

End ComposeSpec.

(** * Runs on the outside world *)

(** A [for] loop over a list either completes every turn, or stops at the
    first turn that does not return. [P done s] is an invariant of the
    turns completed so far. *)
Lemma for_each_inv {S A} (body : A -> M S unit) (P : list A -> S -> Prop) l s :
  P [] s ->
  (forall done x rest s1 s2,
     l = done ++ x :: rest ->
     P done s1 -> body x s1 = (Ok tt, s2) -> P (done ++ [x]) s2) ->
  match for_each l body s with
  | (Ok _, s') => P l s'
  | (r, s') => exists done x rest s1,
      l = done ++ x :: rest /\ P done s1 /\ body x s1 = (r, s')
  end.
Proof.
  intros H0 Hstep.
  cut (forall done todo s1, l = done ++ todo -> P done s1 ->
         match for_each todo body s1 with
         | (Ok _, s') => P l s'
         | (r, s') => exists done' x rest s2,
             l = done' ++ x :: rest /\ P done' s2 /\ body x s2 = (r, s')
         end).
  { intros H. apply (H [] l s); done. }
  intros done todo. revert done.
  induction todo as [|x todo IH]; intros done s1 Hl HP.
  - simpl. rewrite app_nil_r in Hl. by subst.
  - cbn [for_each]. destruct (body x s1) as [[[]|e|] s2] eqn:Hb.
    + erewrite bind_Ok by done.
      apply (IH (done ++ [x]) s2); [by rewrite <- app_assoc|].
      by eapply Hstep.
    + erewrite bind_Raise by done. by exists done, x, todo, s1.
    + erewrite bind_OutOfFuel by done. by exists done, x, todo, s1.
Qed.

(** ** Steps that write nothing to the bucket *)

Lemma quiet_refl c : quiet [] c c.
Proof. repeat split; auto; lia. Qed.

Lemma quiet_trans a1 a2 c1 c2 c3 :
  quiet a1 c1 c2 -> quiet a2 c2 c3 -> quiet (a1 ++ a2) c1 c3.
Proof.
  intros (Hc1 & Hs1 & Hk1 & Hp1) (Hc2 & Hs2 & Hk2 & Hp2).
  repeat split.
  - lia.
  - eauto.
  - intros b Hb Hadd. apply not_elem_of_app in Hadd as [Ha1 Ha2].
    rewrite Hk2, Hk1; [done..| |done].
    intros Hin. by destruct (Hp1 _ Hin).
  - intros b Hb. rewrite elem_of_app.
    destruct (Hp2 _ Hb) as [Hin|Hin]; [|by auto].
    destruct (Hp1 _ Hin); auto.
Qed.

Lemma lookup_foldr_delete (m : gmap string (list byte)) (l : list string) b :
  foldr delete m l !! b = if decide (b ∈ l) then None else m !! b.
Proof.
  induction l as [|x l IH]; simpl.
  - destruct (decide (b ∈ [])) as [H|]; [by apply elem_of_nil in H|done].
  - destruct (decide (x = b)) as [->|Hne].
    + rewrite lookup_delete_eq.
      destruct (decide (b ∈ b :: l)) as [|H]; [done|].
      destruct H. by left.
    + rewrite lookup_delete_ne, IH by done.
      destruct (decide (b ∈ l)) as [Hin|Hin];
        destruct (decide (b ∈ x :: l)) as [Hin'|Hin']; try done.
      * destruct Hin'. by right.
      * apply elem_of_cons in Hin' as [->|]; done.
Qed.

Section Steps.
Variable env : Oracle.

Lemma pause_spec ms c :
  exists c',
    pause env ms c = (Ok tt, c') /\
    trace c' = trace c /\
    clock c' = (clock c + ms + latency env (tick c))%N /\
    quiet [] c c'.
Proof.
  eexists. split; [done|]. cbn. split; [done|]. split; [done|].
  repeat split; cbn.
  - lia.
  - intros b v. rewrite lookup_foldr_delete. by destruct (decide _).
  - intros b Hb _. rewrite lookup_foldr_delete.
    rewrite decide_False; [done|].
    intros Hin. apply list_elem_of_filter in Hin as [_ Hin]. done.
  - intros b Hb. apply list_elem_of_filter in Hb as [_ Hb]. by left.
Qed.

Lemma emit_spec e c :
  emit e c = (Ok tt, log (clock c) e c) /\ quiet [] c (log (clock c) e c).
Proof. split; [done|]. repeat split; cbn; auto; lia. Qed.

Lemma submit_delete_spec b c :
  exists c',
    submit_delete b c = (Ok tt, c') /\
    trace c' = trace c ++ [(clock c, Submit b)] /\
    quiet [b] c c'.
Proof.
  eexists. split; [done|]. split; [done|].
  repeat split; cbn; auto; try lia.
  intros b' Hb. apply elem_of_app in Hb as [|Hb]; [by left|right; done].
Qed.

(** The dispatcher submits the batch in order and never raises. *)
Lemma dispatch_loop_spec batch c :
  exists c',
    for_each batch (fun blob => do! submit_delete blob in sleep env 5) c
    = (Ok tt, c') /\
    events (trace c') = events (trace c) ++ map Submit batch /\
    compose_times (trace c') = compose_times (trace c) /\
    quiet batch c c'.
Proof.
  revert c. induction batch as [|b batch IH]; intros c.
  - exists c. split; [done|]. rewrite !app_nil_r.
    split; [done|]. split; [done|]. apply quiet_refl.
  - cbn [for_each].
    destruct (submit_delete_spec b c) as (c1 & Hs & Ht1 & Hq1).
    destruct (pause_spec 5 c1) as (c2 & Hp & Ht2 & _ & Hq2).
    destruct (IH c2) as (c3 & Hrun & Hev & Hct & Hq3).
    exists c3. split.
    { erewrite bind_Ok; [done|]. by erewrite bind_Ok by done. }
    unfold events, compose_times in *.
    rewrite Hev, Hct, Ht2, Ht1, fmap_app, omap_app. cbn.
    rewrite app_nil_r, <- app_assoc. split; [done|]. split; [done|].
    change (b :: batch) with ([b] ++ batch).
    eapply quiet_trans; [|done].
    rewrite <- (app_nil_r [b]). by eapply quiet_trans.
Qed.

Lemma dispatch_spec batch c :
  exists c',
    dispatch env batch c = (Ok tt, c') /\
    events (trace c') = events (trace c) ++ Dispatch batch :: map Submit batch /\
    compose_times (trace c') = compose_times (trace c) /\
    quiet batch c c'.
Proof.
  unfold dispatch.
  destruct (emit_spec (Dispatch batch) c) as (He & Hq1).
  destruct (dispatch_loop_spec batch (log (clock c) (Dispatch batch) c))
    as (c' & Hrun & Hev & Hct & Hq2).
  exists c'. split; [by erewrite bind_Ok by done|].
  rewrite Hev, Hct. unfold events, compose_times. cbn.
  rewrite fmap_app, omap_app. cbn. rewrite app_nil_r, <- app_assoc.
  split; [done|]. split; [done|].
  change batch with ([] ++ batch). by eapply quiet_trans.
Qed.

End Steps.

(** ** Reading the sources of a compose call *)

Lemma read_all_cons (m : gmap string (list byte)) b l :
  read_all m (b :: l)
  = match m !! b, read_all m l with
    | Some v, Some x => Some (v ++ x)
    | _, _ => None
    end.
Proof.
  unfold read_all. cbn. destruct (m !! b) as [v|]; [|done]. cbn.
  by destruct (mapM (fun s => m !! s) l).
Qed.

Lemma read_all_app (m : gmap string (list byte)) l1 l2 x1 x2 :
  read_all m l1 = Some x1 -> read_all m l2 = Some x2 ->
  read_all m (l1 ++ l2) = Some (x1 ++ x2).
Proof.
  revert x1. induction l1 as [|b l1 IH]; intros x1.
  - intros [= <-]. done.
  - rewrite <- app_comm_cons, !read_all_cons.
    destruct (m !! b) as [v|]; [|done].
    destruct (read_all m l1) as [y|]; [|done].
    intros [= <-] H2. rewrite (IH y) by done. by rewrite app_assoc.
Qed.

(** Reading sources that a second bucket holds with the same content. *)
Lemma read_all_mono (m1 m2 : gmap string (list byte)) l x :
  (forall b v, b ∈ l -> m1 !! b = Some v -> m2 !! b = Some v) ->
  read_all m1 l = Some x -> read_all m2 l = Some x.
Proof.
  revert x. induction l as [|b l IH]; intros x Hsub; [done|].
  rewrite !read_all_cons.
  destruct (m1 !! b) as [v|] eqn:Hb; [|done].
  rewrite (Hsub b v) by (done || by left).
  destruct (read_all m1 l) as [y|]; [|done].
  intros [= <-]. rewrite (IH y); [done| |done].
  intros b' v' Hin. apply Hsub. by right.
Qed.

Lemma read_all_is_Some (m : gmap string (list byte)) l :
  is_Some (read_all m l) <-> forall b, b ∈ l -> is_Some (m !! b).
Proof.
  induction l as [|b l IH].
  - split; [|by eexists]. intros _ b Hb. by apply elem_of_nil in Hb.
  - rewrite read_all_cons. split.
    + intros Hs b' Hb'. destruct (m !! b) as [v|] eqn:Hb.
      2:{ by destruct Hs. }
      destruct (read_all m l) as [y|]; [|by destruct Hs].
      apply elem_of_cons in Hb' as [->|Hb']; [by rewrite Hb|].
      apply IH; [by eexists|done].
    + intros Hall. destruct (Hall b) as [v ->]; [by left|].
      destruct (proj2 IH) as [y ->]; [|by eexists].
      intros b' Hb'. apply Hall. by right.
Qed.

(** ** One turn of the loop *)

Section TurnSpec.
Variable env : Oracle.

Lemma gw_compose_spec target sources c :
  exists c1,
    pause env 0 c = (Ok tt, c1) /\ trace c1 = trace c /\ quiet [] c c1 /\
    let failed := log (clock c) (Compose target sources false) c1 in
    ((gw_compose env target sources c = (Raise InvalidInputCount, failed)
      /\ (provider_limit + 1 < length sources)%nat)
     \/ (gw_compose env target sources c = (Raise ComposeFailed, failed)
         /\ (length sources <= provider_limit + 1)%nat
         /\ compose_fails env (length (compose_times (trace c))) = true)
     \/ (gw_compose env target sources c = (Raise NotFound, failed)
         /\ (length sources <= provider_limit + 1)%nat
         /\ compose_fails env (length (compose_times (trace c))) = false
         /\ read_all (bucket c1) sources = None)
     \/ (exists content,
           gw_compose env target sources c
           = (Ok tt, log (clock c) (Compose target sources true)
                       (set_bucket (<[target := content]> (bucket c1)) c1))
           /\ (length sources <= provider_limit + 1)%nat
           /\ compose_fails env (length (compose_times (trace c))) = false
           /\ read_all (bucket c1) sources = Some content)).
Proof.
  destruct (pause_spec env 0 c) as (c1 & Hp & Ht & _ & Hq).
  exists c1. split; [done|]. split; [done|]. split; [done|].
  unfold gw_compose. rewrite Hp. cbn [snd].
  destruct (Nat.ltb_spec (provider_limit + 1) (length sources)) as [Hlen|Hlen].
  { by left. }
  destruct (compose_fails env _) eqn:Hf.
  { right; left. done. }
  destruct (read_all (bucket c1) sources) as [content|] eqn:Hr.
  - right; right; right. by exists content.
  - right; right; left. done.
Qed.

Lemma events_log t e c : events (trace (log t e c)) = events (trace c) ++ [e].
Proof. unfold events. cbn. by rewrite fmap_app. Qed.

Lemma compose_times_log_compose t tg src ok c :
  compose_times (trace (log t (Compose tg src ok) c))
  = compose_times (trace c) ++ [t].
Proof. unfold compose_times. cbn. by rewrite omap_app. Qed.

Lemma quiet_set_bucket added b c c' :
  quiet added (set_bucket b c) c' ->
  (clock c <= clock c')%N /\
  (forall x v, bucket c' !! x = Some v -> b !! x = Some v) /\
  (forall x, x ∉ pool c -> x ∉ added -> bucket c' !! x = b !! x) /\
  (forall x, x ∈ pool c' -> x ∈ pool c \/ x ∈ added).
Proof. done. Qed.

(** A turn either fails in its compose call, leaving a trace of the failed
    call and nothing else, or completes: the compose call succeeds on the
    content read after the pool has run, the chunk is dispatched, and at
    least a second passes. *)
Lemma turn_spec final c cl :
  exists cl1, quiet [] cl cl1 /\
  ((exists e cl',
      turn env final c cl = (Raise e, cl') /\
      compose_error e /\
      (e = InvalidInputCount -> (provider_limit < length c)%nat) /\
      (e = NotFound -> read_all (bucket cl1) (final :: c) = None) /\
      (e = ComposeFailed ->
       compose_fails env (length (compose_times (trace cl))) = true) /\
      events (trace cl')
      = events (trace cl) ++ [Compose final (final :: c) false] /\
      compose_times (trace cl') = compose_times (trace cl) ++ [clock cl] /\
      bucket cl' = bucket cl1 /\ pool cl' = pool cl1)
   \/ (exists content cl',
         turn env final c cl = (Ok tt, cl') /\
         (length c <= provider_limit)%nat /\
         compose_fails env (length (compose_times (trace cl))) = false /\
         read_all (bucket cl1) (final :: c) = Some content /\
         events (trace cl') = events (trace cl) ++ turn_events final c /\
         compose_times (trace cl') = compose_times (trace cl) ++ [clock cl] /\
         (clock cl + 1000 <= clock cl')%N /\
         quiet c (set_bucket (<[final := content]> (bucket cl1)) cl1) cl')).
Proof.
  destruct (gw_compose_spec final (final :: c) cl)
    as (cl1 & Hp & Ht & Hq & Hcases).
  exists cl1. split; [done|]. unfold turn.
  destruct Hcases as [[Hg Hlen]|[(Hg & Hlen & Hf)|[(Hg & Hlen & Hf & Hr)|
    (content & Hg & Hlen & Hf & Hr)]]].
  1-3: left; eexists _, _; split; [by erewrite bind_Raise by done|];
       rewrite events_log, compose_times_log_compose, Ht;
       unfold compose_error, provider_limit in *; cbn in *;
       repeat split; auto; try done; intros; lia.
  right. set (cl2 := log _ _ _) in Hg.
  destruct (dispatch_spec env c cl2) as (cl3 & Hd & Hev3 & Hct3 & Hq3).
  destruct (pause_spec env 1000 cl3) as (cl4 & Hs & Ht4 & Hck4 & Hq4).
  exists content, cl4. split.
  { erewrite bind_Ok by done. by erewrite bind_Ok by done. }
  rewrite Ht4, Hev3, Hct3. subst cl2.
  rewrite events_log, compose_times_log_compose.
  cbn [set_bucket trace]. rewrite Ht, <- app_assoc.
  unfold provider_limit in *. cbn in Hlen.
  split; [lia|]. split; [done|]. split; [done|]. split; [done|].
  split; [done|].
  pose proof (quiet_trans _ _ _ _ _ Hq3 Hq4) as Hq34.
  rewrite app_nil_r in Hq34. split; [|done].
  destruct Hq3 as (Hc3 & _). destruct Hq as (Hc & _). cbn in Hc3. lia.
Qed.

Lemma turn_not_out_of_fuel final c cl :
  fst (turn env final c cl) <> OutOfFuel.
Proof.
  destruct (turn_spec final c cl) as (cl1 & _ & [(e & cl' & -> & _)|
    (content & cl' & -> & _)]); done.
Qed.

End TurnSpec.

(** ** The loop over the chunks *)

Lemma spaced_nil d : spaced d [].
Proof. by intros i t1 t2. Qed.

Lemma spaced_snoc d ts t :
  spaced d ts -> Forall (fun t' => (t' + d <= t)%N) ts -> spaced d (ts ++ [t]).
Proof.
  intros Hs Hall i t1 t2 H1 H2.
  destruct (decide (S i < length ts)%nat) as [Hlt|Hge].
  - rewrite lookup_app_l in H1, H2 by lia. by eapply Hs.
  - apply lookup_lt_Some in H2 as Hlen. rewrite length_app in Hlen.
    simpl in Hlen. assert (S i = length ts) as Hi by lia.
    rewrite lookup_app_r, Hi, Nat.sub_diag in H2 by lia.
    injection H2 as <-.
    rewrite lookup_app_l in H1 by lia.
    rewrite Forall_forall in Hall. apply Hall.
    by eapply list_elem_of_lookup_2.
Qed.

Section Turns_reach.
Variable env : Oracle.

Lemma reached_start final cs c0 : reached final cs c0 [] c0.
Proof.
  unfold reached. cbn. rewrite app_nil_r. split; [done|]. split.
  { exists []. rewrite app_nil_r. split; [done|]. split; [done|].
    split; [apply spaced_nil|constructor]. }
  split; [lia|]. intros _ Hp acc Hacc. exists []. rewrite app_nil_r. auto.
Qed.

Lemma reached_step final cs c0 done c rest c1 c2 :
  cs = done ++ c :: rest ->
  reached final cs c0 done c1 ->
  turn env final c c1 = (Ok tt, c2) ->
  reached final cs c0 (done ++ [c]) c2.
Proof.
  intros Hcs (Hev & (ts & Hts & Hlen & Hsp & Hall) & Hck & Hbk) Hturn.
  destruct (turn_spec env final c c1) as (c1' & Hq1 & [(e & c' & Hf & _)|
    (content & c' & Hok & _ & _ & Hread & Hev2 & Hct2 & Hck2 & Hq2)]).
  { rewrite Hturn in Hf. done. }
  rewrite Hturn in Hok. injection Hok as <-.
  unfold reached. rewrite Hev2, Hev, flat_map_app. cbn [flat_map].
  rewrite app_nil_r, <- app_assoc. split; [done|]. split.
  { exists (ts ++ [clock c1]). rewrite Hct2, Hts, <- app_assoc.
    split; [done|]. rewrite !length_app, Hlen. split; [done|]. split.
    - apply spaced_snoc; [done|]. eapply Forall_impl; [done|].
      intros t [_ Ht]. exact Ht.
    - apply Forall_app. split.
      + eapply Forall_impl; [done|]. intros t Ht. cbn in Ht. lia.
      + constructor; [|constructor]. lia. }
  split; [lia|].
  intros Hnin Hp acc Hacc.
  destruct (Hbk Hnin Hp acc Hacc) as (x & Hx & Hfin & Hpool & Hshr).
  assert (final ∉ c) as Hc.
  { intros Hin. apply Hnin. subst cs. rewrite concat_app. cbn.
    rewrite !elem_of_app. auto. }
  destruct Hq1 as (_ & Hs1 & Hk1 & Hp1).
  apply quiet_set_bucket in Hq2 as (_ & Hs2 & Hk2 & Hp2).
  assert (final ∉ pool c1') as Hpool1.
  { intros Hin. destruct (Hp1 _ Hin) as [|Hin']; [done|].
    by apply elem_of_nil in Hin'. }
  rewrite read_all_cons, Hk1, Hfin in Hread by (done || apply not_elem_of_nil).
  destruct (read_all (bucket c1') c) as [y|] eqn:Hy; [|done].
  injection Hread as <-.
  exists (x ++ y). split.
  { rewrite concat_app. cbn. rewrite app_nil_r. apply read_all_app; [done|].
    eapply read_all_mono; [|done].
    intros b v Hb Hv. apply Hshr; [by intros ->|]. by apply Hs1. }
  split.
  { rewrite Hk2 by done. by rewrite lookup_insert_eq, app_assoc. }
  split.
  { intros Hin. by destruct (Hp2 _ Hin). }
  intros b v Hne Hv. apply Hshr; [done|]. apply Hs1.
  apply Hs2 in Hv. by rewrite lookup_insert_ne in Hv.
Qed.

(** The loop over the chunks [cs] from the state [c0]: it completes every
    turn, or fails in the compose call of one chunk after completing the
    turns before it. *)
Lemma turns_spec final cs c0 :
  exists r c',
    for_each cs (turn env final) c0 = (r, c') /\ finished final cs c0 r c'.
Proof.
  pose proof (for_each_inv (turn env final) (reached final cs c0) cs c0
                (reached_start final cs c0)) as H.
  destruct (for_each cs (turn env final) c0) as [r c'] eqn:Hrun.
  exists r, c'. split; [done|].
  specialize (H ltac:(intros; by eapply reached_step)).
  destruct r as [[]|e|]; [done|..];
    destruct H as (done & c & rest & c1 & Hcs & Hreach & Hturn).
  - destruct (turn_spec env final c c1) as (c1' & Hq1 & [(e' & c'' & Hf & Hrest)|
      (content & c'' & Hok & _)]); [|by rewrite Hturn in Hok].
    rewrite Hturn in Hf. injection Hf as <- <-.
    exists done, c, rest, c1, c1'.
    destruct Hrest as (? & ? & ? & ? & ? & ? & ? & ?).
    do 9 (split; [assumption|]). assumption.
  - by apply (turn_not_out_of_fuel env final c c1); rewrite Hturn.
Qed.

End Turns_reach.

(** ** The whole run *)

Section RunSpec.
Variable env : Oracle.

Lemma upload_empty_spec target c :
  (upload_fails env = true /\
   exists c', upload_empty env target c = (Raise UploadFailed, c') /\
     events (trace c') = events (trace c) ++ [Upload target false] /\
     compose_times (trace c') = compose_times (trace c))
  \/ (upload_fails env = false /\
      exists c0, upload_empty env target c = (Ok tt, c0) /\
        started target c c0).
Proof.
  destruct (pause_spec env 0 c) as (c1 & Hp & Ht & _ & Hq).
  unfold upload_empty. rewrite Hp. cbn [snd].
  destruct (upload_fails env); [left|right]; (split; [done|]);
    eexists; (split; [done|]).
  - rewrite events_log. unfold compose_times. cbn.
    rewrite omap_app, Ht. cbn. by rewrite app_nil_r.
  - unfold started. rewrite events_log. unfold compose_times, events. cbn.
    rewrite omap_app, Ht. cbn. rewrite app_nil_r.
    destruct Hq as (Hc & Hs & Hk & Hpl).
    repeat split; auto.
    + by rewrite lookup_insert_eq.
    + intros b Hb. destruct (Hpl _ Hb) as [|Hin]; [done|].
      by apply elem_of_nil in Hin.
    + intros b v Hne Hv. rewrite lookup_insert_ne in Hv by done. auto.
    + intros b Hne Hb. rewrite lookup_insert_ne by done.
      apply Hk; [done|apply not_elem_of_nil].
Qed.

Lemma run_spec final cs c :
  (upload_fails env = true /\
   exists c', run env final cs c = (Raise UploadFailed, c') /\
     events (trace c') = events (trace c) ++ [Upload final false] /\
     compose_times (trace c') = compose_times (trace c))
  \/ (upload_fails env = false /\
      exists c0 r c',
        started final c c0 /\
        for_each cs (turn env final) c0 = (r, c') /\
        run env final cs c = (returning final r, c')).
Proof.
  unfold run.
  destruct (upload_empty_spec final c) as [(Hf & c' & Hup & Hev)|
    (Hf & c0 & Hup & Hst)]; [left|right]; (split; [done|]).
  - exists c'. by erewrite bind_Raise by done.
  - destruct (for_each cs (turn env final) c0) as [r c'] eqn:Hrun.
    exists c0, r, c'. split; [done|]. split; [done|].
    erewrite bind_Ok by done.
    destruct r as [[]|e|].
    + by erewrite bind_Ok by done.
    + by erewrite bind_Raise by done.
    + by erewrite bind_OutOfFuel by done.
Qed.

End RunSpec.

(** ** Reading a trace *)

Lemma compose_calls_app es1 es2 :
  compose_calls (es1 ++ es2) = compose_calls es1 ++ compose_calls es2.
Proof. apply omap_app. Qed.

Lemma dispatches_app es1 es2 :
  dispatches (es1 ++ es2) = dispatches es1 ++ dispatches es2.
Proof. apply omap_app. Qed.

Lemma submitted_app es1 es2 :
  submitted (es1 ++ es2) = submitted es1 ++ submitted es2.
Proof. apply omap_app. Qed.

Lemma submitted_map_Submit l : submitted (map Submit l) = l.
Proof. induction l as [|b l IH]; [done|]. cbn. by f_equal. Qed.

Lemma compose_calls_map_Submit l : compose_calls (map Submit l) = [].
Proof. by induction l. Qed.

Lemma dispatches_map_Submit l : dispatches (map Submit l) = [].
Proof. by induction l. Qed.

Lemma compose_calls_turns final cs :
  compose_calls (flat_map (turn_events final) cs)
  = map (fun c => (final, final :: c, true)) cs.
Proof.
  induction cs as [|c cs IH]; [done|].
  cbn [flat_map map]. rewrite compose_calls_app, IH.
  unfold turn_events. cbn. by rewrite compose_calls_map_Submit.
Qed.

Lemma dispatches_turns final cs :
  dispatches (flat_map (turn_events final) cs) = cs.
Proof.
  induction cs as [|c cs IH]; [done|].
  cbn [flat_map]. rewrite dispatches_app, IH.
  unfold turn_events. cbn. by rewrite dispatches_map_Submit.
Qed.

Lemma submitted_turns final cs :
  submitted (flat_map (turn_events final) cs) = concat cs.
Proof.
  induction cs as [|c cs IH]; [done|].
  cbn [flat_map concat]. rewrite submitted_app, IH.
  unfold turn_events. cbn. by rewrite submitted_map_Submit.
Qed.

Lemma elem_of_concat_2 {A} (x : A) (l : list A) (ls : list (list A)) :
  x ∈ l -> l ∈ ls -> x ∈ concat ls.
Proof.
  intros Hx. induction ls as [|l' ls IH]; intros Hl.
  - by apply elem_of_nil in Hl.
  - cbn. apply elem_of_app. apply elem_of_cons in Hl as [<-|Hl]; auto.
Qed.

Lemma compose_calls_turn_events final c :
  compose_calls (turn_events final c) = [(final, final :: c, true)].
Proof. unfold turn_events. cbn. by rewrite compose_calls_map_Submit. Qed.

Lemma compose_calls_upload b ok es :
  compose_calls (Upload b ok :: es) = compose_calls es.
Proof. done. Qed.

Lemma dispatches_upload b ok es :
  dispatches (Upload b ok :: es) = dispatches es.
Proof. done. Qed.

Lemma submitted_upload b ok es :
  submitted (Upload b ok :: es) = submitted es.
Proof. done. Qed.

(** ** Reading the successful compose calls of a trace *)

Lemma composed_app es1 es2 : composed (es1 ++ es2) = composed es1 ++ composed es2.
Proof. apply omap_app. Qed.

Lemma composed_map_Submit l : composed (map Submit l) = [].
Proof. by induction l. Qed.

Lemma composed_turns final cs :
  composed (flat_map (turn_events final) cs) = map (cons final) cs.
Proof.
  induction cs as [|c cs IH]; [done|].
  cbn [flat_map map]. rewrite composed_app, IH.
  unfold turn_events. cbn. by rewrite composed_map_Submit.
Qed.

Lemma composed_outcome final done c :
  composed (flat_map (turn_events final) done ++ attempt final c)
  = map (cons final) done.
Proof.
  rewrite composed_app, composed_turns. destruct c; cbn; apply app_nil_r.
Qed.

(** * Properties of the chunker and of [compose] *)

(** The chunks that the consumer of the generator sees are those of the
    list value. *)
Lemma collect_chunks fuel (w : World) slices l K :
  heap w !! slices = Some l -> 0 < K -> (length l < fuel)%nat ->
  exists w1,
    collect fuel (generate_composition_chunks slices K) w
    = (Ok (chunks l K), w1)
    /\ cloud w1 = cloud w /\ preserves (heap w) (heap w1).
Proof.
  intros Hl HK Hfuel. destruct w as [h cl].
  destruct (collect_spec fuel (generate_composition_chunks slices K) h cl l)
    as (h' & Hrun & Hp); [done| |done|].
  { unfold gen_rest. cbn. cbn in Hl. by rewrite Hl. }
  by eexists.
Qed.

(** The loop of [compose] over a generator, as a run on the outside world. *)
Lemma compose_loop_run env fuel dest (w : World) slices l K :
  heap w !! slices = Some l -> 0 < K -> (length l < fuel)%nat ->
  exists r w',
    SingleAccumulator.compose_loop env fuel dest
      (generate_composition_chunks slices K) w = (r, w')
    /\ for_each (chunks l K) (turn env dest) (cloud w) = (r, cloud w')
    /\ preserves (heap w) (heap w').
Proof.
  intros Hl HK Hfuel. destruct w as [h cl].
  destruct (compose_loop_spec env fuel dest
              (generate_composition_chunks slices K) h cl l)
    as (h' & Hrun & Hp); [done| |done|].
  { unfold gen_rest. cbn. cbn in Hl. by rewrite Hl. }
  cbn [gen_chunk_size generate_composition_chunks] in Hrun.
  eexists _, _. split; [done|]. cbn [cloud heap]. split; [|done].
  by destruct (for_each _ _ _).
Qed.

(** [compose], as a run on the outside world. *)
Lemma compose_run env fuel dest (w : World) slices l :
  heap w !! slices = Some l -> (length l < fuel)%nat ->
  exists r w',
    SingleAccumulator.compose env fuel dest slices w = (r, w')
    /\ run env dest (chunks l default_chunk_size) (cloud w) = (r, cloud w')
    /\ preserves (heap w) (heap w').
Proof.
  intros Hl Hfuel. destruct w as [h cl].
  destruct (compose_spec env fuel dest slices h cl l) as (h' & Hrun & Hp);
    [done..|].
  eexists _, _. split; [done|]. cbn [cloud heap]. split; [|done].
  by destruct (run _ _ _ _).
Qed.

(** ** When a run returns *)

Section Returns.
Variable env : Oracle.

(** With a gateway that does not fail, chunks within the provider's limit,
    and slices that are stored, distinct from each other and from the
    accumulator, and free of pending deletions, every turn completes: the
    deletions that the loop submits only reach slices it has consumed. *)
Lemma turns_return final cs c0 :
  (forall n, compose_fails env n = false) ->
  Forall (fun c => (length c <= provider_limit)%nat) cs ->
  NoDup (concat cs) ->
  final ∉ concat cs ->
  final ∉ pool c0 ->
  is_Some (bucket c0 !! final) ->
  (forall s, s ∈ concat cs -> (s ∉ pool c0) /\ is_Some (bucket c0 !! s)) ->
  exists c', for_each cs (turn env final) c0 = (Ok tt, c').
Proof.
  intros Hgw Hlim Hnd Hfin Hp0 Hb0 Hs0.
  set (P := fun (done : list (list Blob)) (c : Cloud) =>
         (final ∉ pool c) /\ is_Some (bucket c !! final) /\
         forall s, s ∈ concat cs -> s ∉ concat done ->
                   (s ∉ pool c) /\ is_Some (bucket c !! s)).
  pose proof (for_each_inv (turn env final) P cs c0) as H.
  destruct (for_each cs (turn env final) c0) as [r c'] eqn:Hrun.
  assert (Hmem : forall done x rest s,
            cs = done ++ x :: rest -> s ∈ x ->
            s ∈ concat cs /\ (s ∉ concat done) /\ s <> final).
  { intros done x rest s Hcs Hs.
    assert (s ∈ concat cs) as Hin.
    { rewrite Hcs, concat_app. cbn. rewrite !elem_of_app. auto. }
    split; [done|]. split; [|by intros ->].
    rewrite Hcs, concat_app in Hnd. cbn in Hnd.
    apply NoDup_app in Hnd as (_ & Hdis & _).
    intros Hd. apply (Hdis s Hd). apply elem_of_app. by left. }
  assert (P cs c' /\ r = Ok tt) as [_ ->]; [|by exists c'].
  assert (Hgoal : match r with
                  | Ok _ => P cs c'
                  | _ => exists done x rest s1,
                      cs = done ++ x :: rest /\ P done s1 /\
                      turn env final x s1 = (r, c')
                  end).
  { apply H.
    - split; [done|]. split; [done|]. intros s Hs _. by apply Hs0.
    - intros done x rest c1 c2 Hcs (Hp1 & Hb1 & Hs1) Hturn.
      destruct (turn_spec env final x c1) as (c1a & Hq1 &
        [(e & c'' & Hf & _)|(content & c'' & Hok & _ & _ & _ & _ & _ & _ & Hq2)]);
        [by rewrite Hturn in Hf|].
      rewrite Hturn in Hok. injection Hok as <-.
      destruct Hq1 as (_ & _ & Hk1 & Hpl1).
      apply quiet_set_bucket in Hq2 as (_ & _ & Hk2 & Hpl2).
      assert (Hpa : forall b, b ∉ pool c1 -> b ∉ pool c1a).
      { intros b Hb Hin. destruct (Hpl1 _ Hin) as [|Hn]; [done|].
        by apply elem_of_nil in Hn. }
      assert (final ∉ x) as Hfx.
      { intros Hin. by destruct (Hmem done x rest final Hcs Hin) as (_ & _ & ?). }
      split; [|split].
      + intros Hin. destruct (Hpl2 _ Hin) as [Hin'|]; [|done].
        by apply (Hpa final).
      + rewrite Hk2 by auto. rewrite lookup_insert_eq. by eexists.
      + intros s Hs Hnd'. rewrite concat_app in Hnd'. cbn in Hnd'.
        rewrite app_nil_r in Hnd'. apply not_elem_of_app in Hnd' as [Hd Hx].
        destruct (Hs1 s Hs Hd) as [Hps Hbs].
        split.
        * intros Hin. destruct (Hpl2 _ Hin) as [Hin'|]; [|done].
          by apply (Hpa s).
        * rewrite Hk2 by auto.
          rewrite lookup_insert_ne by (by intros <-).
          rewrite Hk1; [done..|apply not_elem_of_nil]. }
  destruct r as [[]|e|]; [done|..];
    destruct Hgoal as (done & x & rest & c1 & Hcs & (Hp1 & Hb1 & Hs1) & Hturn);
    exfalso.
  - destruct (turn_spec env final x c1) as (c1a & Hq1 &
      [(e' & c'' & Hf & Herr & Hinv & Hnf & Hcf & _)|
       (content & c'' & Hok & _)]); [|by rewrite Hturn in Hok].
    rewrite Hturn in Hf. injection Hf as <- <-.
    destruct Herr as [-> | [-> | ->]].
    + specialize (Hinv eq_refl). rewrite Forall_forall in Hlim.
      specialize (Hlim x). rewrite Hcs in Hlim.
      specialize (Hlim ltac:(rewrite elem_of_app; right; by left)). lia.
    + rewrite Hgw in Hcf. by specialize (Hcf eq_refl).
    + specialize (Hnf eq_refl).
      assert (is_Some (read_all (bucket c1a) (final :: x))) as [v Hv];
        [|by rewrite Hv in Hnf].
      apply read_all_is_Some. intros b Hb.
      destruct Hq1 as (_ & _ & Hk1 & _).
      apply elem_of_cons in Hb as [->|Hb].
      * rewrite Hk1; [done..|apply not_elem_of_nil].
      * destruct (Hmem done x rest b Hcs Hb) as (Hin & Hd & _).
        destruct (Hs1 b Hin Hd) as [Hps Hbs].
        rewrite Hk1; [done..|apply not_elem_of_nil].
  - by apply (turn_not_out_of_fuel env final x c1); rewrite Hturn.
Qed.

Lemma compose_returns fuel dest (w : World) slices l :
  heap w !! slices = Some l -> (length l < fuel)%nat ->
  upload_fails env = false ->
  (forall n, compose_fails env n = false) ->
  NoDup l -> dest ∉ l ->
  (forall s, s ∈ l -> is_Some (bucket (cloud w) !! s)) ->
  (forall b, b ∈ pool (cloud w) -> b <> dest /\ b ∉ l) ->
  exists w', SingleAccumulator.compose env fuel dest slices w = (Ok dest, w').
Proof.
  intros Hl Hfuel Hup Hgw Hnd Hdest Hstored Hpool.
  destruct (compose_run env fuel dest w slices l)
    as (r & w' & Hrun & Hcloud & _); [done..|].
  destruct (run_spec env dest (chunks l default_chunk_size) (cloud w))
    as [(Hf & _)|(_ & c0 & r0 & c' & Hst & Hloop & Hr)]; [congruence|].
  rewrite Hcloud in Hr. injection Hr as -> <-.
  destruct Hst as (_ & _ & Hacc & _ & Hp0 & _ & Hkeep).
  destruct (turns_return dest (chunks l default_chunk_size) c0)
    as (c'' & Hok); try done.
  - eapply Forall_impl; [by apply chunks_bounded|].
    intros c Hc. cbn in Hc. unfold provider_limit, default_chunk_size in *. lia.
  - by rewrite concat_chunks.
  - by rewrite concat_chunks.
  - intros Hin. by destruct (Hpool _ (Hp0 _ Hin)).
  - intros s Hs. rewrite concat_chunks in Hs by done.
    assert (s ∉ pool (cloud w)) as Hps.
    { intros Hin. by destruct (Hpool _ Hin). }
    split; [by intros Hin; apply Hps, Hp0|].
    rewrite Hkeep; [by apply Hstored|by intros ->|done].
  - rewrite Hloop in Hok. injection Hok as Hr _. subst r0. by exists w'.
Qed.

End Returns.

(** ** Outcomes of the loop and of [compose] *)

Lemma finished_trace final cs c0 r c' :
  finished final cs c0 r c' ->
  exists done rest c1,
    cs = done ++ rest /\
    reached final cs c0 done c1 /\
    events (trace c')
    = events (trace c0) ++ flat_map (turn_events final) done
        ++ attempt final (stopped_at r rest) /\
    match r with
    | Ok _ => rest = [] /\ c1 = c'
    | Raise e => exists c rest',
        rest = c :: rest' /\ compose_error e /\
        (e = InvalidInputCount -> (provider_limit < length c)%nat) /\
        compose_times (trace c') = compose_times (trace c1) ++ [clock c1] /\
        (forall b, b ∉ pool c1 -> bucket c' !! b = bucket c1 !! b)
    | OutOfFuel => False
    end.
Proof.
  destruct r as [[]|e|]; cbn [finished]; [| |done].
  - intros Hr. exists cs, [], c'. rewrite !app_nil_r.
    split; [done|]. split; [done|]. split; [|done]. by destruct Hr.
  - intros (done & c & rest & c1 & c1' & Hcs & Hr & Hq & Hb & Hp & He & Hi &
            Hn & Hev & Hct).
    exists done, (c :: rest), c1. split; [done|]. split; [done|]. split.
    { destruct Hr as (Hev1 & _). cbn. by rewrite Hev, Hev1, <- app_assoc. }
    exists c, rest. do 4 (split; [done|]).
    intros b Hb'. rewrite Hb. destruct Hq as (_ & _ & Hk & _).
    apply Hk; [done|apply not_elem_of_nil].
Qed.

Lemma compose_calls_outcome final done c :
  compose_calls (flat_map (turn_events final) done ++ attempt final c)
  = map (fun c => (final, final :: c, true)) done
      ++ match c with Some c => [(final, final :: c, false)] | None => [] end.
Proof.
  rewrite compose_calls_app, compose_calls_turns. by destruct c.
Qed.

Lemma dispatches_outcome final done c :
  dispatches (flat_map (turn_events final) done ++ attempt final c) = done.
Proof.
  rewrite dispatches_app, dispatches_turns. destruct c; cbn; apply app_nil_r.
Qed.

Lemma submitted_outcome final done c :
  submitted (flat_map (turn_events final) done ++ attempt final c)
  = concat done.
Proof.
  rewrite submitted_app, submitted_turns. destruct c; cbn; apply app_nil_r.
Qed.

Lemma compose_loop_outcome env fuel dest (w : World) slices l K :
  heap w !! slices = Some l -> 0 < K -> (length l < fuel)%nat ->
  exists r w',
    SingleAccumulator.compose_loop env fuel dest
      (generate_composition_chunks slices K) w = (r, w')
    /\ finished dest (chunks l K) (cloud w) r (cloud w')
    /\ preserves (heap w) (heap w').
Proof.
  intros Hl HK Hfuel.
  destruct (compose_loop_run env fuel dest w slices l K)
    as (r & w' & Hrun & Hcloud & Hp); [done..|].
  destruct (turns_spec env dest (chunks l K) (cloud w)) as (r' & c' & Hr & Hf).
  rewrite Hcloud in Hr. injection Hr as <- <-. by exists r, w'.
Qed.

Lemma compose_outcome env fuel dest (w : World) slices l :
  heap w !! slices = Some l -> (length l < fuel)%nat ->
  exists r w',
    SingleAccumulator.compose env fuel dest slices w = (r, w')
    /\ preserves (heap w) (heap w')
    /\ ((upload_fails env = true /\ r = Raise UploadFailed /\
         events (trace (cloud w'))
         = events (trace (cloud w)) ++ [Upload dest false] /\
         compose_times (trace (cloud w')) = compose_times (trace (cloud w)))
        \/ (upload_fails env = false /\
            exists c0 r0,
              started dest (cloud w) c0 /\
              r = returning dest r0 /\
              finished dest (chunks l default_chunk_size) c0 r0 (cloud w'))).
Proof.
  intros Hl Hfuel.
  destruct (compose_run env fuel dest w slices l)
    as (r & w' & Hrun & Hcloud & Hp); [done..|].
  exists r, w'. split; [done|]. split; [done|].
  destruct (run_spec env dest (chunks l default_chunk_size) (cloud w))
    as [(Hf & c' & Hr & Hev)|(Hf & c0 & r0 & c' & Hst & Hloop & Hr)];
    rewrite Hcloud in Hr; injection Hr as -> <-.
  - left. by destruct Hev.
  - right. split; [done|]. exists c0, r0. split; [done|]. split; [done|].
    destruct (turns_spec env dest (chunks l default_chunk_size) c0)
      as (r' & c' & Hr & Hfin).
    rewrite Hloop in Hr. by injection Hr as <- <-.
Qed.



(** C2 (amended). The concatenation of the chunks is the slice list, for
    every chunk size K > 0; and when the destination is not one of the
    slices and no deletion of it is pending, a run of the loop that returns
    has appended to the accumulator the contents of the slices, in the order
    of the list, whatever K, so that after [compose] the accumulator holds
    exactly the concatenation of the slices in input order. *)
Theorem accumulator_content env (w : World) slices l dest K fuel :
  heap w !! slices = Some l -> 0 < K -> (length l < fuel)%nat ->
  (exists cs w1,
     collect fuel (generate_composition_chunks slices K) w = (Ok cs, w1) /\
     concat cs = l) /\
  (dest ∉ l -> dest ∉ pool (cloud w) ->
   (forall w' acc,
      SingleAccumulator.compose_loop env fuel dest
        (generate_composition_chunks slices K) w = (Ok tt, w') ->
      bucket (cloud w) !! dest = Some acc ->
      exists x,
        read_all (bucket (cloud w)) l = Some x /\
        bucket (cloud w') !! dest = Some (acc ++ x)) /\
   (forall b w',
      SingleAccumulator.compose env fuel dest slices w = (Ok b, w') ->
      exists x,
        read_all (bucket (cloud w)) l = Some x /\
        bucket (cloud w') !! dest = Some x) /\
   (upload_fails env = false ->
    (forall n, compose_fails env n = false) ->
    NoDup l ->
    (forall s, s ∈ l -> is_Some (bucket (cloud w) !! s)) ->
    (forall b, b ∈ pool (cloud w) -> b ∉ l) ->
    exists w' x,
      SingleAccumulator.compose env fuel dest slices w = (Ok dest, w') /\
      read_all (bucket (cloud w)) l = Some x /\
      bucket (cloud w') !! dest = Some x)).
Proof.
  intros Hl HK Hfuel. split.
  { destruct (collect_chunks fuel w slices l K) as (w1 & Hc & _); [done..|].
    exists (chunks l K), w1. split; [done|]. by apply concat_chunks. }
  intros Hdest Hpool.
  assert (Hcontent : forall b w',
            SingleAccumulator.compose env fuel dest slices w = (Ok b, w') ->
            exists x,
              read_all (bucket (cloud w)) l = Some x /\
              bucket (cloud w') !! dest = Some x).
  { intros b w' Hrun.
    destruct (compose_outcome env fuel dest w slices l)
      as (r & w2 & Hrun2 & _ & [(_ & Hr & _)|(_ & c0 & r0 & Hst & Hr & Hfin)]);
      [done..| |]; rewrite Hrun in Hrun2; injection Hrun2 as <- <-; [done|].
    destruct r0 as [[]|e|]; try done.
    destruct Hfin as (_ & _ & _ & Hb).
    rewrite concat_chunks in Hb by done.
    destruct Hst as (_ & _ & Hacc & _ & Hp0 & Hshr & _).
    destruct (Hb Hdest ltac:(by intros Hin; apply Hpool, Hp0) [] Hacc)
      as (x & Hx & Hfinal & _).
    exists x. split; [|done].
    eapply read_all_mono; [|done].
    intros s v Hs Hv. apply Hshr; [by intros ->|done]. }
  split; [|split; [done|]].
  - intros w' acc Hrun Hacc.
    destruct (compose_loop_outcome env fuel dest w slices l K)
      as (r & w2 & Hrun2 & Hfin & _); [done..|].
    rewrite Hrun in Hrun2. injection Hrun2 as <- <-.
    destruct Hfin as (_ & _ & _ & Hb).
    rewrite concat_chunks in Hb by done.
    destruct (Hb Hdest Hpool acc Hacc) as (x & Hx & Hfinal & _).
    by exists x.
  - intros Hup Hgw Hnd Hstored Hpl.
    destruct (compose_returns env fuel dest w slices l) as (w' & Hrun);
      [done..| |].
    { intros b Hb. split; [by intros ->|by apply Hpl]. }
    destruct (Hcontent _ _ Hrun) as (x & Hx & Hb). by exists w', x.
Qed.

(** The compose calls of an outcome, one by one: the call number [i] is on
    the chunk number [i], and it succeeded unless it is the one on which the
    loop stopped. *)
Lemma compose_calls_lookup final (cs done rest : list (list Blob)) r i tg src ok :
  cs = done ++ rest ->
  compose_calls (flat_map (turn_events final) done
                   ++ attempt final (stopped_at r rest)) !! i
  = Some (tg, src, ok) ->
  exists c, cs !! i = Some c /\ tg = final /\ src = final :: c /\
            ok = bool_decide (i < length done)%nat.
Proof.
  intros -> Hi. rewrite compose_calls_outcome in Hi.
  apply lookup_app_Some in Hi as [Hi|[Hlen Hi]].
  - rewrite list_lookup_fmap in Hi.
    destruct (done !! i) as [c|] eqn:Hc; [|done]. injection Hi as <- <- <-.
    exists c. split; [by apply lookup_app_l_Some|].
    apply lookup_lt_Some in Hc. by rewrite bool_decide_eq_true_2.
  - rewrite length_map in Hlen, Hi.
    destruct (stopped_at r rest) as [c|] eqn:Hs; [|done].
    destruct (i - length done)%nat as [|n] eqn:Hn; [|done].
    injection Hi as <- <- <-. exists c.
    assert (i = length done) as -> by lia.
    split.
    + rewrite lookup_app_r, Nat.sub_diag by done.
      destruct r; cbn in Hs; try done; by destruct rest.
    + by rewrite bool_decide_eq_false_2 by lia.
Qed.

(** C3. Every compose call of the composer has as inputs the accumulator
    followed by the slices of one chunk, in chunk order; with a chunk size
    0 < K <= 31 a call has between 2 and K+1 inputs, within the ceiling of
    the provider, and [InvalidInputCount] is never raised, neither by the loop
    nor by [compose], which chunks by 31. *)
Theorem compose_inputs_bounded env (w : World) slices l dest K fuel :
  heap w !! slices = Some l -> 0 < K <= 31 -> (length l < fuel)%nat ->
  (exists cs w1 r w' evs,
     collect fuel (generate_composition_chunks slices K) w = (Ok cs, w1) /\
     SingleAccumulator.compose_loop env fuel dest
       (generate_composition_chunks slices K) w = (r, w') /\
     events (trace (cloud w')) = events (trace (cloud w)) ++ evs /\
     r <> Raise InvalidInputCount /\
     forall i tg src ok,
       compose_calls evs !! i = Some (tg, src, ok) ->
       exists c, cs !! i = Some c /\ tg = dest /\ src = dest :: c /\
                 2 <= Z.of_nat (length src) <= K + 1) /\
  (exists cs w1 r w' evs,
     collect fuel (generate_composition_chunks slices default_chunk_size) w
     = (Ok cs, w1) /\
     SingleAccumulator.compose env fuel dest slices w = (r, w') /\
     events (trace (cloud w')) = events (trace (cloud w)) ++ evs /\
     r <> Raise InvalidInputCount /\
     forall i tg src ok,
       compose_calls evs !! i = Some (tg, src, ok) ->
       exists c, cs !! i = Some c /\ tg = dest /\ src = dest :: c /\
                 2 <= Z.of_nat (length src)
                 <= Z.of_nat provider_limit + 1).
Proof.
  intros Hl HK Hfuel.
  assert (Hsize : forall k i c, 0 < k ->
            chunks l k !! i = Some c ->
            2 <= Z.of_nat (length (dest :: c)) <= k + 1).
  { intros k i c Hk Hc. pose proof (chunks_bounded l k Hk) as Hall.
    rewrite Forall_forall in Hall.
    specialize (Hall c ltac:(by eapply list_elem_of_lookup_2)).
    cbn [length]. lia. }
  split.
  - destruct (collect_chunks fuel w slices l K) as (w1 & Hc & _);
      [done|lia|done|].
    destruct (compose_loop_outcome env fuel dest w slices l K)
      as (r & w' & Hrun & Hfin & _); [done|lia|done|].
    destruct (finished_trace _ _ _ _ _ Hfin)
      as (done & rest & c1 & Hcs & _ & Hev & Hr).
    exists (chunks l K), w1, r, w'. eexists.
    split; [done|]. split; [done|]. split; [done|]. split.
    + intros ->. destruct Hr as (c & rest' & -> & _ & Hlim & _).
      specialize (Hlim eq_refl).
      destruct (Hsize K (length done) c) as [_ Hle]; [lia| |].
      * by rewrite Hcs, lookup_app_r, Nat.sub_diag.
      * unfold provider_limit in Hlim. cbn [length] in Hle. lia.
    + intros i tg src ok Hi.
      destruct (compose_calls_lookup _ _ _ _ _ _ _ _ _ Hcs Hi)
        as (c & Hc' & -> & -> & _).
      exists c. split; [done|]. split; [done|]. split; [done|].
      eapply Hsize; [lia|done].
  - destruct (collect_chunks fuel w slices l default_chunk_size)
      as (w1 & Hc & _); [done..|].
    destruct (compose_outcome env fuel dest w slices l)
      as (r & w' & Hrun & _ & Hcases); [done..|].
    exists (chunks l default_chunk_size), w1, r, w'.
    destruct Hcases as [(_ & -> & Hev & _)|(_ & c0 & r0 & Hst & -> & Hfin)].
    { eexists. split; [done|]. split; [done|]. split; [done|].
      split; [done|]. by intros [|i] tg src ok. }
    destruct (finished_trace _ _ _ _ _ Hfin)
      as (done & rest & c1 & Hcs & _ & Hev & Hr).
    destruct Hst as (Hev0 & _).
    eexists. split; [done|]. split; [done|]. split.
    { rewrite Hev, Hev0, <- app_assoc. done. }
    split.
    + destruct r0 as [[]|e|]; try done. intros [= ->].
      destruct Hr as (c & rest' & -> & _ & Hlim & _).
      specialize (Hlim eq_refl).
      destruct (Hsize default_chunk_size (length done) c) as [_ Hle]; [done| |].
      * by rewrite Hcs, lookup_app_r, Nat.sub_diag.
      * unfold provider_limit, default_chunk_size in *.
        cbn [length] in Hle. lia.
    + intros i tg src ok Hi. cbn [app] in Hi.
      rewrite compose_calls_upload in Hi.
      destruct (compose_calls_lookup _ _ _ _ _ _ _ _ _ Hcs Hi)
        as (c & Hc' & -> & -> & _).
      exists c. split; [done|]. split; [done|]. split; [done|].
      by eapply (Hsize default_chunk_size).
Qed.

(** ** The order of the events of a run *)

Lemma lookup_map_Submit l i e :
  map Submit l !! i = Some e -> exists s, e = Submit s /\ s ∈ l.
Proof.
  rewrite list_lookup_fmap. destruct (l !! i) as [s|] eqn:Hs; [|done].
  intros [= <-]. exists s. split; [done|]. by eapply list_elem_of_lookup_2.
Qed.

(** A batch is dispatched right after the successful compose call on it. *)
Lemma turns_dispatch_after final done i batch :
  flat_map (turn_events final) done !! i = Some (Dispatch batch) ->
  exists j, i = S j /\
    flat_map (turn_events final) done !! j
    = Some (Compose final (final :: batch) true).
Proof.
  revert i. induction done as [|c done IH]; intros i; [done|].
  cbn [flat_map]. intros Hi.
  apply lookup_app_Some in Hi as [Hi|[Hlen Hi]].
  - destruct i as [|[|i]]; cbn in Hi; [done| |].
    + injection Hi as <-. by exists 0%nat.
    + apply lookup_map_Submit in Hi as (s & Hs & _). done.
  - destruct (IH _ Hi) as (j & Hj & Hc).
    exists (length (turn_events final c) + j)%nat. split; [lia|].
    rewrite lookup_app_r by lia. rewrite <- Hc. f_equal. lia.
Qed.

(** A deletion is submitted after the dispatch of a batch that holds it. *)
Lemma turns_submit_after final done i s :
  flat_map (turn_events final) done !! i = Some (Submit s) ->
  exists j batch, (j < i)%nat /\
    flat_map (turn_events final) done !! j = Some (Dispatch batch) /\
    s ∈ batch.
Proof.
  revert i. induction done as [|c done IH]; intros i; [done|].
  cbn [flat_map]. intros Hi.
  apply lookup_app_Some in Hi as [Hi|[Hlen Hi]].
  - destruct i as [|[|i]]; cbn in Hi; [done..|].
    apply lookup_map_Submit in Hi as (s' & [= <-] & Hs).
    exists 1%nat, c. split; [lia|]. done.
  - destruct (IH _ Hi) as (j & batch & Hj & Hd & Hs).
    exists (length (turn_events final c) + j)%nat, batch.
    split; [lia|]. split; [|done].
    rewrite lookup_app_r by lia. rewrite <- Hd. f_equal. lia.
Qed.

(** The events that [compose] adds to the trace: a failed upload alone, or
    the upload, the turns completed, and the failed compose call if any. *)
Lemma compose_events env fuel dest (w : World) slices l :
  heap w !! slices = Some l -> (length l < fuel)%nat ->
  exists r w',
    SingleAccumulator.compose env fuel dest slices w = (r, w') /\
    ((r = Raise UploadFailed /\
      events (trace (cloud w'))
      = events (trace (cloud w)) ++ [Upload dest false])
     \/ (exists done rest r0 c0 c1,
           chunks l default_chunk_size = done ++ rest /\
           r = returning dest r0 /\
           started dest (cloud w) c0 /\
           reached dest (chunks l default_chunk_size) c0 done c1 /\
           events (trace (cloud w'))
           = events (trace (cloud w))
               ++ Upload dest true
               :: flat_map (turn_events dest) done
               ++ attempt dest (stopped_at r0 rest) /\
           match r0 with
           | Ok _ => rest = [] /\ c1 = cloud w'
           | Raise e => exists c rest',
               rest = c :: rest' /\ compose_error e /\
               compose_times (trace (cloud w'))
               = compose_times (trace c1) ++ [clock c1] /\
               (forall b, b ∉ pool c1 ->
                  bucket (cloud w') !! b = bucket c1 !! b)
           | OutOfFuel => False
           end)).
Proof.
  intros Hl Hfuel.
  destruct (compose_outcome env fuel dest w slices l)
    as (r & w' & Hrun & _ & Hcases); [done..|].
  exists r, w'. split; [done|].
  destruct Hcases as [(_ & -> & Hev & _)|(_ & c0 & r0 & Hst & -> & Hfin)];
    [by left|right].
  destruct (finished_trace _ _ _ _ _ Hfin)
    as (done & rest & c1 & Hcs & Hreach & Hev & Hr).
  exists done, rest, r0, c0, c1. do 4 (split; [done|]). split.
  { destruct Hst as (Hev0 & _). by rewrite Hev, Hev0, <- app_assoc. }
  destruct r0 as [[]|e|]; [done| |done].
  destruct Hr as (c & rest' & -> & He & _ & Hct & Hb). by exists c, rest'.
Qed.


(** C5 (amended). In a run of [compose] the batches handed to the cleanup
    dispatcher are, in order, the chunks whose compose call succeeded, which
    are the first chunks of the list, and the deletions submitted are their
    slices; a batch is dispatched right after the successful compose call on
    it, and a deletion is submitted only after the dispatch of a batch that
    holds it. The slices of the list are those submitted followed by those
    of the chunks that were not dispatched: in a run that returns the
    batches are all the chunks, so every slice of the list is in exactly one
    batch; in a run that raises on a non-empty list some chunks are left,
    the chunk of the failed compose call at their head, and their slices
    are in no batch. *)
Theorem cleanup_after_compose env (w : World) slices l dest fuel :
  heap w !! slices = Some l -> (length l < fuel)%nat ->
  exists cs w1 r w' evs,
    collect fuel (generate_composition_chunks slices default_chunk_size) w
    = (Ok cs, w1) /\
    SingleAccumulator.compose env fuel dest slices w = (r, w') /\
    events (trace (cloud w')) = events (trace (cloud w)) ++ evs /\
    (exists rest,
       cs = dispatches evs ++ rest /\
       submitted evs = concat (dispatches evs) /\
       composed evs = map (cons dest) (dispatches evs) /\
       l = submitted evs ++ concat rest /\
       (forall b, r = Ok b ->
          dispatches evs = cs /\ concat (dispatches evs) = l) /\
       (forall e, r = Raise e -> l <> [] -> rest <> []) /\
       (forall i tg src, compose_calls evs !! i = Some (tg, src, false) ->
          exists c rest', src = dest :: c /\ rest = c :: rest')) /\
    (forall i batch,
       evs !! i = Some (Dispatch batch) ->
       exists j, i = S j /\
         evs !! j = Some (Compose dest (dest :: batch) true)) /\
    (forall i s,
       evs !! i = Some (Submit s) ->
       exists j batch, (j < i)%nat /\
         evs !! j = Some (Dispatch batch) /\ s ∈ batch) /\
    (upload_fails env = false ->
     (forall n, compose_fails env n = false) ->
     NoDup l -> dest ∉ l ->
     (forall s, s ∈ l -> is_Some (bucket (cloud w) !! s)) ->
     (forall b, b ∈ pool (cloud w) -> b <> dest /\ b ∉ l) ->
     r = Ok dest).
Proof.
  intros Hl Hfuel.
  destruct (collect_chunks fuel w slices l default_chunk_size)
    as (w1 & Hc & _); [done..|].
  destruct (compose_events env fuel dest w slices l)
    as (r & w' & Hrun & Hcases); [done..|].
  assert (Hret : upload_fails env = false ->
                 (forall n, compose_fails env n = false) ->
                 NoDup l -> dest ∉ l ->
                 (forall s, s ∈ l -> is_Some (bucket (cloud w) !! s)) ->
                 (forall b, b ∈ pool (cloud w) -> b <> dest /\ b ∉ l) ->
                 r = Ok dest).
  { intros Hup Hgw Hnd Hdest Hstored Hpool.
    destruct (compose_returns env fuel dest w slices l) as (w2 & Hrun2);
      [done..|].
    rewrite Hrun in Hrun2. by injection Hrun2. }
  exists (chunks l default_chunk_size), w1, r, w'.
  destruct Hcases as [(-> & Hev)|
    (done & rest & r0 & c0 & c1 & Hcs & -> & Hst & Hreach & Hev & Hr)].
  { eexists. do 3 (split; [done|]). split.
    - exists (chunks l default_chunk_size). cbn.
      do 3 (split; [done|]). split; [by rewrite concat_chunks|].
      split; [done|]. split; [|by intros [|i] ?].
      intros e _ Hne Hcs. apply Hne.
      rewrite <- (concat_chunks l default_chunk_size) by done.
      by rewrite Hcs.
    - split; [by intros [|i] ?|]. split; [by intros [|i] ?|done]. }
  eexists. do 3 (split; [done|]).
  rewrite dispatches_upload, submitted_upload.
  rewrite dispatches_outcome, submitted_outcome.
  split.
  { exists rest. do 2 (split; [done|]).
    split.
    { change (composed (Upload dest true :: ?es)) with (composed es).
      by rewrite composed_outcome. }
    split.
    { rewrite <- concat_app, <- Hcs. by rewrite concat_chunks. }
    split.
    { intros b Hb. destruct r0 as [[]|e|]; try done.
      destruct Hr as [-> _]. rewrite app_nil_r in Hcs. rewrite <- Hcs.
      split; [done|]. by apply concat_chunks. }
    split.
    { intros e He _. destruct r0 as [[]|e'|]; try done.
      by destruct Hr as (c & rest' & -> & _). }
    intros i tg src Hi. rewrite compose_calls_upload in Hi.
    rewrite compose_calls_outcome in Hi.
    apply lookup_app_Some in Hi as [Hi|[_ Hi]].
    { rewrite list_lookup_fmap in Hi. by destruct (done !! i). }
    destruct r0 as [[]|e|]; [by destruct (i - _)%nat| |done].
    destruct Hr as (c & rest' & -> & _). cbn in Hi.
    destruct (i - _)%nat; [|done]. injection Hi as <- <-. by exists c, rest'. }
  split; [|split; [|done]].
  - intros [|i] batch Hi; [done|]. cbn in Hi.
    apply lookup_app_Some in Hi as [Hi|[_ Hi]].
    + destruct (turns_dispatch_after _ _ _ _ Hi) as (j & -> & Hj).
      exists (S j). split; [done|]. cbn. by apply lookup_app_l_Some.
    + destruct (stopped_at r0 rest); [|done].
      by destruct (i - _)%nat.
  - intros [|i] s Hi; [done|]. cbn in Hi.
    apply lookup_app_Some in Hi as [Hi|[_ Hi]].
    + destruct (turns_submit_after _ _ _ _ Hi) as (j & batch & Hj & Hd & Hs).
      exists (S j), batch. split; [lia|]. split; [|done].
      cbn. by apply lookup_app_l_Some.
    + destruct (stopped_at r0 rest); [|done].
      by destruct (i - _)%nat.
Qed.

(** C6 (amended). Every batch handed to [delete_objects_concurrent] is
    exactly a chunk as the chunker yielded it: the inputs of the successful
    compose call on that chunk without the accumulator at their head. When
    the destination is not one of the slices, no batch holds the accumulator
    and no deletion of it is ever submitted. *)
Theorem cleanup_spares_accumulator env (w : World) slices l dest fuel :
  heap w !! slices = Some l -> (length l < fuel)%nat ->
  exists cs w1 r w' evs,
    collect fuel (generate_composition_chunks slices default_chunk_size) w
    = (Ok cs, w1) /\
    SingleAccumulator.compose env fuel dest slices w = (r, w') /\
    events (trace (cloud w')) = events (trace (cloud w)) ++ evs /\
    (forall i batch,
       dispatches evs !! i = Some batch ->
       cs !! i = Some batch /\
       compose_calls evs !! i = Some (dest, dest :: batch, true)) /\
    (dest ∉ l ->
     (forall batch, batch ∈ dispatches evs -> dest ∉ batch) /\
     dest ∉ submitted evs).
Proof.
  intros Hl Hfuel.
  destruct (collect_chunks fuel w slices l default_chunk_size)
    as (w1 & Hc & _); [done..|].
  destruct (compose_events env fuel dest w slices l)
    as (r & w' & Hrun & Hcases); [done..|].
  exists (chunks l default_chunk_size), w1, r, w'.
  destruct Hcases as [(-> & Hev)|
    (done & rest & r0 & c0 & c1 & Hcs & -> & Hst & Hreach & Hev & Hr)].
  { eexists. do 3 (split; [done|]). split; [by intros [|i] ?|].
    intros _. cbn. split; [|apply not_elem_of_nil].
    intros batch Hb. by apply elem_of_nil in Hb. }
  eexists. do 3 (split; [done|]).
  rewrite compose_calls_upload, dispatches_upload, submitted_upload.
  rewrite compose_calls_outcome, dispatches_outcome, submitted_outcome.
  assert (Hsub : forall s, s ∈ concat done -> s ∈ l).
  { intros s Hs. rewrite <- (concat_chunks l default_chunk_size) by done.
    rewrite Hcs, concat_app, elem_of_app. by left. }
  split.
  - intros i batch Hi. split; [rewrite Hcs; by apply lookup_app_l_Some|].
    apply lookup_app_l_Some. by rewrite list_lookup_fmap, Hi.
  - intros Hdest. split; [|by intros Hin; apply Hdest, Hsub].
    intros batch Hb Hin. apply Hdest, Hsub.
    by eapply elem_of_concat_2.
Qed.

(** With a chunk size that is not positive the rest of a non-empty list
    is never empty: the loop of the chunker cannot end. *)
Lemma py_suffix_nonpositive {A} (l : list A) k :
  k <= 0 -> l <> [] -> py_suffix l k <> [].
Proof.
  intros Hk Hl Hs. unfold py_suffix in Hs.
  apply drop_nil_inv in Hs. unfold slice_bound in Hs.
  assert (0 < length l)%nat by (destruct l; [done|simpl; lia]).
  destruct (Z.ltb_spec k 0); lia.
Qed.

Lemma collect_diverges fuel g h cl l :
  gen_chunk_size g <= 0 ->
  gen_rest g h = Some l -> l <> [] ->
  fst (collect fuel g {| heap := h; cloud := cl |}) = OutOfFuel.
Proof.
  revert g h l. induction fuel as [|fuel IH]; intros g h l Hk Hg Hne; [done|].
  destruct (next_spec g h cl l Hg) as (h1 & Hp1 & Hnext).
  cbn [collect]. destruct l as [|x l']; [done|].
  destruct Hnext as (a & g' & Hnext & Ha & Hc & Hne' & Hs & Hk' & Hsusp).
  erewrite bind_Ok by done. cbv beta iota.
  erewrite bind_Ok; [|by unfold deref; cbn [heap]; rewrite Hc].
  assert (fst (collect fuel g' {| heap := h1; cloud := cl |}) = OutOfFuel)
    as Hd.
  { apply (IH g' h1 (py_suffix (x :: l') (gen_chunk_size g'))).
    - by rewrite Hk'.
    - unfold gen_rest. by rewrite Hs, Hsusp.
    - apply py_suffix_nonpositive; [by rewrite Hk'|done]. }
  destruct (collect fuel g' {| heap := h1; cloud := cl |}) as [r w2] eqn:Hrun.
  cbn [fst] in Hd. subst r. by erewrite bind_OutOfFuel by done.
Qed.

(** C7. The chunker has no effect but the lists it makes: listing the
    generator leaves the outside world and every existing list as they
    were, and never raises, for any chunk size; with K > 0 it ends, after
    ceil(N/K) chunks; so it fails to end only when K <= 0 (and then, on a
    non-empty list, it yields chunks for ever). *)
Theorem chunker_pure_and_total (w : World) slices l :
  heap w !! slices = Some l ->
  (forall K fuel, exists r w1,
     collect fuel (generate_composition_chunks slices K) w = (r, w1) /\
     cloud w1 = cloud w /\ preserves (heap w) (heap w1) /\
     forall e, r <> Raise e) /\
  (forall K fuel, 0 < K -> (length l < fuel)%nat ->
     exists cs w1,
       collect fuel (generate_composition_chunks slices K) w = (Ok cs, w1) /\
       Z.of_nat (length cs) = ceil_div (length l) K) /\
  (forall K,
     (forall fuel cs w1,
        collect fuel (generate_composition_chunks slices K) w <> (Ok cs, w1)) ->
     K <= 0) /\
  (forall K fuel, K <= 0 -> l <> [] ->
     fst (collect fuel (generate_composition_chunks slices K) w) = OutOfFuel).
Proof.
  intros Hl. destruct w as [h cl]. cbn [heap cloud] in *.
  assert (Hg : forall K,
            gen_rest (generate_composition_chunks slices K) h = Some l).
  { intros K. unfold gen_rest. cbn. by rewrite Hl. }
  split; [|split; [|split]].
  - intros K fuel.
    destruct (collect_pure fuel _ h cl l (Hg K)) as (r & h' & Hrun & Hp & Hr).
    by exists r, {| heap := h'; cloud := cl |}.
  - intros K fuel HK Hfuel.
    destruct (collect_chunks fuel {| heap := h; cloud := cl |} slices l K)
      as (w1 & Hc & _); [done..|].
    exists (chunks l K), w1. split; [done|]. by apply chunks_length.
  - intros K Hnever. destruct (Z_lt_le_dec 0 K) as [HK|]; [|done].
    destruct (collect_chunks (S (length l)) {| heap := h; cloud := cl |}
                slices l K) as (w1 & Hc & _); [done|done|lia|].
    by destruct (Hnever _ _ _ Hc).
  - intros K fuel HK Hne. by eapply collect_diverges.
Qed.

Lemma finished_spaced final cs c0 r c' :
  finished final cs c0 r c' ->
  exists ts,
    compose_times (trace c') = compose_times (trace c0) ++ ts /\
    spaced 1000 ts /\
    (r = Ok tt -> length ts = length cs).
Proof.
  destruct r as [[]|e|]; cbn [finished]; [| |done].
  - intros (_ & (ts & Hts & Hlen & Hsp & _) & _). by exists ts.
  - intros (done & c & rest & c1 & c1' & Hcs & Hr & _ & _ & _ & _ & _ &
            _ & _ & Hct).
    destruct Hr as (_ & (ts & Hts & Hlen & Hsp & Hall) & _).
    exists (ts ++ [clock c1]). rewrite Hct, Hts, <- app_assoc.
    split; [done|]. split; [|done].
    apply spaced_snoc; [done|]. eapply Forall_impl; [done|].
    by intros t [_ Ht].
Qed.

(** ** The times of the compose calls and of their returns *)

Lemma dispatch_times_log t e c :
  dispatch_times (trace (log t e c))
  = dispatch_times (trace c) ++ (if e is Dispatch _ then [t] else []).
Proof. unfold dispatch_times. cbn. rewrite omap_app. by destruct e. Qed.

Lemma waited_snoc d rs ts t :
  waited d rs ts -> length rs = length ts ->
  Forall (fun r => (r + d <= t)%N) rs ->
  waited d rs (ts ++ [t]) /\ forall r', waited d (rs ++ [r']) (ts ++ [t]).
Proof.
  intros Hw Hlen Hall.
  assert (H : forall r', waited d (rs ++ [r']) (ts ++ [t])).
  { intros r' i r x Hr Hx.
    apply lookup_lt_Some in Hx as Hi. rewrite length_app in Hi. cbn in Hi.
    rewrite lookup_app_l in Hr by lia.
    destruct (decide (S i < length ts)%nat) as [Hlt|Hge].
    - rewrite lookup_app_l in Hx by lia. by eapply Hw.
    - rewrite lookup_app_r in Hx by lia.
      replace (S i - length ts)%nat with 0%nat in Hx by lia.
      injection Hx as <-. rewrite Forall_forall in Hall. apply Hall.
      by eapply list_elem_of_lookup_2. }
  split; [|done].
  intros i r x Hr Hx. apply (H 0%N i r x); [|done].
  by apply lookup_app_l_Some.
Qed.

Section Waits.
Variable env : Oracle.

(** The loop of the dispatcher hands nothing to the dispatcher. *)
Lemma dispatch_loop_timed batch c :
  exists c',
    for_each batch (fun blob => do! submit_delete blob in sleep env 5) c
    = (Ok tt, c') /\
    dispatch_times (trace c') = dispatch_times (trace c) /\
    (clock c <= clock c')%N.
Proof.
  revert c. induction batch as [|b batch IH]; intros c.
  - exists c. split; [done|]. split; [done|]. lia.
  - cbn [for_each].
    destruct (submit_delete_spec b c) as (c1 & Hs & Ht1 & Hq1).
    destruct (pause_spec env 5 c1) as (c2 & Hp & Ht2 & _ & Hq2).
    destruct (IH c2) as (c3 & Hrun & Hdt & Hck).
    exists c3. split.
    { erewrite bind_Ok; [done|]. by erewrite bind_Ok by done. }
    destruct Hq1 as (Hc1 & _). destruct Hq2 as (Hc2 & _).
    split; [|lia].
    rewrite Hdt, Ht2, Ht1. unfold dispatch_times. rewrite omap_app. cbn.
    by rewrite app_nil_r.
Qed.

(** A call of the dispatcher is stamped with the time at which it is made. *)
Lemma dispatch_timed batch c :
  exists c',
    dispatch env batch c = (Ok tt, c') /\
    dispatch_times (trace c') = dispatch_times (trace c) ++ [clock c] /\
    compose_times (trace c') = compose_times (trace c) /\
    (clock c <= clock c')%N.
Proof.
  destruct (dispatch_spec env batch c) as (c' & Hd & _ & Hct & _).
  exists c'. split; [done|]. revert Hd. unfold dispatch.
  erewrite bind_Ok by (by apply emit_spec). intros Hd.
  destruct (dispatch_loop_timed batch (log (clock c) (Dispatch batch) c))
    as (c'' & Hrun & Hdt & Hck).
  rewrite Hd in Hrun. injection Hrun as <-.
  rewrite Hdt, dispatch_times_log. by cbn in Hck.
Qed.

(** The times of one turn of the loop: its compose call is issued when the
    turn starts, it lasts as long as the oracle says, the chunk is
    dispatched when it has returned, and the turn ends a second later at
    the earliest. *)
Lemma turn_timed final c cl :
  exists r1 cl1 r cl',
    gw_compose env final (final :: c) cl = (r1, cl1) /\
    turn env final c cl = (r, cl') /\
    clock cl1 = (clock cl + latency env (tick cl))%N /\
    compose_times (trace cl') = compose_times (trace cl) ++ [clock cl] /\
    dispatch_times (trace cl')
    = dispatch_times (trace cl) ++ (if r1 is Ok _ then [clock cl1] else []) /\
    (r1 = Ok tt -> r = Ok tt /\ (clock cl1 + 1000 <= clock cl')%N) /\
    (forall e, r1 = Raise e -> r = Raise e /\ cl' = cl1) /\
    r1 <> OutOfFuel.
Proof.
  destruct (gw_compose_spec env final (final :: c) cl)
    as (cl0 & Hp & Ht & _ & Hcases).
  destruct (pause_spec env 0 cl) as (cl0' & Hp' & _ & Hck0 & _).
  rewrite Hp in Hp'. injection Hp' as <-.
  rewrite N.add_0_r in Hck0.
  assert (Hfail : forall e,
            gw_compose env final (final :: c) cl
            = (Raise e, log (clock cl) (Compose final (final :: c) false) cl0) ->
            exists r1 cl1 r cl',
              gw_compose env final (final :: c) cl = (r1, cl1) /\
              turn env final c cl = (r, cl') /\
              clock cl1 = (clock cl + latency env (tick cl))%N /\
              compose_times (trace cl')
              = compose_times (trace cl) ++ [clock cl] /\
              dispatch_times (trace cl')
              = dispatch_times (trace cl)
                  ++ (if r1 is Ok _ then [clock cl1] else []) /\
              (r1 = Ok tt -> r = Ok tt /\ (clock cl1 + 1000 <= clock cl')%N) /\
              (forall e, r1 = Raise e -> r = Raise e /\ cl' = cl1) /\
              r1 <> OutOfFuel).
  { intros e Hg. eexists _, _, _, _. split; [exact Hg|]. split.
    { unfold turn. by erewrite bind_Raise by done. }
    cbn [log clock]. split; [done|].
    rewrite compose_times_log_compose, dispatch_times_log, Ht, app_nil_r.
    do 2 (split; [done|]). split; [done|]. split; [|done].
    by intros e' [= <-]. }
  destruct Hcases as [[Hg _]|[(Hg & _)|[(Hg & _)|(content & Hg & _)]]];
    [by eapply Hfail..|].
  set (cl2 := log _ _ _) in Hg.
  destruct (dispatch_timed c cl2) as (cl3 & Hd & Hdt3 & Hct3 & Hck3).
  destruct (pause_spec env 1000 cl3) as (cl4 & Hs & Ht4 & Hck4 & _).
  exists (Ok tt), cl2, (Ok tt), cl4. split; [done|]. split.
  { unfold turn. erewrite bind_Ok by done. by erewrite bind_Ok by done. }
  split; [done|]. rewrite Ht4, Hct3, Hdt3. subst cl2.
  rewrite compose_times_log_compose, dispatch_times_log.
  cbn [set_bucket trace log clock] in *. rewrite Ht, app_nil_r.
  do 2 (split; [done|]). split; [intros _; split; [done|lia]|].
  split; done.
Qed.

(** The times of the loop over the chunks: the compose call number [i] is
    issued at [ts !! i] and has returned at [rs !! i], when its chunk is
    dispatched; the next call is issued a second after that at the
    earliest. *)
Lemma turns_timed final cs c0 :
  exists r c' ts rs,
    for_each cs (turn env final) c0 = (r, c') /\
    compose_times (trace c') = compose_times (trace c0) ++ ts /\
    dispatch_times (trace c') = dispatch_times (trace c0) ++ rs /\
    (forall i t, rs !! i = Some t ->
       exists t0, ts !! i = Some t0 /\ (t0 <= t)%N) /\
    waited 1000 rs ts /\
    (r = Ok tt -> length ts = length cs /\ length rs = length cs).
Proof.
  set (P := fun (done : list (list Blob)) (c : Cloud) =>
         exists ts rs,
           compose_times (trace c) = compose_times (trace c0) ++ ts /\
           dispatch_times (trace c) = dispatch_times (trace c0) ++ rs /\
           length ts = length done /\ length rs = length done /\
           (forall i t, rs !! i = Some t ->
              exists t0, ts !! i = Some t0 /\ (t0 <= t)%N) /\
           waited 1000 rs ts /\
           Forall (fun t => (t + 1000 <= clock c)%N) rs).
  assert (Hstep : forall done x rest s1 s2,
            cs = done ++ x :: rest ->
            P done s1 -> turn env final x s1 = (Ok tt, s2) ->
            P (done ++ [x]) s2).
  { intros done x rest s1 s2 _ (ts & rs & Hts & Hrs & Hlt & Hlr & Hpair &
      Hw & Hall) Hturn.
    destruct (turn_timed final x s1)
      as (r1 & cl1 & r & cl' & Hg & Hturn' & Hck1 & Hct & Hdt & Hok & Hraise &
          Hfuel).
    rewrite Hturn in Hturn'. injection Hturn' as <- <-.
    destruct r1 as [[]|e|]; [|by destruct (Hraise e eq_refl)|done].
    destruct (Hok eq_refl) as [_ Hck2].
    destruct (waited_snoc 1000 rs ts (clock s1) Hw) as [_ Hw'];
      [congruence| |].
    { eapply Forall_impl; [done|]. intros t Ht. cbn in Ht. lia. }
    exists (ts ++ [clock s1]), (rs ++ [clock cl1]).
    rewrite Hct, Hts, Hdt, Hrs, <- !app_assoc, !length_app. cbn [length].
    do 2 (split; [done|]). do 2 (split; [lia|]). split.
    { intros i t Hi. apply lookup_app_Some in Hi as [Hi|[Hlen Hi]].
      - destruct (Hpair i t Hi) as (t0 & Ht0 & Hle).
        exists t0. split; [by apply lookup_app_l_Some|done].
      - destruct (i - length rs)%nat eqn:Hn; [|done]. injection Hi as <-.
        exists (clock s1). split; [|lia].
        rewrite lookup_app_r by lia.
        by replace (i - length ts)%nat with 0%nat by lia. }
    split; [by apply Hw'|].
    apply Forall_app. split.
    - eapply Forall_impl; [done|]. intros t Ht. cbn in Ht. lia.
    - constructor; [lia|constructor]. }
  pose proof (for_each_inv (turn env final) P cs c0) as H.
  destruct (for_each cs (turn env final) c0) as [r c'] eqn:Hrun.
  assert (H0 : P [] c0).
  { exists [], []. rewrite !app_nil_r. do 4 (split; [done|]).
    split; [by intros i t|]. split; [by intros i t1 t2|constructor]. }
  specialize (H H0 Hstep).
  exists r, c'.
  destruct r as [[]|e|].
  - destruct H as (ts & rs & ? & ? & ? & ? & ? & ? & _).
    exists ts, rs. by auto 10.
  - destruct H as (done & x & rest & s1 & _ & (ts & rs & Hts & Hrs & Hlt &
      Hlr & Hpair & Hw & Hall) & Hturn).
    destruct (turn_timed final x s1)
      as (r1 & cl1 & r & cl' & Hg & Hturn' & Hck1 & Hct & Hdt & Hok & Hraise &
          Hfuel).
    rewrite Hturn in Hturn'. injection Hturn' as <- <-.
    destruct r1 as [[]|e'|]; [by destruct (Hok eq_refl)| |done].
    destruct (waited_snoc 1000 rs ts (clock s1) Hw) as [Hw' _];
      [congruence| |].
    { eapply Forall_impl; [done|]. intros t Ht. cbn in Ht. lia. }
    exists (ts ++ [clock s1]), rs.
    rewrite Hct, Hts, Hdt, Hrs, <- !app_assoc, app_nil_r.
    do 3 (split; [done|]). split.
    { intros i t Hi. destruct (Hpair i t Hi) as (t0 & Ht0 & Hle).
      exists t0. split; [by apply lookup_app_l_Some|done]. }
    split; done.
  - exfalso. destruct H as (done & x & rest & s1 & _ & _ & Hturn).
    by apply (turn_not_out_of_fuel env final x s1); rewrite Hturn.
Qed.

(** The upload hands nothing to the dispatcher. *)
Lemma upload_dispatch_times target c r c0 :
  upload_empty env target c = (r, c0) ->
  dispatch_times (trace c0) = dispatch_times (trace c).
Proof.
  unfold upload_empty.
  destruct (pause_spec env 0 c) as (c1 & Hp & Ht & _). rewrite Hp. cbn [snd].
  destruct (upload_fails env); intros [= _ <-];
    rewrite dispatch_times_log; cbn [set_bucket trace];
    by rewrite Ht, app_nil_r.
Qed.

End Waits.

(** C8. In a run of the loop of [compose], for any chunk size K > 0 and any
    latencies of the gateway and of the executor, consecutive compose calls
    are issued at least 1000 ms apart, and more than that: every compose
    call but the first is issued at least 1000 ms after the call before it
    has returned, however long that call has taken. The return of a call is
    the moment at which its chunk is handed to the dispatcher; it is not
    before the call was issued. So it is for [compose]. A run of the loop
    that returns has issued ceil(N/K) calls. In a turn of the loop the
    compose call is issued when the turn starts, it returns after the time
    that the oracle chooses, the chunk is dispatched at that moment, and the
    turn ends at least 1000 ms later. *)
Theorem compose_calls_spaced env (w : World) slices l dest K fuel :
  heap w !! slices = Some l -> 0 < K -> (length l < fuel)%nat ->
  (exists r w' ts rs,
     SingleAccumulator.compose_loop env fuel dest
       (generate_composition_chunks slices K) w = (r, w') /\
     compose_times (trace (cloud w'))
     = compose_times (trace (cloud w)) ++ ts /\
     dispatch_times (trace (cloud w'))
     = dispatch_times (trace (cloud w)) ++ rs /\
     spaced 1000 ts /\
     (forall i t, rs !! i = Some t ->
        exists t0, ts !! i = Some t0 /\ (t0 <= t)%N) /\
     waited 1000 rs ts /\
     (r = Ok tt ->
      Z.of_nat (length ts) = ceil_div (length l) K /\
      length rs = length ts)) /\
  (exists r w' ts rs,
     SingleAccumulator.compose env fuel dest slices w = (r, w') /\
     compose_times (trace (cloud w'))
     = compose_times (trace (cloud w)) ++ ts /\
     dispatch_times (trace (cloud w'))
     = dispatch_times (trace (cloud w)) ++ rs /\
     spaced 1000 ts /\
     (forall i t, rs !! i = Some t ->
        exists t0, ts !! i = Some t0 /\ (t0 <= t)%N) /\
     waited 1000 rs ts) /\
  (forall chunk c (w0 : World),
     heap w0 !! chunk = Some c ->
     exists r1 c1 r w1,
       gw_compose env dest (dest :: c) (cloud w0) = (r1, c1) /\
       SingleAccumulator.compose_body env dest chunk w0 = (r, w1) /\
       clock c1 = (clock (cloud w0) + latency env (tick (cloud w0)))%N /\
       compose_times (trace (cloud w1))
       = compose_times (trace (cloud w0)) ++ [clock (cloud w0)] /\
       dispatch_times (trace (cloud w1))
       = dispatch_times (trace (cloud w0))
           ++ (if r1 is Ok _ then [clock c1] else []) /\
       (r1 = Ok tt -> r = Ok tt /\ (clock c1 + 1000 <= clock (cloud w1))%N) /\
       (forall e, r1 = Raise e -> r = Raise e /\ cloud w1 = c1)).
Proof.
  intros Hl HK Hfuel. split; [|split].
  - destruct (compose_loop_outcome env fuel dest w slices l K)
      as (r & w' & Hrun & Hfin & _); [done..|].
    destruct (finished_spaced _ _ _ _ _ Hfin) as (ts' & Hts' & Hsp & _).
    destruct (compose_loop_run env fuel dest w slices l K)
      as (r2 & w2 & Hrun2 & Hcloud & _); [done..|].
    rewrite Hrun in Hrun2. injection Hrun2 as <- <-.
    destruct (turns_timed env dest (chunks l K) (cloud w))
      as (r2 & c' & ts & rs & Hloop & Hts & Hrs & Hpair & Hw & Hlen).
    rewrite Hcloud in Hloop. injection Hloop as <- <-.
    rewrite Hts in Hts'. apply app_inv_head in Hts'. subst ts'.
    exists r, w', ts, rs. do 6 (split; [done|]).
    intros Hr. destruct (Hlen Hr) as [Hn Hm].
    split; [by rewrite Hn, chunks_length|congruence].
  - destruct (compose_outcome env fuel dest w slices l)
      as (r & w' & Hrun & _ & Hcases); [done..|].
    destruct (compose_run env fuel dest w slices l)
      as (r2 & w2 & Hrun2 & Hcloud & _); [done..|].
    rewrite Hrun in Hrun2. injection Hrun2 as <- <-.
    exists r, w'. unfold run in Hcloud.
    destruct (upload_empty env dest (cloud w)) as [[[]|e|] c0] eqn:Hup.
    2:{ erewrite bind_Raise in Hcloud by done. injection Hcloud as <- <-.
        exists [], []. split; [done|].
        destruct (upload_empty_spec env dest (cloud w))
          as [(_ & c' & Hup' & _ & Hct)|(_ & c' & Hup' & _)];
          rewrite Hup in Hup'; [|done]. injection Hup' as -> <-.
        rewrite (upload_dispatch_times env _ _ _ _ Hup), Hct, !app_nil_r.
        do 2 (split; [done|]). split; [apply spaced_nil|].
        split; [by intros i t|by intros i t1 t2]. }
    2:{ exfalso.
        destruct (upload_empty_spec env dest (cloud w))
          as [(_ & c' & Hup' & _)|(_ & c' & Hup' & _)];
          by rewrite Hup in Hup'. }
    erewrite bind_Ok in Hcloud by done.
    destruct (turns_timed env dest (chunks l default_chunk_size) c0)
      as (r0 & c' & ts & rs & Hloop & Hts & Hrs & Hpair & Hw & _).
    assert (cloud w' = c') as Hc'.
    { destruct r0 as [[]|e|].
      - erewrite bind_Ok in Hcloud by done. by injection Hcloud.
      - erewrite bind_Raise in Hcloud by done. by injection Hcloud.
      - erewrite bind_OutOfFuel in Hcloud by done. by injection Hcloud. }
    subst c'.
    destruct (upload_empty_spec env dest (cloud w))
      as [(_ & c' & Hup' & _)|(Hf & c' & Hup' & Hst)];
      rewrite Hup in Hup'; [done|]. injection Hup' as <-.
    destruct Hcases as [(Hf' & _)|(_ & c0' & r0' & Hst' & _ & Hfin)];
      [congruence|].
    destruct (finished_spaced _ _ _ _ _ Hfin) as (ts' & Hts' & Hsp & _).
    destruct Hst as (_ & Hct0 & _). destruct Hst' as (_ & Hct0' & _).
    rewrite Hct0' in Hts'. rewrite Hct0, Hts' in Hts.
    apply app_inv_head in Hts. subst ts'.
    exists ts, rs. split; [done|].
    rewrite Hrs, (upload_dispatch_times env _ _ _ _ Hup), <- Hct0'.
    by rewrite Hts', Hct0'.
  - intros chunk c [h0 cl0] Hc. cbn [heap cloud] in *.
    destruct (compose_body_spec env dest chunk c h0 cl0 Hc) as (h' & Hb & _).
    destruct (turn_timed env dest c cl0)
      as (r1 & c1 & r & cl' & Hg & Hturn & Hck & Hct & Hdt & Hok & Hraise & _).
    rewrite Hturn in Hb. cbn [fst snd] in Hb.
    exists r1, c1, r, {| heap := h'; cloud := cl' |}.
    by do 6 (split; [done|]).
Qed.

(** C10. [compose] does not change the list of the caller: a chunk that the
    generator yields is a new list object, at an address that no list had
    before, and it holds a copy of the next slices; the body of the loop
    changes the heap only at its chunk and at new addresses; and after
    [compose], whether it returned or raised, the caller's list holds its
    original elements in their original order, as does every list object
    that existed before. *)
Theorem slices_not_mutated env (w : World) slices l dest fuel :
  heap w !! slices = Some l -> (length l < fuel)%nat ->
  (forall g (w0 : World) rest chunk g' w1,
     gen_rest g (heap w0) = Some rest ->
     next g w0 = (Ok (Some (chunk, g')), w1) ->
     (length (heap w0) <= chunk)%nat /\
     heap w1 !! chunk = Some (py_prefix rest (gen_chunk_size g)) /\
     preserves (heap w0) (heap w1)) /\
  (forall chunk c (w0 : World),
     heap w0 !! chunk = Some c ->
     exists r w1,
       SingleAccumulator.compose_body env dest chunk w0 = (r, w1) /\
       preserves_except chunk (heap w0) (heap w1)) /\
  (exists r w',
     SingleAccumulator.compose env fuel dest slices w = (r, w') /\
     heap w' !! slices = Some l /\
     preserves (heap w) (heap w')).
Proof.
  intros Hl Hfuel. split; [|split].
  - intros g [h0 cl0] rest chunk g' w1 Hg Hnext. cbn [heap] in *.
    destruct (next_spec g h0 cl0 rest Hg) as (h1 & Hp & Hcases).
    destruct rest as [|x rest]; [by rewrite Hcases in Hnext|].
    destruct Hcases as (a & g2 & Hn & Ha & Hc & _).
    rewrite Hn in Hnext. by injection Hnext as <- <- <-.
  - intros chunk c [h0 cl0] Hc. cbn [heap] in *.
    destruct (compose_body_spec env dest chunk c h0 cl0 Hc) as (h1 & Hb & Hp).
    by eexists _, _.
  - destruct (compose_outcome env fuel dest w slices l)
      as (r & w' & Hrun & Hp & _); [done..|].
    exists r, w'. split; [done|]. split; [by apply Hp|done].
Qed.

(** ** The two implementations of [compose], side by side *)

Lemma quiet_idle c c' :
  pool c = [] -> quiet [] c c' ->
  (forall b, bucket c' !! b = bucket c !! b) /\ pool c' = [].
Proof.
  intros Hp (_ & _ & Hk & Hpl). split.
  - intros b. apply Hk; rewrite ?Hp; apply not_elem_of_nil.
  - destruct (pool c') as [|b p]; [done|].
    destruct (Hpl b) as [Hin|Hin]; [by left|..].
    + rewrite Hp in Hin. by apply elem_of_nil in Hin.
    + by apply elem_of_nil in Hin.
Qed.

Section Simulation.
Variable env : Oracle.

Lemma turn_keep_spec final c cl :
  exists cl1, quiet [] cl cl1 /\
  ((exists e cl',
      turn_keep env final c cl = (Raise e, cl') /\
      events (trace cl')
      = events (trace cl) ++ [Compose final (final :: c) false] /\
      ((provider_limit < length c)%nat \/
       compose_fails env (length (compose_times (trace cl))) = true \/
       read_all (bucket cl1) (final :: c) = None))
   \/ (exists content cl',
         turn_keep env final c cl = (Ok tt, cl') /\
         read_all (bucket cl1) (final :: c) = Some content /\
         events (trace cl')
         = events (trace cl) ++ [Compose final (final :: c) true] /\
         compose_times (trace cl') = compose_times (trace cl) ++ [clock cl] /\
         quiet [] (set_bucket (<[final := content]> (bucket cl1)) cl1) cl')).
Proof.
  destruct (gw_compose_spec env final (final :: c) cl)
    as (cl1 & Hp & Ht & Hq & Hcases).
  exists cl1. split; [done|]. unfold turn_keep.
  destruct Hcases as [[Hg Hlen]|[(Hg & Hlen & Hf)|[(Hg & Hlen & Hf & Hr)|
    (content & Hg & Hlen & Hf & Hr)]]].
  1-3: left; eexists _, _; split; [by erewrite bind_Raise by done|];
       rewrite events_log, Ht; split; [done|];
       unfold provider_limit in *; cbn in *; auto; left; lia.
  right. set (cl2 := log _ _ _) in Hg.
  destruct (pause_spec env 1000 cl2) as (cl3 & Hs & Ht3 & _ & Hq3).
  exists content, cl3. split; [by erewrite bind_Ok by done|].
  split; [done|]. rewrite Ht3. subst cl2.
  rewrite events_log, compose_times_log_compose. cbn [set_bucket trace].
  by rewrite Ht.
Qed.

(** The run that keeps the slices dispatches nothing. *)
Lemma turns_keep_events final cs c :
  exists r c' evs,
    for_each cs (turn_keep env final) c = (r, c') /\
    events (trace c') = events (trace c) ++ evs /\
    dispatches evs = [] /\ submitted evs = [].
Proof.
  revert c. induction cs as [|x cs IH]; intros c.
  { exists (Ok tt), c, []. by rewrite app_nil_r. }
  cbn [for_each].
  destruct (turn_keep_spec final x c) as (cl1 & _ & [(e & c' & Hf & Hev & _)|
    (content & c' & Hok & _ & Hev & _)]).
  - exists (Raise e), c'. eexists. by erewrite bind_Raise by done.
  - destruct (IH c') as (r & c'' & evs & Hrun & Hev2 & Hd & Hs).
    exists r, c''. eexists. split; [by erewrite bind_Ok by done|].
    rewrite Hev2, Hev, <- app_assoc. split; [done|].
    by rewrite dispatches_app, submitted_app, Hd, Hs.
Qed.

Lemma turns_simulation final cs c1 c2 :
  sim c1 c2 ->
  exists r1 c1' r2 c2' evs1 evs2,
    for_each cs (turn env final) c1 = (r1, c1') /\
    for_each cs (turn_keep env final) c2 = (r2, c2') /\
    events (trace c1') = events (trace c1) ++ evs1 /\
    events (trace c2') = events (trace c2) ++ evs2 /\
    dispatches evs2 = [] /\ submitted evs2 = [] /\
    map fst (compose_calls evs1) `prefix_of` map fst (compose_calls evs2) /\
    (r1 = Ok tt ->
     r2 = Ok tt /\ compose_calls evs1 = compose_calls evs2 /\ sim c1' c2').
Proof.
  revert c1 c2. induction cs as [|c cs IH]; intros c1 c2 Hsim.
  { exists (Ok tt), c1, (Ok tt), c2, [], []. by rewrite !app_nil_r. }
  cbn [for_each].
  destruct (turn_spec env final c c1) as (c1a & Hq1 &
    [(e & c1' & Hf1 & _ & _ & _ & _ & Hev1 & _)|
     (content & c1' & Hok1 & Hlen & Hfail & Hread & Hev1 & Hct1 & _ & Hq1')]).
  - (* the run that dispatches fails here *)
    destruct (turn_keep_spec final c c2) as (c2a & _ &
      [(e2 & c2' & Hf2 & Hev2 & _)|(content2 & c2' & Hok2 & _ & Hev2 & _)]).
    + exists (Raise e), c1', (Raise e2), c2'. eexists _, _.
      split; [by erewrite bind_Raise by done|].
      split; [by erewrite bind_Raise by done|].
      do 4 (split; [done|]). split; [|done]. by exists [].
    + destruct (turns_keep_events final cs c2')
        as (r2 & c2'' & evs & Hrun & Hev & Hd & Hs).
      exists (Raise e), c1', r2, c2''. eexists _, _.
      split; [by erewrite bind_Raise by done|].
      split; [by erewrite bind_Ok by done|].
      split; [done|]. split; [by rewrite Hev, Hev2, <- app_assoc|].
      rewrite dispatches_app, submitted_app, compose_calls_app, Hd, Hs.
      do 2 (split; [done|]). split; [|done].
      by exists (map fst (compose_calls evs)).
  - (* the run that dispatches completes the turn: so does the other *)
    destruct Hsim as (Hsub & Hidle & Hn).
    destruct (turn_keep_spec final c c2) as (c2a & Hq2 &
      [(e2 & c2' & _ & _ & Hwhy)|
       (content2 & c2' & Hok2 & Hread2 & Hev2 & Hct2 & Hq2')]).
    { destruct (quiet_idle _ _ Hidle Hq2) as (Hsame & _).
      destruct Hq1 as (_ & Hs1 & _).
      assert (read_all (bucket c2a) (final :: c) = Some content) as Hr2.
      { eapply read_all_mono; [|done].
        intros b v _ Hv. rewrite Hsame. auto. }
      destruct Hwhy as [?|[Hf|Hnone]]; [lia|congruence|congruence]. }
    destruct (quiet_idle _ _ Hidle Hq2) as (Hsame & Hidle2).
    assert (content2 = content) as ->.
    { destruct Hq1 as (_ & Hs1 & _).
      assert (read_all (bucket c2a) (final :: c) = Some content) as Hr2.
      { eapply read_all_mono; [|done].
        intros b v _ Hv. rewrite Hsame. auto. }
      congruence. }
    assert (sim c1' c2') as Hsim'.
    { apply quiet_set_bucket in Hq1' as (_ & Hs1' & _).
      destruct (quiet_idle (set_bucket (<[final:=content]> (bucket c2a)) c2a)
                  c2' Hidle2 Hq2') as (Hsame' & Hidle').
      destruct Hq1 as (_ & Hs1 & _).
      split; [|split; [done|]].
      - intros b v Hv. rewrite Hsame'. cbn [set_bucket bucket].
        apply Hs1' in Hv.
        destruct (decide (final = b)) as [->|Hne].
        + rewrite lookup_insert_eq in Hv |- *. done.
        + rewrite lookup_insert_ne in Hv |- * by done.
          rewrite Hsame. auto.
      - by rewrite Hct1, Hct2, !length_app, Hn. }
    destruct (IH c1' c2' Hsim')
      as (r1 & c1'' & r2 & c2'' & evs1 & evs2 & Hrun1 & Hrun2 & He1 & He2 &
          Hd & Hs & Hpre & Hok).
    exists r1, c1'', r2, c2''. eexists _, _.
    split; [by erewrite bind_Ok by done|].
    split; [by erewrite bind_Ok by done|].
    split; [by rewrite He1, Hev1, <- app_assoc|].
    split; [by rewrite He2, Hev2, <- app_assoc|].
    rewrite dispatches_app, submitted_app, !compose_calls_app, Hd, Hs.
    do 2 (split; [done|]).
    rewrite compose_calls_turn_events.
    change (compose_calls [Compose final (final :: c) true])
      with [(final, final :: c, true)].
    cbn [app map fst]. split.
    + destruct Hpre as [k Hk]. exists k. cbn. by rewrite Hk.
    + intros Hr. destruct (Hok Hr) as (-> & -> & Hs'). done.
Qed.

End Simulation.

Lemma read_all_ext (m1 m2 : gmap string (list byte)) l :
  (forall b, b ∈ l -> m1 !! b = m2 !! b) -> read_all m1 l = read_all m2 l.
Proof.
  induction l as [|b l IH]; intros Hext; [done|].
  rewrite !read_all_cons, (Hext b) by (by left).
  rewrite IH; [done|]. intros b' Hb'. apply Hext. by right.
Qed.

Section Lockstep.
Variable env : Oracle.

Lemma gw_compose_cases target sources c c1 :
  pause env 0 c = (Ok tt, c1) ->
  gw_compose env target sources c
  = if (provider_limit + 1 <? length sources)%nat
    then (Raise InvalidInputCount, log (clock c) (Compose target sources false) c1)
    else if compose_fails env (length (compose_times (trace c)))
    then (Raise ComposeFailed, log (clock c) (Compose target sources false) c1)
    else match read_all (bucket c1) sources with
         | None =>
             (Raise NotFound, log (clock c) (Compose target sources false) c1)
         | Some content =>
             (Ok tt, log (clock c) (Compose target sources true)
                       (set_bucket (<[target := content]> (bucket c1)) c1))
         end.
Proof. intros Hp. unfold gw_compose. by rewrite Hp. Qed.

(** When no slice comes twice and none is the accumulator, the two runs go
    through the same compose calls with the same results and end alike,
    whatever the gateway and the pool do. *)
Lemma turns_lockstep final cs c1 c2 :
  NoDup (concat cs) -> final ∉ concat cs ->
  agree final (concat cs) c1 c2 ->
  exists r c1' c2' evs1 evs2,
    for_each cs (turn env final) c1 = (r, c1') /\
    for_each cs (turn_keep env final) c2 = (r, c2') /\
    events (trace c1') = events (trace c1) ++ evs1 /\
    events (trace c2') = events (trace c2) ++ evs2 /\
    compose_calls evs1 = compose_calls evs2 /\
    bucket c1' !! final = bucket c2' !! final.
Proof.
  revert c1 c2. induction cs as [|c cs IH]; intros c1 c2 Hnd Hfin Hag.
  { exists (Ok tt), c1, c2, [], []. rewrite !app_nil_r.
    do 5 (split; [done|]). by destruct Hag as (_ & _ & _ & ? & _). }
  cbn [concat] in Hnd, Hfin, Hag.
  apply NoDup_app in Hnd as (Hndc & Hdis & Hndcs).
  apply not_elem_of_app in Hfin as [Hfc Hfcs].
  destruct Hag as (Hidle & Hn & Hfp & Hfb & Hs).
  destruct (pause_spec env 0 c1) as (c1a & Hp1 & Ht1 & _ & Hq1).
  destruct (pause_spec env 0 c2) as (c2a & Hp2 & Ht2 & _ & Hq2).
  destruct (quiet_idle _ _ Hidle Hq2) as (Hsame2 & Hidle2).
  destruct Hq1 as (_ & _ & Hk1 & Hpl1).
  assert (Hpa : forall b, b ∉ pool c1 -> b ∉ pool c1a).
  { intros b Hb Hin. destruct (Hpl1 _ Hin) as [|Hx]; [done|].
    by apply elem_of_nil in Hx. }
  assert (Hfa : bucket c1a !! final = bucket c2a !! final).
  { rewrite Hsame2, Hk1; [done..|apply not_elem_of_nil]. }
  assert (Hsa : forall s, s ∈ c ++ concat cs ->
                  bucket c1a !! s = bucket c2a !! s).
  { intros s Hin. destruct (Hs s Hin) as [Hps Hbs].
    rewrite Hsame2, Hk1; [done..|apply not_elem_of_nil]. }
  assert (Hread : read_all (bucket c1a) (final :: c)
                  = read_all (bucket c2a) (final :: c)).
  { apply read_all_ext. intros b Hb.
    apply elem_of_cons in Hb as [->|Hb]; [done|].
    apply Hsa. apply elem_of_app. by left. }
  pose proof (gw_compose_cases final (final :: c) c1 c1a Hp1) as Hg1.
  pose proof (gw_compose_cases final (final :: c) c2 c2a Hp2) as Hg2.
  rewrite <- Hn, <- Hread in Hg2.
  cbn [for_each]. unfold turn, turn_keep.
  destruct (provider_limit + 1 <? length (final :: c))%nat.
  { exists (Raise InvalidInputCount). eexists _, _, _, _.
    split; [by erewrite bind_Raise; [|by erewrite bind_Raise by done]|].
    split; [by erewrite bind_Raise; [|by erewrite bind_Raise by done]|].
    rewrite !events_log, Ht1, Ht2. do 3 (split; [done|]). done. }
  destruct (compose_fails env (length (compose_times (trace c1)))).
  { exists (Raise ComposeFailed). eexists _, _, _, _.
    split; [by erewrite bind_Raise; [|by erewrite bind_Raise by done]|].
    split; [by erewrite bind_Raise; [|by erewrite bind_Raise by done]|].
    rewrite !events_log, Ht1, Ht2. do 3 (split; [done|]). done. }
  destruct (read_all (bucket c1a) (final :: c)) as [content|].
  2:{ exists (Raise NotFound). eexists _, _, _, _.
      split; [by erewrite bind_Raise; [|by erewrite bind_Raise by done]|].
      split; [by erewrite bind_Raise; [|by erewrite bind_Raise by done]|].
      rewrite !events_log, Ht1, Ht2. do 3 (split; [done|]). done. }
  set (c1b := log (clock c1) (Compose final (final :: c) true)
                (set_bucket (<[final:=content]> (bucket c1a)) c1a)) in *.
  destruct (dispatch_spec env c c1b) as (c1c & Hd & Hev1c & Hct1c & Hq1c).
  destruct (pause_spec env 1000 c1c) as (c1d & Hs1 & Ht1d & _ & Hq1d).
  pose proof (quiet_trans _ _ _ _ _ Hq1c Hq1d) as Hq1'.
  rewrite app_nil_r in Hq1'.
  apply quiet_set_bucket in Hq1' as (_ & _ & Hk1' & Hpl1').
  set (c2b' := log (clock c2) (Compose final (final :: c) true)
                 (set_bucket (<[final:=content]> (bucket c2a)) c2a)) in *.
  destruct (pause_spec env 1000 c2b') as (c2d & Hs2 & Ht2d & _ & Hq2d).
  destruct (quiet_idle c2b' c2d Hidle2 Hq2d) as (Hsame2d & Hidle2d).
  assert (agree final (concat cs) c1d c2d) as Hag'.
  { split; [done|]. split.
    { rewrite Ht1d, Hct1c, Ht2d. subst c1b c2b'.
      rewrite !compose_times_log_compose. cbn [set_bucket trace].
      by rewrite Ht1, Ht2, !length_app, Hn. }
    split.
    { intros Hin. destruct (Hpl1' _ Hin) as [Hin'|]; [|done].
      by apply (Hpa final). }
    split.
    { rewrite Hsame2d, Hk1' by auto. cbn [c1b c2b' log set_bucket bucket].
      by rewrite !lookup_insert_eq. }
    intros s Hin.
    assert (s ∉ c) as Hsc.
    { intros Hc. by apply (Hdis s). }
    assert (s <> final) as Hsf by (by intros ->).
    destruct (Hs s) as [Hps Hbs]; [apply elem_of_app; by right|].
    split.
    - intros Hin'. destruct (Hpl1' _ Hin') as [Hin''|]; [|done].
      by apply (Hpa s).
    - rewrite Hsame2d, Hk1' by auto. cbn [c1b c2b' log set_bucket bucket].
      rewrite !lookup_insert_ne by done.
      apply Hsa. apply elem_of_app. by right. }
  destruct (IH c1d c2d Hndcs Hfcs Hag')
    as (r & c1' & c2' & evs1 & evs2 & Hrun1 & Hrun2 & He1 & He2 & Hcalls & Hb).
  exists r, c1', c2', (turn_events final c ++ evs1),
    (Compose final (final :: c) true :: evs2).
  split.
  { erewrite bind_Ok; [done|].
    erewrite bind_Ok by done. by erewrite bind_Ok by done. }
  split.
  { erewrite bind_Ok; [done|]. by erewrite bind_Ok by done. }
  split.
  { rewrite He1, Ht1d, Hev1c. subst c1b. rewrite events_log.
    cbn [set_bucket trace]. rewrite Ht1, <- !app_assoc. done. }
  split.
  { rewrite He2, Ht2d. subst c2b'. rewrite events_log.
    cbn [set_bucket trace]. rewrite Ht2, <- !app_assoc. done. }
  split; [|done].
  rewrite compose_calls_app, compose_calls_turn_events. cbn. by rewrite Hcalls.
Qed.

End Lockstep.

Lemma compose_keep_run env fuel dest (w : World) slices l :
  heap w !! slices = Some l -> (length l < fuel)%nat ->
  exists r w',
    ListFiles.compose env fuel dest slices w = (r, w')
    /\ run_keep env dest (chunks l default_chunk_size) (cloud w) = (r, cloud w')
    /\ preserves (heap w) (heap w').
Proof.
  intros Hl Hfuel. destruct w as [h cl].
  destruct (compose_keep_spec env fuel dest slices h cl l) as (h' & Hrun & Hp);
    [done..|].
  eexists _, _. split; [done|]. cbn [cloud heap]. split; [|done].
  by destruct (run_keep _ _ _ _).
Qed.

(** C9 (amended). Run in the same state with an idle executor and against
    the same gateway, the two implementations of [compose] upload the same
    empty accumulator; the compose calls of the one that dispatches deletions
    are, with their inputs and in order, the first compose calls of the one
    that does not, which dispatches and submits nothing; when the former
    returns, so does the latter, after exactly the same compose calls with
    the same results, with the same content in the accumulator if it is
    still stored; and when no path comes twice among the destination and the
    slices, the two end alike, returning or raising the same error, after
    the same compose calls with the same results and with the same
    accumulator. *)
Theorem implementations_agree env (w : World) slices l dest fuel :
  heap w !! slices = Some l -> (length l < fuel)%nat ->
  pool (cloud w) = [] ->
  exists r1 w1 evs1 r2 w2 evs2,
    SingleAccumulator.compose env fuel dest slices w = (r1, w1) /\
    events (trace (cloud w1)) = events (trace (cloud w)) ++ evs1 /\
    ListFiles.compose env fuel dest slices w = (r2, w2) /\
    events (trace (cloud w2)) = events (trace (cloud w)) ++ evs2 /\
    (exists ok, head evs1 = Some (Upload dest ok) /\
                head evs2 = Some (Upload dest ok)) /\
    dispatches evs2 = [] /\ submitted evs2 = [] /\
    map fst (compose_calls evs1) `prefix_of` map fst (compose_calls evs2) /\
    (forall b, r1 = Ok b ->
       r2 = Ok b /\
       compose_calls evs1 = compose_calls evs2 /\
       forall v, bucket (cloud w1) !! dest = Some v ->
                 bucket (cloud w2) !! dest = Some v) /\
    (NoDup (dest :: l) ->
     r1 = r2 /\
     compose_calls evs1 = compose_calls evs2 /\
     bucket (cloud w1) !! dest = bucket (cloud w2) !! dest).
Proof.
  intros Hl Hfuel Hidle.
  destruct (compose_run env fuel dest w slices l)
    as (r1 & w1 & Hrun1 & Hc1 & _); [done..|].
  destruct (compose_keep_run env fuel dest w slices l)
    as (r2 & w2 & Hrun2 & Hc2 & _); [done..|].
  unfold run in Hc1. unfold run_keep in Hc2.
  destruct (upload_empty_spec env dest (cloud w))
    as [(_ & c' & Hup & Hev & _)|(_ & c0 & Hup & Hst)].
  { erewrite bind_Raise in Hc1, Hc2 by done.
    injection Hc1 as <- Hw1. injection Hc2 as <- Hw2.
    exists (Raise UploadFailed), w1, [Upload dest false],
      (Raise UploadFailed), w2, [Upload dest false].
    rewrite <- Hw1, <- Hw2. do 4 (split; [done|]).
    split; [by exists false|]. do 2 (split; [done|]).
    split; [by exists []|done]. }
  erewrite bind_Ok in Hc1, Hc2 by done.
  assert (pool c0 = []) as Hidle0.
  { destruct Hst as (_ & _ & _ & _ & Hp & _).
    destruct (pool c0) as [|b p]; [done|].
    specialize (Hp b ltac:(by left)). rewrite Hidle in Hp.
    by apply elem_of_nil in Hp. }
  assert (sim c0 c0) as Hsim by done.
  destruct (turns_simulation env dest (chunks l default_chunk_size) c0 c0 Hsim)
    as (r1' & c1' & r2' & c2' & evs1 & evs2 & Hl1 & Hl2 & He1 & He2 &
        Hd & Hs & Hpre & Hok).
  destruct Hst as (Hev0 & _).
  assert (r1 = returning dest r1' /\ cloud w1 = c1') as [-> Hw1].
  { destruct r1' as [[]|e|].
    - erewrite bind_Ok in Hc1 by done. by injection Hc1.
    - erewrite bind_Raise in Hc1 by done. by injection Hc1.
    - erewrite bind_OutOfFuel in Hc1 by done. by injection Hc1. }
  assert (r2 = returning dest r2' /\ cloud w2 = c2') as [-> Hw2].
  { destruct r2' as [[]|e|].
    - erewrite bind_Ok in Hc2 by done. by injection Hc2.
    - erewrite bind_Raise in Hc2 by done. by injection Hc2.
    - erewrite bind_OutOfFuel in Hc2 by done. by injection Hc2. }
  exists (returning dest r1'), w1, (Upload dest true :: evs1),
    (returning dest r2'), w2, (Upload dest true :: evs2).
  rewrite Hw1, Hw2, He1, He2, Hev0, <- !app_assoc. cbn [app].
  do 4 (split; [done|]). split; [by exists true|].
  rewrite dispatches_upload, submitted_upload, !compose_calls_upload.
  do 3 (split; [done|]). split.
  - intros b Hb. destruct r1' as [[]|e|]; try done.
    destruct (Hok eq_refl) as (-> & Hcalls & Hsub & _).
    split; [done|]. split; [done|]. intros v. apply Hsub.
  - intros Hnd. apply NoDup_cons in Hnd as [Hdest Hnd].
    destruct (turns_lockstep env dest (chunks l default_chunk_size) c0 c0)
      as (r & c1'' & c2'' & evs1' & evs2' & Hk1 & Hk2 & He1' & He2' &
          Hcalls & Hb).
    + by rewrite concat_chunks.
    + by rewrite concat_chunks.
    + split; [done|]. split; [done|]. rewrite Hidle0.
      split; [apply not_elem_of_nil|]. split; [done|].
      intros s _. split; [apply not_elem_of_nil|done].
    + rewrite Hl1 in Hk1. rewrite Hl2 in Hk2.
      injection Hk1 as <- <-. injection Hk2 as -> <-.
      rewrite He1 in He1'. rewrite He2 in He2'.
      apply app_inv_head in He1', He2'. subst evs1' evs2'.
      done.
Qed.

(** * Further properties of the chunker *)

Section ChunkSegments.
Context {A : Type}.
Implicit Types (l : list A) (k : Z).

(** The chunk number [i] is the segment of the list that starts at the
    index [i * k]. *)
Lemma chunks_lookup l k i c :
  0 < k -> chunks l k !! i = Some c ->
  c = take (Z.to_nat k) (drop (i * Z.to_nat k) l).
Proof.
  intros Hk. revert i.
  induction l as [|l Hl IH] using (chunks_ind k Hk); [done|].
  intros i. rewrite chunks_cons by done. destruct i as [|i]; simpl.
  - intros [= <-]. by rewrite py_prefix_pos.
  - intros Hc. apply IH in Hc. rewrite Hc, py_suffix_pos, drop_drop by done.
    do 2 f_equal.
Qed.

(** The slice at the index [j] is in the chunk number [j / k], at the index
    [j mod k]. *)
Lemma chunks_lookup_slice l k j s :
  0 < k -> l !! j = Some s ->
  exists c, chunks l k !! (j / Z.to_nat k)%nat = Some c /\
            c !! (j mod Z.to_nat k)%nat = Some s.
Proof.
  intros Hk. revert j.
  induction l as [|l Hl IH] using (chunks_ind k Hk); [done|].
  intros j Hj. rewrite chunks_cons by done.
  destruct (decide (j < Z.to_nat k)%nat) as [Hlt|Hge].
  - rewrite Nat.div_small, Nat.mod_small by done.
    exists (py_prefix l k). split; [done|].
    by rewrite py_prefix_pos, lookup_take_lt.
  - assert (py_suffix l k !! (j - Z.to_nat k)%nat = Some s) as Hj'.
    { rewrite py_suffix_pos, lookup_drop by done. rewrite <- Hj. f_equal. lia. }
    destruct (IH _ Hj') as (c & Hc & Hs). exists c.
    replace j with ((j - Z.to_nat k) + 1 * Z.to_nat k)%nat at 1 2 by lia.
    rewrite Nat.div_add, Nat.Div0.mod_add by lia.
    rewrite Nat.add_1_r. done.
Qed.

(** A list that fits in one chunk is yielded whole. *)
Lemma chunks_single l k :
  0 < k -> l <> [] -> Z.of_nat (length l) <= k -> chunks l k = [l].
Proof.
  intros Hk Hl Hlen. rewrite chunks_cons by done.
  rewrite py_prefix_pos, py_suffix_pos by done.
  rewrite take_ge, drop_ge by lia. done.
Qed.

End ChunkSegments.

(** The first [next] of a generator reads the list of the caller. *)
Lemma next_first slices K (w : World) x l :
  heap w !! slices = Some (x :: l) ->
  next (generate_composition_chunks slices K) w
  = (Ok (Some (length (heap w),
               {| gen_slices := slices; gen_chunk_size := K;
                  gen_suspended := true |})),
     {| heap := heap w ++ [py_prefix (x :: l) K]; cloud := cloud w |}).
Proof.
  intros Hl. destruct w as [h cl]. cbn [heap cloud] in *.
  unfold next, generate_composition_chunks. cbn [gen_suspended gen_slices].
  unfold bind, ret, slice_to, deref, alloc, bind. cbn [heap cloud].
  rewrite Hl. cbn beta iota delta [length Nat.eqb heap cloud].
  by rewrite Hl.
Qed.

(** A later [next] reads the list that the generator held when it was
    suspended, and holds a list of its own from then on. *)
Lemma next_resumed s K (w : World) l0 x l :
  heap w !! s = Some l0 ->
  py_suffix l0 K = x :: l ->
  next {| gen_slices := s; gen_chunk_size := K; gen_suspended := true |} w
  = (Ok (Some (S (length (heap w)),
               {| gen_slices := length (heap w); gen_chunk_size := K;
                  gen_suspended := true |})),
     {| heap := (heap w ++ [x :: l]) ++ [py_prefix (x :: l) K];
        cloud := cloud w |}).
Proof.
  intros Hs Hl. destruct w as [h cl]. cbn [heap cloud] in *.
  unfold next. cbn [gen_suspended gen_slices gen_chunk_size].
  unfold bind, ret, slice_from, slice_to, deref, alloc, bind. cbn [heap cloud].
  rewrite Hs. cbn [heap cloud]. rewrite Hl.
  rewrite lookup_app_r, Nat.sub_diag by done. cbn [lookup list_lookup].
  cbn [length Nat.eqb heap cloud].
  rewrite lookup_app_r, Nat.sub_diag by done. cbn [lookup list_lookup].
  cbn [heap cloud]. by rewrite length_app, Nat.add_1_r.
Qed.

(** X1. The chunk number [i] that the chunker yields is the segment of at
    most K slices that starts at the index [i * K] of the list: the slice at
    the index [j] is in the chunk [j / K], at the index [j mod K]; and a
    non-empty list of at most K slices is yielded whole, as the only
    chunk. *)
Theorem chunk_segments (w : World) slices l K fuel :
  heap w !! slices = Some l -> 0 < K -> (length l < fuel)%nat ->
  exists cs w1,
    collect fuel (generate_composition_chunks slices K) w = (Ok cs, w1) /\
    (forall i c, cs !! i = Some c ->
       c = take (Z.to_nat K) (drop (i * Z.to_nat K) l)) /\
    (forall j s, l !! j = Some s ->
       exists c, cs !! (j / Z.to_nat K)%nat = Some c /\
                 c !! (j mod Z.to_nat K)%nat = Some s) /\
    (l <> [] -> Z.of_nat (length l) <= K -> cs = [l]).
Proof.
  intros Hl HK Hfuel.
  destruct (collect_chunks fuel w slices l K) as (w1 & Hc & _); [done..|].
  exists (chunks l K), w1. split; [done|]. split; [|split].
  - intros i c. by apply chunks_lookup.
  - intros j s. by apply chunks_lookup_slice.
  - intros Hne Hlen. by apply chunks_single.
Qed.

(** X2. The generator reads the list of the caller when the first and when
    the second chunk are asked for, and never after: the first chunk is the
    head of the list as it is at the first [next]; if the list is changed
    after that, the chunks that follow are those of the rest of the changed
    list; once the second chunk has been yielded the generator iterates over
    a list of its own, and the chunks that follow are those of the list as
    it was, whatever the caller writes in its list. *)
Theorem generator_reads_list_twice (w : World) slices l K :
  heap w !! slices = Some l -> 0 < K -> l <> [] ->
  exists c1 g1 w1,
    next (generate_composition_chunks slices K) w = (Ok (Some (c1, g1)), w1) /\
    heap w1 !! c1 = Some (py_prefix l K) /\
    (forall l' fuel, (length l' < fuel)%nat ->
       exists w2,
         collect fuel g1 {| heap := <[slices := l']> (heap w1);
                            cloud := cloud w1 |}
         = (Ok (chunks (py_suffix l' K) K), w2)) /\
    (forall c2 g2 w2 l' fuel,
       next g1 w1 = (Ok (Some (c2, g2)), w2) ->
       (length l < fuel)%nat ->
       exists w3,
         collect fuel g2 {| heap := <[slices := l']> (heap w2);
                            cloud := cloud w2 |}
         = (Ok (drop 2 (chunks l K)), w3)).
Proof.
  intros Hl HK Hne. destruct l as [|x l]; [done|].
  pose proof (next_first slices K w x l Hl) as Hn1.
  assert (Hlt : (slices < length (heap w))%nat) by (by eapply lookup_lt_Some).
  eexists _, _, _. split; [exact Hn1|]. cbn [heap cloud].
  split; [by rewrite lookup_app_r, Nat.sub_diag|]. split.
  - intros l' fuel Hfuel.
    destruct (collect_spec fuel
                {| gen_slices := slices; gen_chunk_size := K;
                   gen_suspended := true |}
                (<[slices := l']> (heap w ++ [py_prefix (x :: l) K]))
                (cloud w) (py_suffix l' K)) as (h' & Hrun & _); [done| | |].
    + unfold gen_rest. cbn [gen_slices gen_suspended gen_chunk_size].
      rewrite list_lookup_insert_eq; [done|]. rewrite length_app. lia.
    + unfold py_suffix. rewrite length_drop. lia.
    + by eexists.
  - intros c2 g2 w2 l' fuel Hn2 Hfuel.
    destruct (py_suffix (x :: l) K) as [|y l2] eqn:Hs.
    { (* the list is exhausted: there is no second chunk *)
      exfalso. revert Hn2. unfold next.
      cbn [gen_suspended gen_slices gen_chunk_size].
      unfold bind, ret, slice_from, slice_to, deref, alloc, bind.
      cbn [heap cloud].
      rewrite (lookup_app_l_Some _ _ _ _ Hl). cbn [heap cloud]. rewrite Hs.
      rewrite lookup_app_r, Nat.sub_diag by done. cbn. done. }
    erewrite next_resumed in Hn2; [| |exact Hs].
    2:{ cbn [heap]. by apply lookup_app_l_Some. }
    injection Hn2 as <- <- <-. cbn [heap cloud].
    set (h1 := heap w ++ [py_prefix (x :: l) K]).
    destruct (collect_spec fuel
                {| gen_slices := length h1; gen_chunk_size := K;
                   gen_suspended := true |}
                (<[slices := l']> ((h1 ++ [y :: l2])
                                     ++ [py_prefix (y :: l2) K]))
                (cloud w) (py_suffix (y :: l2) K)) as (h' & Hrun & _);
      [done| | |].
    + unfold gen_rest. cbn [gen_slices gen_suspended gen_chunk_size].
      rewrite list_lookup_insert_ne by (subst h1; rewrite length_app; lia).
      rewrite lookup_app_l by (rewrite length_app; simpl; lia).
      by rewrite lookup_app_r, Nat.sub_diag.
    + pose proof (py_suffix_shorter (x :: l) K HK ltac:(done)) as H1.
      rewrite Hs in H1.
      pose proof (py_suffix_shorter (y :: l2) K HK ltac:(done)) as H2.
      lia.
    + cbn [gen_chunk_size] in Hrun. eexists. rewrite Hrun. do 2 f_equal.
      rewrite (chunks_cons (x :: l)), Hs by done.
      by rewrite (chunks_cons (y :: l2)) by done.
Qed.

(** With a chunk size that is not positive, the chunk taken from what is
    left after a chunk is empty. *)
Lemma py_prefix_suffix_nonpositive {A} (l : list A) k :
  k <= 0 -> py_prefix (py_suffix l k) k = [].
Proof.
  intros Hk. unfold py_prefix, py_suffix. rewrite length_drop.
  replace (slice_bound (length l - slice_bound (length l) k) k) with 0%nat;
    [done|].
  unfold slice_bound. destruct (Z.ltb_spec k 0); lia.
Qed.

Lemma next_after_nonpositive n s K (w : World) l0 :
  K <= 0 -> heap w !! s = Some l0 -> l0 <> [] ->
  exists c g' w',
    next_after n {| gen_slices := s; gen_chunk_size := K;
                    gen_suspended := true |} w
    = (Ok (Some (c, g')), w') /\
    heap w' !! c = Some [].
Proof.
  intros HK. revert s w l0. induction n as [|n IH]; intros s w l0 Hs Hne.
  - destruct (py_suffix l0 K) as [|x l'] eqn:Hl.
    { by destruct (py_suffix_nonpositive l0 K HK Hne). }
    cbn [next_after]. erewrite next_resumed by done.
    eexists _, _, _. split; [done|]. cbn [heap].
    rewrite lookup_app_r by (by rewrite length_app, Nat.add_1_r).
    rewrite length_app, Nat.add_1_r, Nat.sub_diag. cbn.
    by rewrite <- Hl, py_prefix_suffix_nonpositive.
  - destruct (py_suffix l0 K) as [|x l'] eqn:Hl.
    { by destruct (py_suffix_nonpositive l0 K HK Hne). }
    cbn [next_after]. erewrite bind_Ok by (by eapply next_resumed).
    cbv beta iota. eapply (IH _ _ (x :: l')); [|done].
    cbn [heap]. rewrite lookup_app_l by (rewrite length_app; simpl; lia).
    by rewrite lookup_app_r, Nat.sub_diag.
Qed.

(** X3. With a chunk size that is not positive the chunker does not fail
    and is never exhausted on a non-empty list: every call of [next] yields
    a chunk; the first chunk is empty for K = 0 and is the list without its
    last |K| slices for K < 0, and every later chunk is empty, so that the
    last |K| slices, or all of them for K = 0, are never yielded. *)
Theorem chunker_nonpositive_size (w : World) slices l K n :
  heap w !! slices = Some l -> K <= 0 -> l <> [] ->
  exists c g' w',
    next_after n (generate_composition_chunks slices K) w
    = (Ok (Some (c, g')), w') /\
    (n = 0%nat -> K = 0 -> heap w' !! c = Some []) /\
    (n = 0%nat -> K < 0 ->
     heap w' !! c = Some (take (length l - Z.to_nat (- K)) l)) /\
    (n <> 0%nat -> heap w' !! c = Some []).
Proof.
  intros Hl HK Hne. destruct l as [|x l]; [done|].
  pose proof (next_first slices K w x l Hl) as Hn1.
  assert (Hc : (heap w ++ [py_prefix (x :: l) K]) !! length (heap w)
               = Some (py_prefix (x :: l) K))
    by (by rewrite lookup_app_r, Nat.sub_diag).
  destruct n as [|n].
  - eexists _, _, _. split; [exact Hn1|]. cbn [heap].
    split; [|split; [|done]]; intros _ HK'; rewrite Hc; f_equal;
      unfold py_prefix, slice_bound.
    + subst K. done.
    + destruct (Z.ltb_spec K 0); [|lia]. f_equal. lia.
  - cbn [next_after]. erewrite bind_Ok by exact Hn1. cbv beta iota.
    destruct (next_after_nonpositive n slices K
                {| heap := heap w ++ [py_prefix (x :: l) K]; cloud := cloud w |}
                (x :: l) HK) as (c & g' & w' & Hrun & Hempty); [|done|].
    { cbn [heap]. by apply lookup_app_l_Some. }
    exists c, g', w'. split; [exact Hrun|]. by repeat split.
Qed.

(** * Further properties of the cleanup *)

Section MoreSteps.
Variable env : Oracle.

Lemma pause_pending ms c c' b :
  pause env ms c = (Ok tt, c') -> gone_or_pending c b -> gone_or_pending c' b.
Proof.
  unfold pause. intros [= <-]. unfold gone_or_pending, run_pool. cbn.
  rewrite lookup_foldr_delete. intros [Hnone|Hin].
  - left. by destruct (decide _).
  - destruct (pool_runs env (tick c) b) eqn:Hr.
    + left. rewrite decide_True; [done|].
      apply list_elem_of_filter. split; [by rewrite Hr|done].
    + right. apply list_elem_of_filter. split; [|done].
      rewrite Hr. by intros [].
Qed.

Lemma submit_delete_pending b c c' :
  submit_delete b c = (Ok tt, c') ->
  clock c' = clock c /\
  gone_or_pending c' b /\
  forall b', gone_or_pending c b' -> gone_or_pending c' b'.
Proof.
  unfold submit_delete. intros [= <-]. unfold gone_or_pending. cbn.
  split; [done|]. split.
  - right. apply elem_of_app. right. by left.
  - intros b' [?|?]; [by left|right]. apply elem_of_app. by left.
Qed.

(** The loop of the dispatcher takes at least 5 ms for every blob, and
    leaves every blob of the batch deleted or pending. *)
Lemma dispatch_loop_effect batch c c' :
  for_each batch (fun blob => do! submit_delete blob in sleep env 5) c
  = (Ok tt, c') ->
  (clock c + 5 * N.of_nat (length batch) <= clock c')%N /\
  (forall b, gone_or_pending c b -> gone_or_pending c' b) /\
  (forall b, b ∈ batch -> gone_or_pending c' b).
Proof.
  revert c. induction batch as [|b batch IH]; intros c.
  - cbn. intros [= <-]. split; [lia|]. split; [done|].
    intros b Hb. by apply elem_of_nil in Hb.
  - cbn [for_each].
    destruct (submit_delete_spec b c) as (c1 & Hs & _).
    destruct (pause_spec env 5 c1) as (c2 & Hp & _ & Hck & _).
    erewrite bind_Ok; [|by erewrite bind_Ok by done].
    intros Hrun. destruct (IH _ Hrun) as (Hclock & Hkeep & Hbatch).
    destruct (submit_delete_pending _ _ _ Hs) as (Hck1 & Hb & Hkeep1).
    split; [cbn [length]; lia|]. split.
    + intros b' Hb'. eapply Hkeep, pause_pending; [done|]. by apply Hkeep1.
    + intros b' Hb'. apply elem_of_cons in Hb' as [->|Hb']; [|by apply Hbatch].
      eapply Hkeep, pause_pending; done.
Qed.

Lemma spaced_cons d t ts :
  spaced d ts -> Forall (fun t' => (t + d <= t')%N) ts -> spaced d (t :: ts).
Proof.
  intros Hs Hall [|i] t1 t2 H1 H2; cbn in H1, H2.
  - injection H1 as <-. rewrite Forall_forall in Hall. apply Hall.
    by eapply list_elem_of_lookup_2.
  - by eapply Hs.
Qed.

(** The loop of the dispatcher submits one deletion every 5 ms at most. *)
Lemma dispatch_loop_paced batch c c' :
  for_each batch (fun blob => do! submit_delete blob in sleep env 5) c
  = (Ok tt, c') ->
  exists ts,
    submit_times (trace c') = submit_times (trace c) ++ ts /\
    length ts = length batch /\
    spaced 5 ts /\
    Forall (fun t => (clock c <= t)%N /\ (t + 5 <= clock c')%N) ts.
Proof.
  revert c. induction batch as [|b batch IH]; intros c.
  - cbn. intros [= <-]. exists []. rewrite app_nil_r.
    do 2 (split; [done|]). split; [apply spaced_nil|constructor].
  - cbn [for_each].
    destruct (submit_delete_spec b c) as (c1 & Hs & Ht1 & _).
    destruct (submit_delete_pending _ _ _ Hs) as (Hck1 & _).
    destruct (pause_spec env 5 c1) as (c2 & Hp & Ht2 & Hck2 & _).
    erewrite bind_Ok; [|by erewrite bind_Ok by done].
    intros Hrun. destruct (IH _ Hrun) as (ts & Hts & Hlen & Hsp & Hall).
    destruct (dispatch_loop_effect _ _ _ Hrun) as (Hck & _).
    exists (clock c :: ts). split.
    { rewrite Hts, Ht2, Ht1. unfold submit_times. rewrite omap_app. cbn.
      by rewrite <- app_assoc. }
    split; [cbn; by rewrite Hlen|]. split.
    + apply spaced_cons; [done|]. eapply Forall_impl; [done|].
      intros t [Ht _]. cbn in Ht. lia.
    + constructor; [lia|]. eapply Forall_impl; [done|].
      intros t [Ht Ht']. cbn in Ht. lia.
Qed.

Lemma dispatch_effect batch c c' :
  dispatch env batch c = (Ok tt, c') ->
  (clock c + 5 * N.of_nat (length batch) <= clock c')%N /\
  (forall b, gone_or_pending c b -> gone_or_pending c' b) /\
  (forall b, b ∈ batch -> gone_or_pending c' b).
Proof.
  unfold dispatch. erewrite bind_Ok by (by apply emit_spec).
  intros Hrun. by apply dispatch_loop_effect in Hrun.
Qed.

End MoreSteps.

(** [delete_objects_concurrent], as a run of the dispatcher on the batch. *)
Lemma delete_objects_run env (w : World) blobs l :
  heap w !! blobs = Some l ->
  SingleAccumulator.delete_objects_concurrent env blobs w
  = (fst (dispatch env l (cloud w)),
     {| heap := heap w; cloud := snd (dispatch env l (cloud w)) |}).
Proof.
  intros Hl. unfold SingleAccumulator.delete_objects_concurrent.
  erewrite bind_Ok; [|by unfold deref; rewrite Hl].
  fold (dispatch env l). apply lift_eq.
Qed.

(** X4. [delete_objects_concurrent] never raises and leaves the Python
    lists alone; it hands the blobs of the batch to the executor in the order
    of the batch, once for every occurrence, and makes no other call: no
    deletion of any other blob is submitted, no compose call is made; on an
    empty batch it does nothing at all: no time passes, and the bucket and
    the pending deletions are as before. *)
Theorem delete_objects_submits env (w : World) blobs l :
  heap w !! blobs = Some l ->
  exists w' evs,
    SingleAccumulator.delete_objects_concurrent env blobs w = (Ok tt, w') /\
    heap w' = heap w /\
    events (trace (cloud w')) = events (trace (cloud w)) ++ evs /\
    submitted evs = l /\
    dispatches evs = [l] /\
    compose_calls evs = [] /\
    (l = [] ->
     bucket (cloud w') = bucket (cloud w) /\
     pool (cloud w') = pool (cloud w) /\
     clock (cloud w') = clock (cloud w)).
Proof.
  intros Hl. rewrite (delete_objects_run env w blobs l Hl).
  destruct (dispatch_spec env l (cloud w)) as (c' & Hrun & Hev & _).
  rewrite Hrun. cbn [fst snd]. eexists _, _. split; [done|].
  split; [done|]. cbn [cloud]. split; [exact Hev|].
  cbn. rewrite submitted_map_Submit, dispatches_map_Submit,
    compose_calls_map_Submit.
  do 3 (split; [done|]). intros ->.
  revert Hrun. unfold dispatch. erewrite bind_Ok by (by apply emit_spec).
  cbn. by intros [= <-].
Qed.

(** X5. A call of [delete_objects_concurrent] takes at least 5 ms for
    every blob of the batch. While it runs objects can only disappear: no
    object is created or changed, and an object that is not in the batch and
    had no deletion pending is as before; the deletions pending on return
    are among those pending before and the batch; and on return every blob
    of the batch is either out of the bucket or still pending: the call
    does not wait for the deletions. *)
Theorem delete_objects_effect env (w : World) blobs l :
  heap w !! blobs = Some l ->
  exists w',
    SingleAccumulator.delete_objects_concurrent env blobs w = (Ok tt, w') /\
    (clock (cloud w) + 5 * N.of_nat (length l) <= clock (cloud w'))%N /\
    (forall b v, bucket (cloud w') !! b = Some v ->
       bucket (cloud w) !! b = Some v) /\
    (forall b, b ∉ pool (cloud w) -> b ∉ l ->
       bucket (cloud w') !! b = bucket (cloud w) !! b) /\
    (forall b, b ∈ pool (cloud w') -> b ∈ pool (cloud w) \/ b ∈ l) /\
    (forall b, b ∈ l ->
       bucket (cloud w') !! b = None \/ b ∈ pool (cloud w')).
Proof.
  intros Hl. rewrite (delete_objects_run env w blobs l Hl).
  destruct (dispatch_spec env l (cloud w))
    as (c' & Hrun & _ & _ & (_ & Hsub & Hkeep & Hpool)).
  destruct (dispatch_effect env l (cloud w) c' Hrun) as (Hclock & _ & Hbatch).
  rewrite Hrun. cbn [fst snd]. eexists. split; [done|]. cbn [cloud].
  do 4 (split; [done|]). exact Hbatch.
Qed.

(** X6. [delete_objects_concurrent] paces its submissions: the deletions
    of a batch are handed to the executor one by one, each at least 5 ms
    after the one before, and the call returns no earlier than 5 ms after
    the last of them, whatever the latencies of the executor. *)
Theorem delete_objects_paced env (w : World) blobs l :
  heap w !! blobs = Some l ->
  exists w' ts,
    SingleAccumulator.delete_objects_concurrent env blobs w = (Ok tt, w') /\
    submit_times (trace (cloud w'))
    = submit_times (trace (cloud w)) ++ ts /\
    length ts = length l /\
    spaced 5 ts /\
    Forall (fun t => (clock (cloud w) <= t)%N /\
                     (t + 5 <= clock (cloud w'))%N) ts.
Proof.
  intros Hl. rewrite (delete_objects_run env w blobs l Hl).
  destruct (dispatch_spec env l (cloud w)) as (c' & Hrun & _).
  rewrite Hrun. cbn [fst snd]. revert Hrun. unfold dispatch.
  erewrite bind_Ok by (by apply emit_spec). intros Hrun.
  destruct (dispatch_loop_paced env l _ _ Hrun) as (ts & Hts & Hlen & Hsp & Hall).
  exists {| heap := heap w; cloud := c' |}, ts. split; [done|]. cbn [cloud].
  split; [|done]. rewrite Hts. unfold submit_times. cbn.
  rewrite omap_app. cbn. by rewrite app_nil_r.
Qed.

(** * Further properties of [compose] *)

Lemma read_all_None (m : gmap string (list byte)) l :
  read_all m l = None -> exists b, b ∈ l /\ m !! b = None.
Proof.
  induction l as [|b l IH]; [done|]. rewrite read_all_cons.
  destruct (m !! b) as [v|] eqn:Hb; [|intros _; exists b; split; [by left|done]].
  destruct (read_all m l) as [x|]; [done|]. intros _.
  destruct IH as (b' & Hin & Hnone); [done|]. exists b'. split; [by right|done].
Qed.

Section MoreTurns.
Variable env : Oracle.

(** The steps of a turn. *)
Lemma turn_cases final c cl :
  exists cl1,
    pause env 0 cl = (Ok tt, cl1) /\ trace cl1 = trace cl /\
    quiet [] cl cl1 /\
    ((exists e,
        turn env final c cl
        = (Raise e, log (clock cl) (Compose final (final :: c) false) cl1) /\
        compose_failure env final c e cl1)
     \/ (exists content cl3 cl4,
           read_all (bucket cl1) (final :: c) = Some content /\
           dispatch env c
             (log (clock cl) (Compose final (final :: c) true)
                (set_bucket (<[final := content]> (bucket cl1)) cl1))
           = (Ok tt, cl3) /\
           pause env 1000 cl3 = (Ok tt, cl4) /\
           turn env final c cl = (Ok tt, cl4))).
Proof.
  destruct (gw_compose_spec env final (final :: c) cl)
    as (cl1 & Hp & Ht & Hq & Hcases).
  exists cl1. do 3 (split; [done|]). unfold turn.
  destruct Hcases as [[Hg Hlen]|[(Hg & _ & Hf)|[(Hg & _ & _ & Hr)|
    (content & Hg & _ & _ & Hr)]]].
  1-3: left; eexists; (split; [by erewrite bind_Raise by done|]).
  - left. split; [done|]. unfold provider_limit in *. cbn in Hlen. lia.
  - right; left. split; [done|]. by eexists.
  - right; right. split; [done|]. by apply read_all_None.
  - right. set (cl2 := log _ _ _) in Hg.
    destruct (dispatch_spec env c cl2) as (cl3 & Hd & _).
    destruct (pause_spec env 1000 cl3) as (cl4 & Hs & _).
    exists content, cl3, cl4. do 3 (split; [done|]).
    erewrite bind_Ok by done. by erewrite bind_Ok by done.
Qed.

(** What a turn does to the outside world. *)
Lemma turn_effect final c cl r cl' :
  turn env final c cl = (r, cl') ->
  (r = Ok tt \/ exists e, r = Raise e) /\
  (clock cl <= clock cl')%N /\
  (r = Ok tt ->
   (clock cl + 1000 + 5 * N.of_nat (length c) <= clock cl')%N) /\
  (forall b v, b <> final ->
     bucket cl' !! b = Some v -> bucket cl !! b = Some v) /\
  (forall b, b <> final -> b ∉ pool cl -> (r = Ok tt -> b ∉ c) ->
     bucket cl' !! b = bucket cl !! b) /\
  (forall b, b ∈ pool cl' -> b ∈ pool cl \/ (r = Ok tt /\ b ∈ c)) /\
  (forall b, b <> final -> gone_or_pending cl b -> gone_or_pending cl' b) /\
  (r = Ok tt -> forall b, b ∈ c -> b <> final -> gone_or_pending cl' b) /\
  (r = Ok tt -> forall b, b ∈ c -> is_Some (bucket cl !! b)) /\
  (forall e, r = Raise e -> compose_failure env final c e cl') /\
  events (trace cl')
  = events (trace cl)
      ++ (if r is Ok _ then turn_events final c
          else [Compose final (final :: c) false]).
Proof.
  destruct (turn_cases final c cl) as (cl1 & Hp & Ht & Hq &
    [(e & Hturn & Hwhy)|(content & cl3 & cl4 & Hread & Hd & Hs & Hturn)]);
    rewrite Hturn; intros [= <- <-];
    destruct Hq as (Hck1 & Hsub1 & Hkeep1 & Hpool1).
  - split; [right; by exists e|]. cbn [log clock bucket pool].
    split; [done|]. split; [done|]. split; [auto|]. split.
    { intros b _ Hb _. apply Hkeep1; [done|apply not_elem_of_nil]. }
    split.
    { intros b Hb. destruct (Hpool1 _ Hb) as [|Hn]; [by left|].
      by apply elem_of_nil in Hn. }
    split.
    { intros b _ Hb. apply (pause_pending env 0 cl cl1 b Hp) in Hb.
      exact Hb. }
    split; [done|]. split; [done|]. split; [by intros e' [= <-]|].
    by rewrite events_log, Ht.
  - set (cl2 := log _ _ _) in Hd.
    destruct (dispatch_spec env c cl2) as (cl3' & Hd' & Hev3 & _ & Hq3).
    rewrite Hd in Hd'. injection Hd' as <-.
    destruct (dispatch_effect env c cl2 cl3 Hd) as (Hck3 & Hkeep3 & Hbatch3).
    destruct (pause_spec env 1000 cl3) as (cl4' & Hs' & Ht4 & Hck4 & Hq4).
    rewrite Hs in Hs'. injection Hs' as <-.
    pose proof (quiet_trans _ _ _ _ _ Hq3 Hq4) as Hq34.
    rewrite app_nil_r in Hq34.
    apply quiet_set_bucket in Hq34 as (_ & Hsub & Hkeep & Hpool).
    assert (Hpa : forall b, b ∉ pool cl -> b ∉ pool cl1).
    { intros b Hb Hin. destruct (Hpool1 _ Hin) as [|Hn]; [done|].
      by apply elem_of_nil in Hn. }
    assert (Hpend2 : forall b, b <> final ->
              gone_or_pending cl1 b -> gone_or_pending cl2 b).
    { intros b Hne [Hnone|Hin]; [left|by right].
      cbn [cl2 log set_bucket bucket]. by rewrite lookup_insert_ne. }
    cbn [cl2 log set_bucket clock bucket pool] in Hck3, Hsub, Hkeep, Hpool.
    split; [by left|].
    split; [lia|]. split; [lia|]. split.
    { intros b v Hne Hv. apply Hsub1. apply Hsub in Hv.
      by rewrite lookup_insert_ne in Hv. }
    split.
    { intros b Hne Hb Hc. rewrite Hkeep by auto.
      rewrite lookup_insert_ne by done.
      apply Hkeep1; [done|apply not_elem_of_nil]. }
    split.
    { intros b Hb. destruct (Hpool _ Hb) as [Hin|Hin]; [|by right].
      left. destruct (Hpool1 _ Hin) as [|Hn]; [done|].
      by apply elem_of_nil in Hn. }
    split.
    { intros b Hne Hb. eapply pause_pending; [exact Hs|]. apply Hkeep3.
      apply Hpend2; [done|]. by eapply pause_pending. }
    split.
    { intros _ b Hb _. eapply pause_pending; [exact Hs|]. by apply Hbatch3. }
    split.
    { intros _ b Hb.
      assert (is_Some (bucket cl1 !! b)) as [v Hv].
      { eapply read_all_is_Some; [by eexists|]. by right. }
      exists v. by apply Hsub1. }
    split; [done|].
    rewrite Ht4, Hev3. subst cl2. rewrite events_log.
    cbn [set_bucket trace]. by rewrite Ht, <- app_assoc.
Qed.

Lemma effect_start final c0 : effect final c0 [] c0.
Proof.
  unfold effect. cbn. split; [lia|]. split; [auto|]. split; [auto|].
  split; [auto|]. split; [auto|]. intros b Hb. by apply elem_of_nil in Hb.
Qed.

Lemma effect_step final c0 done x c1 c2 :
  effect final c0 done c1 ->
  turn env final x c1 = (Ok tt, c2) ->
  effect final c0 (done ++ [x]) c2.
Proof.
  intros (Hck & Hsub & Hkeep & Hpool & Hpend & Hdone) Hturn.
  destruct (turn_effect final x c1 _ _ Hturn)
    as (_ & _ & Hck' & Hsub' & Hkeep' & Hpool' & Hpend' & Hdone' & Hst' & _).
  specialize (Hck' eq_refl). specialize (Hdone' eq_refl).
  specialize (Hst' eq_refl).
  unfold effect. rewrite concat_app, !length_app. cbn [concat length].
  rewrite app_nil_r. split; [lia|]. split; [by eauto|]. split.
  { intros b Hne Hb Hn. apply not_elem_of_app in Hn as [Hd Hx].
    rewrite Hkeep'; [by apply Hkeep|done| |done].
    intros Hin. destruct (Hpool _ Hin); done. }
  split.
  { intros b Hb. rewrite elem_of_app.
    destruct (Hpool' _ Hb) as [Hin|[_ Hin]]; [|by auto].
    destruct (Hpool _ Hin); auto. }
  split; [by auto|].
  intros b Hb Hne. apply elem_of_app in Hb as [Hb|Hb].
  - destruct (Hdone b Hb Hne). auto.
  - split; [by auto|]. destruct (Hst' b Hb) as [v Hv]. exists v. auto.
Qed.

Lemma effect_fail final c0 done x c1 e c2 :
  effect final c0 done c1 ->
  turn env final x c1 = (Raise e, c2) ->
  effect final c0 done c2.
Proof.
  intros (Hck & Hsub & Hkeep & Hpool & Hpend & Hdone) Hturn.
  destruct (turn_effect final x c1 _ _ Hturn)
    as (_ & Hck' & _ & Hsub' & Hkeep' & Hpool' & Hpend' & _).
  unfold effect. split; [lia|]. split; [by eauto|]. split.
  { intros b Hne Hb Hn. rewrite Hkeep'; [by apply Hkeep|done| |done].
    intros Hin. destruct (Hpool _ Hin); done. }
  split.
  { intros b Hb. destruct (Hpool' _ Hb) as [Hin|[[=] _]]. auto. }
  split; [by auto|]. intros b Hb Hne. destruct (Hdone b Hb Hne). auto.
Qed.

(** The loop over the chunks [cs] from the state [c0]: the turns it has
    completed, the compose call it has failed in, if any, and its effect. *)
Lemma turns_effect final cs c0 :
  exists r c' done rest,
    for_each cs (turn env final) c0 = (r, c') /\
    cs = done ++ rest /\
    (r = Ok tt \/
     exists e x rest', r = Raise e /\ rest = x :: rest' /\
                       compose_failure env final x e c') /\
    (r = Ok tt -> rest = []) /\
    events (trace c')
    = events (trace c0) ++ flat_map (turn_events final) done
        ++ attempt final (stopped_at r rest) /\
    effect final c0 done c'.
Proof.
  pose proof (for_each_inv (turn env final)
                (fun done c =>
                   events (trace c)
                   = events (trace c0) ++ flat_map (turn_events final) done /\
                   effect final c0 done c) cs c0) as H.
  destruct (for_each cs (turn env final) c0) as [r c'] eqn:Hrun.
  exists r, c'.
  assert (Hstep : forall done x rest s1 s2,
            cs = done ++ x :: rest ->
            events (trace s1)
            = events (trace c0) ++ flat_map (turn_events final) done /\
            effect final c0 done s1 ->
            turn env final x s1 = (Ok tt, s2) ->
            events (trace s2)
            = events (trace c0)
                ++ flat_map (turn_events final) (done ++ [x]) /\
            effect final c0 (done ++ [x]) s2).
  { intros done x rest s1 s2 _ [Hev Heff] Hturn. split.
    - destruct (turn_effect final x s1 _ _ Hturn) as (_ & _ & _ & _ & _ & _ &
        _ & _ & _ & _ & Hev').
      rewrite Hev', Hev, flat_map_app. cbn [flat_map].
      by rewrite app_nil_r, <- app_assoc.
    - by eapply effect_step. }
  specialize (H ltac:(split; [by rewrite app_nil_r|apply effect_start]) Hstep).
  destruct r as [[]|e|].
  - destruct H as [Hev Heff]. exists cs, []. rewrite !app_nil_r.
    split; [done|]. split; [done|]. split; [by left|]. done.
  - destruct H as (done & x & rest & s1 & Hcs & [Hev Heff] & Hturn).
    exists done, (x :: rest). split; [done|]. split; [done|].
    destruct (turn_effect final x s1 _ _ Hturn) as (_ & _ & _ & _ & _ & _ &
      _ & _ & _ & Hwhy & Hev').
    split; [right; exists e, x, rest; by auto|]. split; [done|]. split.
    + cbn. by rewrite Hev', Hev, <- app_assoc.
    + by eapply effect_fail.
  - destruct H as (done & x & rest & s1 & _ & _ & Hturn).
    by destruct (turn_effect final x s1 _ _ Hturn) as ([|[? ?]] & _).
Qed.

(** A failed upload has written nothing. *)
Lemma upload_failed_quiet target c e c' :
  upload_empty env target c = (Raise e, c') -> quiet [] c c'.
Proof.
  unfold upload_empty.
  destruct (pause_spec env 0 c) as (c1 & Hp & _ & _ & Hq). rewrite Hp.
  cbn [snd]. destruct (upload_fails env); [|done]. by intros [= _ <-].
Qed.

End MoreTurns.

(** [compose], by its effect on the outside world: a failed upload and
    nothing else, or the upload, the turns completed on the chunks [done],
    and a failed compose call if [rest] is not empty. *)
Lemma compose_effect env fuel dest (w : World) slices l :
  heap w !! slices = Some l -> (length l < fuel)%nat ->
  exists r w',
    SingleAccumulator.compose env fuel dest slices w = (r, w') /\
    preserves (heap w) (heap w') /\
    ((upload_fails env = true /\ r = Raise UploadFailed /\
      events (trace (cloud w'))
      = events (trace (cloud w)) ++ [Upload dest false] /\
      quiet [] (cloud w) (cloud w'))
     \/ (upload_fails env = false /\
         exists c0 r0 done rest,
           upload_empty env dest (cloud w) = (Ok tt, c0) /\
           started dest (cloud w) c0 /\
           r = returning dest r0 /\
           chunks l default_chunk_size = done ++ rest /\
           (r0 = Ok tt \/
            exists e x rest', r0 = Raise e /\ rest = x :: rest' /\
                              compose_failure env dest x e (cloud w')) /\
           (r0 = Ok tt -> rest = []) /\
           events (trace (cloud w'))
           = events (trace (cloud w))
               ++ Upload dest true
               :: flat_map (turn_events dest) done
               ++ attempt dest (stopped_at r0 rest) /\
           effect dest c0 done (cloud w'))).
Proof.
  intros Hl Hfuel.
  destruct (compose_run env fuel dest w slices l)
    as (r & w' & Hrun & Hcloud & Hp); [done..|].
  exists r, w'. split; [done|]. split; [done|].
  unfold run in Hcloud.
  destruct (upload_empty_spec env dest (cloud w))
    as [(Hf & c' & Hup & Hev & _)|(Hf & c0 & Hup & Hst)].
  { left. erewrite bind_Raise in Hcloud by done.
    injection Hcloud as <- <-. do 3 (split; [done|]).
    by eapply upload_failed_quiet. }
  right. split; [done|]. erewrite bind_Ok in Hcloud by done.
  destruct (turns_effect env dest (chunks l default_chunk_size) c0)
    as (r0 & c' & done & rest & Hloop & Hcs & Hr0 & Hrest & Hev & Heff).
  exists c0, r0, done, rest. split; [done|]. split; [done|].
  assert (r = returning dest r0 /\ cloud w' = c') as [-> ->].
  { destruct r0 as [[]|e|].
    - erewrite bind_Ok in Hcloud by done. by injection Hcloud.
    - erewrite bind_Raise in Hcloud by done. by injection Hcloud.
    - erewrite bind_OutOfFuel in Hcloud by done. by injection Hcloud. }
  do 4 (split; [done|]). split; [|done].
  destruct Hst as (Hev0 & _). by rewrite Hev, Hev0, <- app_assoc.
Qed.

(** The chunks of a non-empty list. *)
Lemma chunks_default_bounded (l : list Blob) x :
  x ∈ chunks l default_chunk_size ->
  x <> [] /\ (length x <= provider_limit)%nat.
Proof.
  intros Hx. pose proof (chunks_bounded l default_chunk_size eq_refl) as Hall.
  rewrite Forall_forall in Hall. specialize (Hall x Hx).
  unfold default_chunk_size, provider_limit in *.
  split; [intros ->; cbn in Hall|]; lia.
Qed.

(** X7. A run of [compose] takes at least a second for every compose call
    that succeeded and 5 ms for every deletion that it submitted; so a run
    that returns has taken at least ceil(N/31) seconds and 5 N
    milliseconds, for N slices. *)
Theorem compose_duration env (w : World) slices l dest fuel :
  heap w !! slices = Some l -> (length l < fuel)%nat ->
  exists r w' evs,
    SingleAccumulator.compose env fuel dest slices w = (r, w') /\
    events (trace (cloud w')) = events (trace (cloud w)) ++ evs /\
    (clock (cloud w) + 1000 * N.of_nat (length (composed evs))
     + 5 * N.of_nat (length (submitted evs)) <= clock (cloud w'))%N /\
    (forall b, r = Ok b ->
       Z.of_N (clock (cloud w))
       + 1000 * ceil_div (length l) default_chunk_size
       + 5 * Z.of_nat (length l) <= Z.of_N (clock (cloud w'))).
Proof.
  intros Hl Hfuel.
  destruct (compose_effect env fuel dest w slices l)
    as (r & w' & Hrun & _ & Hcases); [done..|].
  destruct Hcases as [(_ & -> & Hev & Hq)|
    (_ & c0 & r0 & done & rest & _ & Hst & -> & Hcs & _ & Hrest & Hev & Heff)];
    eexists _, w', _; (split; [exact Hrun|]); (split; [exact Hev|]).
  - destruct Hq as (Hck & _). cbn. split; [lia|done].
  - rewrite submitted_upload, submitted_outcome.
    change (composed (Upload dest true :: ?es)) with (composed es).
    rewrite composed_outcome, length_map.
    destruct Hst as (_ & _ & _ & Hck0 & _). destruct Heff as (Hck & _).
    split; [lia|]. intros b Hb. destruct r0 as [[]|e|]; try done.
    rewrite (Hrest eq_refl), app_nil_r in Hcs. subst done.
    rewrite concat_chunks in Hck by done.
    rewrite <- chunks_length by done. lia.
Qed.

(** X8. [compose] does not wait for the deletions that it has submitted:
    when it ends, every slice whose deletion it has submitted, the
    destination apart, is either out of the bucket or still has its
    deletion pending in the executor; after a run that returns this is so
    for every slice of the list. *)
Theorem slices_deleted_or_pending env (w : World) slices l dest fuel :
  heap w !! slices = Some l -> (length l < fuel)%nat ->
  exists r w' evs,
    SingleAccumulator.compose env fuel dest slices w = (r, w') /\
    events (trace (cloud w')) = events (trace (cloud w)) ++ evs /\
    (forall s, s ∈ submitted evs -> s <> dest ->
       bucket (cloud w') !! s = None \/ s ∈ pool (cloud w')) /\
    (forall b, r = Ok b ->
       forall s, s ∈ l -> s <> dest ->
         bucket (cloud w') !! s = None \/ s ∈ pool (cloud w')).
Proof.
  intros Hl Hfuel.
  destruct (compose_effect env fuel dest w slices l)
    as (r & w' & Hrun & _ & Hcases); [done..|].
  destruct Hcases as [(_ & -> & Hev & Hq)|
    (_ & c0 & r0 & done & rest & _ & Hst & -> & Hcs & _ & Hrest & Hev & Heff)];
    eexists _, w', _; (split; [exact Hrun|]); (split; [exact Hev|]).
  - cbn. split; [|done]. intros s Hs. by apply elem_of_nil in Hs.
  - rewrite submitted_upload, submitted_outcome.
    destruct Heff as (_ & _ & _ & _ & _ & Hdone).
    split; [intros s Hs Hne; by apply Hdone|].
    intros b Hb s Hs Hne. destruct r0 as [[]|e|]; try done.
    rewrite (Hrest eq_refl), app_nil_r in Hcs. subst done.
    rewrite concat_chunks in Hdone by done. by apply Hdone.
Qed.

(** X9. [compose] touches nothing but the destination and the slices
    whose deletion it submits, all of which are slices of its list: whether
    it returns or raises, no object other than the destination is created or
    changed; an object other than the destination that had no deletion
    pending and whose deletion the run has not submitted is as before; and
    the deletions pending at the end are among those pending before and
    those submitted. *)
Theorem compose_touches_only env (w : World) slices l dest fuel :
  heap w !! slices = Some l -> (length l < fuel)%nat ->
  exists r w' evs,
    SingleAccumulator.compose env fuel dest slices w = (r, w') /\
    events (trace (cloud w')) = events (trace (cloud w)) ++ evs /\
    (forall s, s ∈ submitted evs -> s ∈ l) /\
    (forall b v, b <> dest ->
       bucket (cloud w') !! b = Some v -> bucket (cloud w) !! b = Some v) /\
    (forall b, b <> dest -> b ∉ pool (cloud w) -> b ∉ submitted evs ->
       bucket (cloud w') !! b = bucket (cloud w) !! b) /\
    (forall b, b ∈ pool (cloud w') ->
       b ∈ pool (cloud w) \/ b ∈ submitted evs).
Proof.
  intros Hl Hfuel.
  destruct (compose_effect env fuel dest w slices l)
    as (r & w' & Hrun & _ & Hcases); [done..|].
  destruct Hcases as [(_ & -> & Hev & Hq)|
    (_ & c0 & r0 & done & rest & _ & Hst & -> & Hcs & _ & Hrest & Hev & Heff)];
    eexists _, w', _; (split; [exact Hrun|]); (split; [exact Hev|]).
  - destruct Hq as (_ & Hsub & Hkeep & Hpool). cbn.
    split; [intros s Hs; by apply elem_of_nil in Hs|].
    split; [auto|]. split; [auto|].
    intros b Hb. destruct (Hpool _ Hb); auto.
  - rewrite submitted_upload, submitted_outcome.
    destruct Hst as (_ & _ & _ & _ & Hp0 & Hsub0 & Hkeep0).
    destruct Heff as (_ & Hsub & Hkeep & Hpool & _).
    split.
    { intros s Hs. rewrite <- (concat_chunks l default_chunk_size) by done.
      rewrite Hcs, concat_app, elem_of_app. by left. }
    split; [by eauto|]. split.
    { intros b Hne Hb Hs. rewrite Hkeep; [by apply Hkeep0|done| |done].
      intros Hin. by apply Hb, Hp0. }
    intros b Hb. destruct (Hpool _ Hb); auto.
Qed.

(** X10. [compose] cannot skip a slice that is not stored: when a slice
    of the list, other than the destination, is not in the bucket, the run
    raises, and the slice is still not in the bucket at the end; unless the
    upload or the gateway fails before, the error is that of the compose
    call that finds a source missing. *)
Theorem missing_slice_raises env (w : World) slices l dest fuel s :
  heap w !! slices = Some l -> (length l < fuel)%nat ->
  s ∈ l -> s <> dest -> bucket (cloud w) !! s = None ->
  exists e w',
    SingleAccumulator.compose env fuel dest slices w = (Raise e, w') /\
    bucket (cloud w') !! s = None /\
    (upload_fails env = false -> (forall n, compose_fails env n = false) ->
     e = NotFound).
Proof.
  intros Hl Hfuel Hs Hne Hnone.
  destruct (compose_effect env fuel dest w slices l)
    as (r & w' & Hrun & _ & Hcases); [done..|].
  destruct Hcases as [(Hf & -> & Hev & Hq)|
    (_ & c0 & r0 & done & rest & _ & Hst & -> & Hcs & Hr0 & Hrest & Hev &
     Heff)].
  - exists UploadFailed, w'. split; [done|]. split; [|congruence].
    destruct Hq as (_ & Hsub & _).
    destruct (bucket (cloud w') !! s) as [v|] eqn:Hv; [|done].
    apply Hsub in Hv. congruence.
  - destruct Hst as (_ & _ & _ & _ & _ & Hsub0 & _).
    destruct Heff as (_ & Hsub & _ & _ & _ & Hdone).
    assert (bucket (cloud w') !! s = None) as Hgone.
    { destruct (bucket (cloud w') !! s) as [v|] eqn:Hv; [|done].
      apply Hsub, Hsub0 in Hv; [congruence|done..]. }
    destruct Hr0 as [->|(e & x & rest' & -> & -> & Hwhy)].
    { exfalso. rewrite (Hrest eq_refl), app_nil_r in Hcs. subst done.
      rewrite concat_chunks in Hdone by done.
      destruct (Hdone s Hs Hne) as [_ [v Hv]].
      apply Hsub0 in Hv; [congruence|done]. }
    exists e, w'. split; [done|]. split; [done|]. intros _ Hgw.
    destruct Hwhy as [[-> Hlen]|[[-> [n Hn]]|[-> _]]]; [|congruence|done].
    exfalso. destruct (chunks_default_bounded l x) as [_ Hle]; [|lia].
    rewrite Hcs, elem_of_app. right. by left.
Qed.

(** X11. When the upload of the empty accumulator fails, [compose] raises
    at once, in either source file: the slice list is not read, no compose
    call is made, no deletion is submitted, and nothing is written: the
    destination is not created, and apart from the pending deletions that
    the executor runs meanwhile the bucket is as before. *)
Theorem upload_failure_aborts env (w : World) slices dest fuel :
  upload_fails env = true ->
  exists w',
    SingleAccumulator.compose env fuel dest slices w
    = (Raise UploadFailed, w') /\
    ListFiles.compose env fuel dest slices w = (Raise UploadFailed, w') /\
    heap w' = heap w /\
    events (trace (cloud w'))
    = events (trace (cloud w)) ++ [Upload dest false] /\
    (forall b v, bucket (cloud w') !! b = Some v ->
       bucket (cloud w) !! b = Some v) /\
    (forall b, b ∉ pool (cloud w) ->
       bucket (cloud w') !! b = bucket (cloud w) !! b).
Proof.
  intros Hf.
  destruct (upload_empty_spec env dest (cloud w))
    as [(_ & c' & Hup & Hev & _)|(Hf' & _)]; [|congruence].
  exists {| heap := heap w; cloud := c' |}.
  unfold SingleAccumulator.compose, ListFiles.compose.
  split; [erewrite bind_Raise; [done|]; by rewrite lift_eq, Hup|].
  split; [erewrite bind_Raise; [done|]; by rewrite lift_eq, Hup|].
  split; [done|]. cbn [cloud]. split; [done|].
  destruct (upload_failed_quiet env dest _ _ _ Hup) as (_ & Hsub & Hkeep & _).
  split; [done|]. intros b Hb. apply Hkeep; [done|apply not_elem_of_nil].
Qed.

(** X12. [compose] cannot be run again once its cleanup is over: after a
    run on a non-empty slice list of which the destination is not a member,
    that returned, and whose deletions the executor has all run, a second
    run on the same list and destination, if its upload succeeds, uploads
    an empty accumulator over the composed object and then makes a single
    compose call, which fails, so that it raises an error of the compose
    call and leaves the destination empty. *)
Theorem compose_twice_loses_result env1 env2 (w : World) slices l dest fuel
    b w1 :
  heap w !! slices = Some l -> (length l < fuel)%nat ->
  l <> [] -> dest ∉ l ->
  SingleAccumulator.compose env1 fuel dest slices w = (Ok b, w1) ->
  pool (cloud w1) = [] ->
  upload_fails env2 = false ->
  exists e w2 evs,
    SingleAccumulator.compose env2 fuel dest slices w1 = (Raise e, w2) /\
    compose_error e /\
    events (trace (cloud w2)) = events (trace (cloud w1)) ++ evs /\
    (exists c, compose_calls evs = [(dest, dest :: c, false)]) /\
    bucket (cloud w2) !! dest = Some [].
Proof.
  intros Hl Hfuel Hne Hdest Hrun1 Hidle Hup2.
  (* after the first run the slices are gone *)
  assert (heap w1 !! slices = Some l /\
          forall s, s ∈ l -> bucket (cloud w1) !! s = None) as [Hl1 Hgone].
  { destruct (compose_effect env1 fuel dest w slices l)
      as (r & w' & Hrun & Hp & Hcases); [done..|].
    destruct Hcases as [(_ & -> & _)|
      (_ & c0 & r0 & done & rest & _ & Hst & -> & Hcs & _ & Hrest & _ &
       Heff)]; rewrite Hrun1 in Hrun; try discriminate.
    destruct r0 as [[]|e|]; try done. injection Hrun as _ <-.
    split; [by apply Hp|].
    rewrite (Hrest eq_refl), app_nil_r in Hcs. subst done.
    destruct Heff as (_ & _ & _ & _ & _ & Hdone).
    rewrite concat_chunks in Hdone by done.
    intros s Hs. destruct (Hdone s Hs) as [[Hnone|Hin] _]; [by intros ->|done|].
    rewrite Hidle in Hin. by apply elem_of_nil in Hin. }
  destruct (compose_events env2 fuel dest w1 slices l)
    as (r & w2 & Hrun & Hcases); [done..|].
  destruct Hcases as [(-> & Hev)|
    (done & rest & r0 & c0 & c1 & Hcs & -> & Hst & Hreach & Hev & Hr)].
  { (* the upload does not fail *)
    exfalso.
    destruct (compose_effect env2 fuel dest w1 slices l)
      as (r & w' & Hrun' & _ & Hcases); [done..|].
    destruct Hcases as [(Hf & _)|(_ & c0 & r0 & dn & rest & _ & _ & -> & _ &
      _ & _ & Hev' & _)]; [congruence|].
    rewrite Hrun in Hrun'. injection Hrun' as _ <-.
    rewrite Hev in Hev'. by apply app_inv_head in Hev'. }
  destruct Hst as (_ & _ & Hacc & _ & Hp0 & Hsub0 & _).
  destruct Hreach as (_ & _ & _ & Hbk).
  destruct (Hbk) with (acc := @nil byte) as (x & Hx & Hfinal & Hp1 & _).
  { by rewrite concat_chunks. }
  { intros Hin. apply Hp0 in Hin. rewrite Hidle in Hin.
    by apply elem_of_nil in Hin. }
  { done. }
  assert (done = []) as ->.
  { destruct done as [|d done]; [done|]. exfalso.
    destruct (chunks_default_bounded l d) as [Hd _].
    { rewrite Hcs. by left. }
    destruct d as [|s d]; [done|].
    assert (is_Some (bucket c0 !! s)) as [v Hv].
    { eapply read_all_is_Some; [by eexists|]. cbn. by left. }
    assert (s ∈ l) as Hs.
    { rewrite <- (concat_chunks l default_chunk_size) by done.
      rewrite Hcs. cbn. by left. }
    apply Hsub0 in Hv; [|by intros ->]. rewrite Hgone in Hv by done. done. }
  cbn in Hx. injection Hx as <-. cbn [app] in Hcs, Hev, Hfinal.
  destruct r0 as [[]|e|]; [| |done].
  { exfalso. destruct Hr as [-> _]. apply Hne.
    rewrite <- (concat_chunks l default_chunk_size) by done. by rewrite Hcs. }
  destruct Hr as (c & rest' & -> & He & _ & Hb).
  exists e, w2. eexists. split; [done|]. split; [done|].
  split; [exact Hev|]. split; [by exists c|]. by rewrite Hb.
Qed.

(** ** The pace of the deletions over a whole run *)

Lemma spaced_app d ts1 ts2 :
  spaced d ts1 -> spaced d ts2 ->
  (forall t1 t2, t1 ∈ ts1 -> t2 ∈ ts2 -> (t1 + d <= t2)%N) ->
  spaced d (ts1 ++ ts2).
Proof.
  intros H1 H2 H12 i t1 t2 Hi HSi.
  destruct (decide (S i < length ts1)%nat) as [Hlt|Hge].
  - rewrite lookup_app_l in Hi, HSi by lia. by eapply H1.
  - rewrite lookup_app_r in HSi by lia.
    destruct (decide (i < length ts1)%nat) as [Hlt|Hge'].
    + rewrite lookup_app_l in Hi by lia.
      apply H12; by eapply list_elem_of_lookup_2.
    + rewrite lookup_app_r in Hi by lia.
      apply (H2 (i - length ts1)%nat); [done|].
      rewrite <- HSi. f_equal. lia.
Qed.

Lemma submit_times_log t e c :
  submit_times (trace (log t e c))
  = submit_times (trace c)
      ++ (if e is Submit _ then [t] else []).
Proof. unfold submit_times. cbn. rewrite omap_app. by destruct e. Qed.

Section Pace.
Variable env : Oracle.

(** The deletions that a turn submits: none when its compose call fails, or
    those of its chunk, 5 ms apart, between its start and 5 ms before its
    end. *)
Lemma turn_paced final c cl r cl' :
  turn env final c cl = (r, cl') ->
  exists ts,
    submit_times (trace cl') = submit_times (trace cl) ++ ts /\
    spaced 5 ts /\
    Forall (fun t => (clock cl <= t)%N /\ (t + 5 <= clock cl')%N) ts /\
    (clock cl <= clock cl')%N /\
    length ts = (if r is Ok _ then length c else 0%nat).
Proof.
  destruct (turn_cases env final c cl) as (cl1 & Hp & Ht & Hq &
    [(e & Hturn & _)|(content & cl3 & cl4 & _ & Hd & Hs & Hturn)]);
    rewrite Hturn; intros [= <- <-]; destruct Hq as (Hck1 & _).
  - exists []. rewrite submit_times_log, Ht, app_nil_r.
    split; [done|]. split; [apply spaced_nil|]. split; [constructor|].
    split; done.
  - revert Hd. unfold dispatch. erewrite bind_Ok by (by apply emit_spec).
    intros Hd.
    destruct (dispatch_loop_paced env c _ _ Hd) as (ts & Hts & Hlen & Hsp & Hall).
    destruct (pause_spec env 1000 cl3) as (cl4' & Hs' & Ht4 & Hck4 & _).
    rewrite Hs in Hs'. injection Hs' as <-.
    destruct (dispatch_loop_effect env c _ _ Hd) as (Hck3 & _).
    cbn [log set_bucket clock] in Hall, Hck3.
    exists ts. rewrite Ht4, Hts, !submit_times_log. cbn [set_bucket trace].
    rewrite Ht, !app_nil_r. split; [done|]. split; [done|]. split.
    + eapply Forall_impl; [done|]. intros t [Ht1 Ht2]. cbn in Ht1, Ht2. lia.
    + split; [lia|done].
Qed.

(** The deletions that the loop submits are 5 ms apart. *)
Lemma turns_paced final cs c0 :
  exists r c' ts,
    for_each cs (turn env final) c0 = (r, c') /\
    submit_times (trace c') = submit_times (trace c0) ++ ts /\
    spaced 5 ts /\
    Forall (fun t => (clock c0 <= t)%N /\ (t + 5 <= clock c')%N) ts /\
    (clock c0 <= clock c')%N /\
    (r = Ok tt -> length ts = length (concat cs)).
Proof.
  set (P := fun (done : list (list Blob)) (c : Cloud) =>
         exists ts,
           submit_times (trace c) = submit_times (trace c0) ++ ts /\
           spaced 5 ts /\
           Forall (fun t => (clock c0 <= t)%N /\ (t + 5 <= clock c)%N) ts /\
           (clock c0 <= clock c)%N /\
           length ts = length (concat done)).
  assert (Hext : forall done x s1 r s2,
            P done s1 -> turn env final x s1 = (r, s2) ->
            exists ts,
              submit_times (trace s2) = submit_times (trace c0) ++ ts /\
              spaced 5 ts /\
              Forall (fun t => (clock c0 <= t)%N /\ (t + 5 <= clock s2)%N) ts /\
              (clock c0 <= clock s2)%N /\
              length ts
              = (length (concat done)
                 + (if r is Ok _ then length x else 0))%nat).
  { intros done x s1 r s2 (ts & Hts & Hsp & Hall & Hck & Hlen) Hturn.
    destruct (turn_paced final x s1 r s2 Hturn)
      as (ts' & Hts' & Hsp' & Hall' & Hck' & Hlen').
    exists (ts ++ ts'). rewrite Hts', Hts, <- app_assoc. split; [done|].
    rewrite Forall_forall in Hall, Hall'. split.
    { apply spaced_app; [done..|]. intros t1 t2 H1 H2.
      specialize (Hall _ H1). specialize (Hall' _ H2). cbn in Hall, Hall'.
      lia. }
    split.
    { apply Forall_app. split; apply Forall_forall; intros t Hin.
      - specialize (Hall _ Hin). cbn in Hall. lia.
      - specialize (Hall' _ Hin). cbn in Hall'. lia. }
    split; [lia|]. by rewrite length_app, Hlen, Hlen'. }
  pose proof (for_each_inv (turn env final) P cs c0) as H.
  destruct (for_each cs (turn env final) c0) as [r c'] eqn:Hrun.
  exists r, c'.
  assert (H0 : P [] c0).
  { exists []. rewrite app_nil_r. split; [done|]. split; [apply spaced_nil|].
    split; [constructor|]. split; [lia|done]. }
  assert (Hstep : forall done x rest s1 s2,
            cs = done ++ x :: rest ->
            P done s1 -> turn env final x s1 = (Ok tt, s2) ->
            P (done ++ [x]) s2).
  { intros done x rest s1 s2 _ HP Hturn.
    destruct (Hext done x s1 _ s2 HP Hturn) as (ts & ? & ? & ? & ? & Hlen).
    exists ts. do 4 (split; [done|]).
    rewrite concat_app, length_app. cbn. by rewrite app_nil_r. }
  specialize (H H0 Hstep).
  destruct r as [[]|e|].
  - destruct H as (ts & ? & ? & ? & ? & ?). exists ts. by auto 10.
  - destruct H as (done & x & rest & s1 & _ & HP & Hturn).
    destruct (Hext done x s1 _ c' HP Hturn) as (ts & ? & ? & ? & ? & _).
    exists ts. do 4 (split; [done|]). done.
  - destruct H as (done & x & rest & s1 & _ & HP & Hturn).
    destruct (Hext done x s1 _ c' HP Hturn) as (ts & ? & ? & ? & ? & _).
    exists ts. do 4 (split; [done|]). done.
Qed.

(** The upload submits no deletion. *)
Lemma upload_submit_times target c r c0 :
  upload_empty env target c = (r, c0) ->
  submit_times (trace c0) = submit_times (trace c).
Proof.
  unfold upload_empty.
  destruct (pause_spec env 0 c) as (c1 & Hp & Ht & _). rewrite Hp. cbn [snd].
  destruct (upload_fails env); intros [= _ <-];
    rewrite submit_times_log; cbn [set_bucket trace];
    by rewrite Ht, app_nil_r.
Qed.

End Pace.

(** X13. Over a whole run of [compose] the deletions are handed to the
    executor one by one, never two of them less than 5 ms apart, whatever
    the chunks they belong to and whatever the latencies: the executor is
    given at most 200 deletions a second; a run that returns has submitted
    one deletion for every slice of the list. *)
Theorem compose_deletions_paced env (w : World) slices l dest fuel :
  heap w !! slices = Some l -> (length l < fuel)%nat ->
  exists r w' ts,
    SingleAccumulator.compose env fuel dest slices w = (r, w') /\
    submit_times (trace (cloud w'))
    = submit_times (trace (cloud w)) ++ ts /\
    spaced 5 ts /\
    (forall b, r = Ok b -> length ts = length l).
Proof.
  intros Hl Hfuel.
  destruct (compose_run env fuel dest w slices l)
    as (r & w' & Hrun & Hcloud & _); [done..|].
  exists r, w'. unfold run in Hcloud.
  destruct (upload_empty env dest (cloud w)) as [[[]|e|] c0] eqn:Hup.
  2:{ erewrite bind_Raise in Hcloud by done. injection Hcloud as <- <-.
      exists []. split; [done|].
      rewrite (upload_submit_times env _ _ _ _ Hup), app_nil_r.
      split; [done|]. split; [apply spaced_nil|done]. }
  2:{ erewrite bind_OutOfFuel in Hcloud by done. injection Hcloud as <- <-.
      exists []. split; [done|].
      rewrite (upload_submit_times env _ _ _ _ Hup), app_nil_r.
      split; [done|]. split; [apply spaced_nil|done]. }
  erewrite bind_Ok in Hcloud by done.
  destruct (turns_paced env dest (chunks l default_chunk_size) c0)
    as (r0 & c' & ts & Hloop & Hts & Hsp & _ & _ & Hlen).
  assert (r = returning dest r0 /\ cloud w' = c') as [-> ->].
  { destruct r0 as [[]|e|].
    - erewrite bind_Ok in Hcloud by done. by injection Hcloud.
    - erewrite bind_Raise in Hcloud by done. by injection Hcloud.
    - erewrite bind_OutOfFuel in Hcloud by done. by injection Hcloud. }
  exists ts. split; [done|].
  rewrite Hts, (upload_submit_times env _ _ _ _ Hup).
  split; [done|]. split; [done|].
  intros b Hb. destruct r0 as [[]|e|]; try done.
  by rewrite Hlen, concat_chunks.
Qed.

(** * Further properties of [compose] of [src/list-files.py] *)

Section MoreKeep.
Variable env : Oracle.

(** What a turn without cleanup does when no deletion is pending. *)
Lemma turn_keep_effect final c cl r cl' :
  pool cl = [] ->
  turn_keep env final c cl = (r, cl') ->
  pool cl' = [] /\
  (clock cl <= clock cl')%N /\
  (forall b, b <> final -> bucket cl' !! b = bucket cl !! b) /\
  ((r = Ok tt /\ (clock cl + 1000 <= clock cl')%N /\
    events (trace cl')
    = events (trace cl) ++ [Compose final (final :: c) true] /\
    exists content,
      read_all (bucket cl) (final :: c) = Some content /\
      bucket cl' !! final = Some content)
   \/ (exists e, r = Raise e /\ compose_failure env final c e cl' /\
       events (trace cl')
       = events (trace cl) ++ [Compose final (final :: c) false] /\
       bucket cl' !! final = bucket cl !! final)).
Proof.
  intros Hidle.
  destruct (gw_compose_spec env final (final :: c) cl)
    as (cl1 & Hp & Ht & Hq & Hcases).
  destruct (quiet_idle _ _ Hidle Hq) as (Hsame & Hidle1).
  destruct Hq as (Hck1 & _).
  unfold turn_keep.
  destruct Hcases as [[Hg Hlen]|[(Hg & _ & Hf)|[(Hg & _ & _ & Hr)|
    (content & Hg & _ & _ & Hr)]]].
  1-3: erewrite bind_Raise by done; intros [= <- <-];
       cbn [log bucket pool clock]; (split; [done|]); (split; [done|]);
       (split; [by auto|]); right; eexists; (split; [done|]);
       rewrite events_log, Ht; (split; [|by auto]).
  - left. split; [done|]. unfold provider_limit in *. cbn in Hlen. lia.
  - right; left. split; [done|]. by eexists.
  - right; right. split; [done|]. by apply read_all_None.
  - set (cl2 := log _ _ _) in Hg. erewrite bind_Ok by done.
    destruct (pause_spec env 1000 cl2) as (cl3 & Hs & Ht3 & Hck3 & Hq3).
    unfold sleep. rewrite Hs. intros [= <- <-].
    destruct (quiet_idle cl2 cl3 Hidle1 Hq3) as (Hsame3 & Hidle3).
    cbn [cl2 log set_bucket clock bucket] in Hck3, Hsame3.
    split; [done|]. split; [lia|]. split.
    { intros b Hne. by rewrite Hsame3, lookup_insert_ne. }
    left. split; [done|]. split; [lia|]. split.
    { rewrite Ht3. subst cl2. rewrite events_log. cbn [set_bucket trace].
      by rewrite Ht. }
    exists content. split.
    + rewrite <- Hr. apply read_all_ext. intros b _. by rewrite Hsame.
    + by rewrite Hsame3, lookup_insert_eq.
Qed.

Lemma kept_start final c0 : pool c0 = [] -> kept final c0 [] c0.
Proof.
  intros Hidle. unfold kept. cbn. split; [done|]. split; [lia|].
  split; [done|]. intros _ acc Hacc. exists []. by rewrite app_nil_r.
Qed.

Lemma kept_step final c0 done x c1 c2 :
  kept final c0 done c1 ->
  turn_keep env final x c1 = (Ok tt, c2) ->
  kept final c0 (done ++ [x]) c2.
Proof.
  intros (Hidle & Hck & Hsame & Hacc) Hturn.
  destruct (turn_keep_effect final x c1 _ _ Hidle Hturn)
    as (Hidle' & _ & Hsame' & [(_ & Hck' & _ & content & Hread & Hfin)|
          (e & [=] & _)]).
  unfold kept. rewrite concat_app, length_app. cbn [concat length].
  rewrite app_nil_r. split; [done|]. split; [lia|]. split.
  { intros b Hne. by rewrite Hsame', Hsame. }
  intros Hn acc Hc0. apply not_elem_of_app in Hn as [Hd Hx].
  destruct (Hacc Hd acc Hc0) as (y & Hy & Hb1).
  rewrite read_all_cons, Hb1 in Hread.
  destruct (read_all (bucket c1) x) as [z|] eqn:Hz; [|done].
  injection Hread as <-. exists (y ++ z). split.
  - apply read_all_app; [done|]. rewrite <- Hz. apply read_all_ext.
    intros b Hb. symmetry. apply Hsame. by intros ->.
  - by rewrite Hfin, app_assoc.
Qed.

Lemma kept_fail final c0 done x c1 e c2 :
  kept final c0 done c1 ->
  turn_keep env final x c1 = (Raise e, c2) ->
  kept final c0 done c2.
Proof.
  intros (Hidle & Hck & Hsame & Hacc) Hturn.
  destruct (turn_keep_effect final x c1 _ _ Hidle Hturn)
    as (Hidle' & Hck' & Hsame' & [([=] & _)|(e' & _ & _ & _ & Hfin)]).
  unfold kept. split; [done|]. split; [lia|]. split.
  { intros b Hne. by rewrite Hsame', Hsame. }
  intros Hn acc Hc0. rewrite Hfin. by apply Hacc.
Qed.

(** The loop without cleanup over the chunks [cs] from the state [c0], in
    which no deletion is pending. *)
Lemma turns_keep_effect final cs c0 :
  pool c0 = [] ->
  exists r c' done rest,
    for_each cs (turn_keep env final) c0 = (r, c') /\
    cs = done ++ rest /\
    (r = Ok tt \/
     exists e x rest', r = Raise e /\ rest = x :: rest' /\
                       compose_failure env final x e c') /\
    (r = Ok tt -> rest = []) /\
    events (trace c')
    = events (trace c0) ++ keep_events final done
        ++ attempt final (stopped_at r rest) /\
    kept final c0 done c'.
Proof.
  intros Hidle.
  pose proof (for_each_inv (turn_keep env final)
                (fun done c =>
                   events (trace c)
                   = events (trace c0) ++ keep_events final done /\
                   kept final c0 done c) cs c0) as H.
  destruct (for_each cs (turn_keep env final) c0) as [r c'] eqn:Hrun.
  exists r, c'.
  assert (Hstep : forall done x rest s1 s2,
            cs = done ++ x :: rest ->
            events (trace s1)
            = events (trace c0) ++ keep_events final done /\
            kept final c0 done s1 ->
            turn_keep env final x s1 = (Ok tt, s2) ->
            events (trace s2)
            = events (trace c0) ++ keep_events final (done ++ [x]) /\
            kept final c0 (done ++ [x]) s2).
  { intros done x rest s1 s2 _ [Hev Hk] Hturn. split; [|by eapply kept_step].
    destruct (turn_keep_effect final x s1 _ _ (proj1 Hk) Hturn)
      as (_ & _ & _ & [(_ & _ & Hev' & _)|(e & [=] & _)]).
    unfold keep_events. rewrite Hev', Hev, map_app. cbn [map].
    by rewrite <- app_assoc. }
  specialize (H ltac:(split; [by rewrite app_nil_r|by apply kept_start]) Hstep).
  destruct r as [[]|e|].
  - destruct H as [Hev Hk]. exists cs, []. rewrite !app_nil_r.
    split; [done|]. split; [done|]. split; [by left|]. done.
  - destruct H as (done & x & rest & s1 & Hcs & [Hev Hk] & Hturn).
    exists done, (x :: rest). split; [done|]. split; [done|].
    destruct (turn_keep_effect final x s1 _ _ (proj1 Hk) Hturn)
      as (_ & _ & _ & [([=] & _)|(e' & [= <-] & Hwhy & Hev' & _)]).
    split; [right; exists e, x, rest; by auto|]. split; [done|]. split.
    + cbn. by rewrite Hev', Hev, <- app_assoc.
    + by eapply kept_fail.
  - destruct H as (done & x & rest & s1 & _ & [_ Hk] & Hturn).
    by destruct (turn_keep_effect final x s1 _ _ (proj1 Hk) Hturn)
      as (_ & _ & _ & [([=] & _)|(e' & [=] & _)]).
Qed.

End MoreKeep.

Lemma composed_keep_events final done c :
  composed (keep_events final done ++ attempt final c) = map (cons final) done.
Proof.
  rewrite composed_app. replace (composed (attempt final c)) with (@nil (list Blob))
    by (by destruct c).
  rewrite app_nil_r. unfold keep_events.
  induction done as [|x done IH]; [done|]. cbn. by f_equal.
Qed.

Lemma submitted_keep_events final done c :
  submitted (keep_events final done ++ attempt final c) = [].
Proof.
  rewrite submitted_app. replace (submitted (attempt final c)) with (@nil Blob)
    by (by destruct c).
  rewrite app_nil_r. by induction done.
Qed.

(** [compose] of [src/list-files.py], by its effect on the outside world
    when no deletion is pending. *)
Lemma compose_keep_effect env fuel dest (w : World) slices l :
  heap w !! slices = Some l -> (length l < fuel)%nat ->
  pool (cloud w) = [] ->
  exists r w',
    ListFiles.compose env fuel dest slices w = (r, w') /\
    preserves (heap w) (heap w') /\
    ((upload_fails env = true /\ r = Raise UploadFailed /\
      events (trace (cloud w'))
      = events (trace (cloud w)) ++ [Upload dest false] /\
      quiet [] (cloud w) (cloud w'))
     \/ (upload_fails env = false /\
         exists c0 r0 done rest,
           started dest (cloud w) c0 /\
           r = returning dest r0 /\
           chunks l default_chunk_size = done ++ rest /\
           (r0 = Ok tt \/
            exists e x rest', r0 = Raise e /\ rest = x :: rest' /\
                              compose_failure env dest x e (cloud w')) /\
           (r0 = Ok tt -> rest = []) /\
           events (trace (cloud w'))
           = events (trace (cloud w))
               ++ Upload dest true
               :: keep_events dest done
               ++ attempt dest (stopped_at r0 rest) /\
           kept dest c0 done (cloud w'))).
Proof.
  intros Hl Hfuel Hidle.
  destruct (compose_keep_run env fuel dest w slices l)
    as (r & w' & Hrun & Hcloud & Hp); [done..|].
  exists r, w'. split; [done|]. split; [done|].
  unfold run_keep in Hcloud.
  destruct (upload_empty_spec env dest (cloud w))
    as [(Hf & c' & Hup & Hev & _)|(Hf & c0 & Hup & Hst)].
  { left. erewrite bind_Raise in Hcloud by done.
    injection Hcloud as <- <-. do 3 (split; [done|]).
    by eapply upload_failed_quiet. }
  right. split; [done|]. erewrite bind_Ok in Hcloud by done.
  assert (pool c0 = []) as Hidle0.
  { destruct Hst as (_ & _ & _ & _ & Hp0 & _).
    destruct (pool c0) as [|b p]; [done|].
    specialize (Hp0 b ltac:(by left)). rewrite Hidle in Hp0.
    by apply elem_of_nil in Hp0. }
  destruct (turns_keep_effect env dest (chunks l default_chunk_size) c0 Hidle0)
    as (r0 & c' & done & rest & Hloop & Hcs & Hr0 & Hrest & Hev & Hk).
  exists c0, r0, done, rest. split; [done|].
  assert (r = returning dest r0 /\ cloud w' = c') as [-> ->].
  { destruct r0 as [[]|e|].
    - erewrite bind_Ok in Hcloud by done. by injection Hcloud.
    - erewrite bind_Raise in Hcloud by done. by injection Hcloud.
    - erewrite bind_OutOfFuel in Hcloud by done. by injection Hcloud. }
  do 4 (split; [done|]). split; [|done].
  destruct Hst as (Hev0 & _). by rewrite Hev, Hev0, <- app_assoc.
Qed.

(** With a gateway that works, a destination that is not one of the slices
    and slices that are all stored, [compose] of [src/list-files.py]
    returns, and the bucket is as before but for the destination, which
    holds the content of the slices in the order of the list. *)
Lemma compose_keep_returns env fuel dest (w : World) slices l :
  heap w !! slices = Some l -> (length l < fuel)%nat ->
  pool (cloud w) = [] -> dest ∉ l ->
  upload_fails env = false -> (forall n, compose_fails env n = false) ->
  (forall s, s ∈ l -> is_Some (bucket (cloud w) !! s)) ->
  exists w' x evs,
    ListFiles.compose env fuel dest slices w = (Ok dest, w') /\
    preserves (heap w) (heap w') /\
    read_all (bucket (cloud w)) l = Some x /\
    bucket (cloud w') = <[dest := x]> (bucket (cloud w)) /\
    pool (cloud w') = [] /\
    events (trace (cloud w')) = events (trace (cloud w)) ++ evs /\
    composed evs = map (cons dest) (chunks l default_chunk_size) /\
    submitted evs = [].
Proof.
  intros Hl Hfuel Hidle Hdest Hup Hgw Hstored.
  destruct (compose_keep_effect env fuel dest w slices l)
    as (r & w' & Hrun & Hp & Hcases); [done..|].
  destruct Hcases as [(Hf & _)|
    (_ & c0 & r0 & done & rest & Hst & -> & Hcs & Hr0 & Hrest & Hev & Hk)];
    [congruence|].
  destruct Hst as (_ & _ & Hacc & _ & _ & _ & Hkeep0).
  assert (Hsame0 : forall b, b <> dest -> bucket c0 !! b = bucket (cloud w) !! b).
  { intros b Hne. apply Hkeep0; [done|]. rewrite Hidle. apply not_elem_of_nil. }
  destruct Hk as (Hidle' & _ & Hsame & Hcontent).
  assert (Hsub : forall s, s ∈ concat done -> s ∈ l).
  { intros s Hs. rewrite <- (concat_chunks l default_chunk_size) by done.
    rewrite Hcs, concat_app, elem_of_app. by left. }
  destruct Hr0 as [->|(e & x & rest' & -> & -> & Hwhy)].
  - rewrite (Hrest eq_refl), app_nil_r in Hcs. subst done.
    rewrite concat_chunks in Hcontent by done.
    destruct (Hcontent Hdest [] Hacc) as (x & Hx & Hfin).
    exists w', x. eexists. split; [done|]. split; [done|]. split.
    { rewrite <- Hx. apply read_all_ext. intros b Hb. symmetry.
      apply Hsame0. by intros ->. }
    split.
    { apply map_eq. intros b. destruct (decide (b = dest)) as [->|Hne].
      - by rewrite lookup_insert_eq.
      - by rewrite lookup_insert_ne, Hsame, Hsame0. }
    split; [done|]. split; [exact Hev|].
    change (composed (Upload dest true :: ?es)) with (composed es).
    by rewrite submitted_upload, composed_keep_events, submitted_keep_events.
  - exfalso.
    assert (x ∈ chunks l default_chunk_size) as Hx.
    { rewrite Hcs, elem_of_app. right. by left. }
    destruct Hwhy as [[_ Hlen]|[[_ [n Hn]]|[_ (b & Hb & Hnone)]]].
    + destruct (chunks_default_bounded l x Hx) as [_ Hle]. lia.
    + congruence.
    + assert (dest ∉ concat done) as Hd by (by intros Hin; apply Hdest, Hsub).
      destruct (Hcontent Hd [] Hacc) as (y & _ & Hfin).
      apply elem_of_cons in Hb as [->|Hb]; [congruence|].
      assert (b ∈ l) as Hbl.
      { rewrite <- (concat_chunks l default_chunk_size) by done.
        by eapply elem_of_concat_2. }
      destruct (Hstored b Hbl) as [v Hv].
      rewrite Hsame, Hsame0 in Hnone by (by intros ->). congruence.
Qed.

(** X14. [compose] of [src/list-files.py] deletes nothing: run with no
    deletion pending, whether it returns or raises, it submits no deletion,
    and every object but the destination is in the bucket as before; and a
    run takes at least a second for every compose call that succeeded. *)
Theorem compose_keeps_slices env (w : World) slices l dest fuel :
  heap w !! slices = Some l -> (length l < fuel)%nat ->
  pool (cloud w) = [] ->
  exists r w' evs,
    ListFiles.compose env fuel dest slices w = (r, w') /\
    events (trace (cloud w')) = events (trace (cloud w)) ++ evs /\
    submitted evs = [] /\
    pool (cloud w') = [] /\
    (forall b, b <> dest -> bucket (cloud w') !! b = bucket (cloud w) !! b) /\
    (clock (cloud w) + 1000 * N.of_nat (length (composed evs))
     <= clock (cloud w'))%N.
Proof.
  intros Hl Hfuel Hidle.
  destruct (compose_keep_effect env fuel dest w slices l)
    as (r & w' & Hrun & _ & Hcases); [done..|].
  destruct Hcases as [(_ & -> & Hev & Hq)|
    (_ & c0 & r0 & done & rest & Hst & -> & Hcs & _ & Hrest & Hev & Hk)];
    eexists _, w', _; (split; [exact Hrun|]); (split; [exact Hev|]).
  - destruct (quiet_idle _ _ Hidle Hq) as (Hsame & Hidle').
    destruct Hq as (Hck & _). cbn. do 2 (split; [done|]).
    split; [by auto|]. lia.
  - change (composed (Upload dest true :: ?es)) with (composed es).
    rewrite submitted_upload, composed_keep_events, submitted_keep_events,
      length_map.
    destruct Hst as (_ & _ & _ & Hck0 & _ & _ & Hkeep0).
    destruct Hk as (Hidle' & Hck & Hsame & _).
    do 2 (split; [done|]). split; [|lia].
    intros b Hne. rewrite Hsame by done. apply Hkeep0; [done|].
    rewrite Hidle. apply not_elem_of_nil.
Qed.

(** X15. [compose] of [src/list-files.py] composes any list of stored
    slices, also one in which a slice comes more than once: with a gateway
    that does not fail, no deletion pending and a destination that is not
    one of the slices, it returns the destination after ceil(N/31)
    successful compose calls, and leaves the bucket as it was but for the
    destination, which holds the contents of the slices in the order of the
    list. *)
Theorem compose_keep_content env (w : World) slices l dest fuel :
  heap w !! slices = Some l -> (length l < fuel)%nat ->
  pool (cloud w) = [] -> dest ∉ l ->
  upload_fails env = false -> (forall n, compose_fails env n = false) ->
  (forall s, s ∈ l -> is_Some (bucket (cloud w) !! s)) ->
  exists w' x evs,
    ListFiles.compose env fuel dest slices w = (Ok dest, w') /\
    read_all (bucket (cloud w)) l = Some x /\
    bucket (cloud w') = <[dest := x]> (bucket (cloud w)) /\
    events (trace (cloud w')) = events (trace (cloud w)) ++ evs /\
    Z.of_nat (length (composed evs)) = ceil_div (length l) default_chunk_size.
Proof.
  intros Hl Hfuel Hidle Hdest Hup Hgw Hstored.
  destruct (compose_keep_returns env fuel dest w slices l)
    as (w' & x & evs & Hrun & _ & Hx & Hb & _ & Hev & Hc & _); [done..|].
  exists w', x, evs. do 4 (split; [done|]).
  by rewrite Hc, length_map, chunks_length.
Qed.

(** X16. [compose] of [src/list-files.py] can be run again: after a run
    that returned, with no deletion pending and a destination that is not
    one of the slices, a second run on the same list and destination, with
    a gateway that does not fail, returns and leaves the bucket exactly as
    the first run left it. *)
Theorem compose_keep_twice env1 env2 (w : World) slices l dest fuel b w1 :
  heap w !! slices = Some l -> (length l < fuel)%nat ->
  pool (cloud w) = [] -> dest ∉ l ->
  ListFiles.compose env1 fuel dest slices w = (Ok b, w1) ->
  upload_fails env2 = false -> (forall n, compose_fails env2 n = false) ->
  exists w2,
    ListFiles.compose env2 fuel dest slices w1 = (Ok dest, w2) /\
    bucket (cloud w2) = bucket (cloud w1).
Proof.
  intros Hl Hfuel Hidle Hdest Hrun1 Hup2 Hgw2.
  destruct (compose_keep_effect env1 fuel dest w slices l)
    as (r & w' & Hrun & Hp & Hcases); [done..|].
  rewrite Hrun1 in Hrun. injection Hrun as <- <-.
  destruct Hcases as [(_ & [=] & _)|
    (_ & c0 & r0 & done & rest & Hst & Hr & Hcs & _ & Hrest & _ & Hk)].
  destruct r0 as [[]|e|]; try done.
  rewrite (Hrest eq_refl), app_nil_r in Hcs. subst done.
  destruct Hst as (_ & _ & Hacc & _ & _ & _ & Hkeep0).
  destruct Hk as (Hidle1 & _ & Hsame & Hcontent).
  rewrite concat_chunks in Hcontent by done.
  destruct (Hcontent Hdest [] Hacc) as (x & Hx & Hfin). cbn [app] in Hfin.
  assert (Hsame1 : forall s, s <> dest ->
            bucket (cloud w1) !! s = bucket (cloud w) !! s).
  { intros s Hne. rewrite Hsame by done. apply Hkeep0; [done|].
    rewrite Hidle. apply not_elem_of_nil. }
  assert (Hx1 : read_all (bucket (cloud w1)) l = Some x).
  { rewrite <- Hx. apply read_all_ext. intros s Hs.
    rewrite Hsame by (by intros ->). done. }
  destruct (compose_keep_returns env2 fuel dest w1 slices l)
    as (w2 & x2 & evs & Hrun2 & _ & Hx2 & Hb2 & _); try done.
  { by apply Hp. }
  { intros s Hs. eapply read_all_is_Some; [by eexists|done]. }
  exists w2. split; [done|]. rewrite Hb2, Hx1 in *. injection Hx2 as <-.
  apply map_eq. intros s. destruct (decide (s = dest)) as [->|Hne].
  - by rewrite lookup_insert_eq.
  - by rewrite lookup_insert_ne.
Qed.

(** * The script of [src/list-files.py] *)

Lemma substring_full s : String.substring 0 (String.length s) s = s.
Proof. induction s as [|c s IH]; [done|]. cbn. by rewrite IH. Qed.

Lemma substring_skip p s :
  String.substring (String.length p)
    (String.length (p +:+ s) - String.length p) (p +:+ s) = s.
Proof.
  induction p as [|c p IH]; cbn.
  - rewrite Nat.sub_0_r. apply substring_full.
  - exact IH.
Qed.

Lemma prefix_app s1 s2 :
  String.prefix s1 s2 = true -> exists rest, s2 = s1 +:+ rest.
Proof.
  revert s2. induction s1 as [|a s1 IH]; intros s2.
  - intros _. by exists s2.
  - destruct s2 as [|b s2]; [done|]. cbn.
    destruct (Ascii.ascii_dec a b) as [->|]; [|done].
    intros Hp. destruct (IH _ Hp) as [rest ->]. by exists rest.
Qed.

(** The name of a blob of the bucket of the script. *)
Lemma blob_name_listed n : blob_name (blob_path listed_bucket n) = n.
Proof.
  exact (eq_trans
           (f_equal after_slash
              (substring_skip "gs://" (listed_bucket +:+ "/" +:+ n)))
           eq_refl).
Qed.

(** The blobs under the prefix of the script: the output is not among
    them. *)
Lemma listed_under_prefix b :
  String.prefix (blob_path listed_bucket listed_prefix) b = true ->
  b <> output_path /\
  exists name, b = blob_path listed_bucket (listed_prefix +:+ name).
Proof.
  intros Hp. split.
  - intros ->. revert Hp. by vm_compute.
  - destruct (prefix_app _ _ Hp) as [rest ->]. by exists rest.
Qed.

(** The loop over the listing appends the blobs to the list, in the order
    of the listing, and leaves the last of them in [blob]. *)
Lemma gather_spec listed l blob (w : World) l0 :
  heap w !! l = Some l0 ->
  gather listed l blob w
  = (Ok (match last listed with Some b => Some b | None => blob end),
     {| heap := <[l := l0 ++ listed]> (heap w); cloud := cloud w |}).
Proof.
  revert blob w l0. induction listed as [|b listed IH]; intros blob w l0 Hl.
  - cbn. rewrite app_nil_r, list_insert_id by done. by destruct w.
  - cbn [gather]. erewrite bind_Ok; [|by unfold list_append; rewrite Hl].
    erewrite IH.
    2:{ cbn [heap]. apply list_lookup_insert_eq. by eapply lookup_lt_Some. }
    cbn [heap cloud]. rewrite list_insert_insert_eq, <- app_assoc, last_cons.
    cbn [app]. by destruct (last listed).
Qed.

(** The script up to the call of [compose]. *)
Lemma main_run env fuel listed p :
  main env fuel listed p
  = let w1 := {| heap := heap (world p) ++ [listed];
                 cloud := cloud (world p) |} in
    match last listed with
    | None => (NameError "blob", {| world := w1; stdout := stdout p |})
    | Some blob =>
        let out :=
          stdout p ++ ["final file name:" +:+ blob_name blob;
                       "count of source files: " +:+ pretty (length listed)] in
        match ListFiles.compose env fuel output_path
                (length (heap (world p))) w1 with
        | (Ok _, w2) => (Finished, {| world := w2; stdout := out |})
        | (Raise e, w2) => (Uncaught e, {| world := w2; stdout := out |})
        | (OutOfFuel, w2) => (Endless, {| world := w2; stdout := out |})
        end
    end.
Proof.
  unfold main. erewrite bind_Ok by done.
  erewrite bind_Ok.
  2:{ apply gather_spec. cbn [heap]. by rewrite lookup_app_r, Nat.sub_diag. }
  cbn [ret heap cloud app].
  replace (<[length (heap (world p)):=listed]> (heap (world p) ++ [[]]))
    with (heap (world p) ++ [listed]).
  2:{ rewrite insert_app_r_alt, Nat.sub_diag by done. done. }
  cbn zeta. destruct (last listed) as [blob|]; [|done].
  unfold deref. cbn [heap]. rewrite lookup_app_r, Nat.sub_diag by done.
  cbn [lookup list_lookup]. rewrite <- app_assoc. done.
Qed.

(** X17. The script fails on an empty listing: it reads the loop variable
    [blob] after the loop, so that with no blob under the prefix it raises a
    [NameError] before it has printed anything or called [compose]; the
    outside world is untouched, the output object is not created; with at
    least one blob listed it does not raise that error. *)
Theorem main_needs_a_blob env fuel listed p :
  exists r p',
    main env fuel listed p = (r, p') /\
    (r = NameError "blob" <-> listed = []) /\
    (listed = [] ->
     stdout p' = stdout p /\ cloud (world p') = cloud (world p)).
Proof.
  rewrite main_run. cbn zeta.
  destruct listed as [|b listed].
  - eexists _, _. split; [done|]. cbn. done.
  - rewrite last_cons. destruct (last listed) as [x|];
      destruct (ListFiles.compose _ _ _ _ _) as [[?|?|] ?];
      eexists _, _; (split; [done|]); split; done.
Qed.

(** X18. With at least one blob listed, the script prints two lines and
    then calls [compose] on a new list that holds the listed blobs in the
    order of the listing: the first line gives, as the final file name, the
    name of the last blob of the listing, the second the number of blobs;
    the script ends as [compose] does, with its error if it raises; and the
    lines are printed even then. *)
Theorem main_prints_and_composes env fuel listed p name :
  last listed = Some (blob_path listed_bucket name) ->
  exists r0 w',
    ListFiles.compose env fuel output_path (length (heap (world p)))
      {| heap := heap (world p) ++ [listed]; cloud := cloud (world p) |}
    = (r0, w') /\
    main env fuel listed p
    = (match r0 with
       | Ok _ => Finished
       | Raise e => Uncaught e
       | OutOfFuel => Endless
       end,
       {| world := w';
          stdout := stdout p
                      ++ ["final file name:" +:+ name;
                          "count of source files: "
                            +:+ pretty (length listed)] |}).
Proof.
  intros Hlast. rewrite main_run. cbn zeta. rewrite Hlast, blob_name_listed.
  destruct (ListFiles.compose _ _ _ _ _) as [[?|?|] w']; by eexists _, _.
Qed.

(** X19. The script composes what it lists: on a listing of the objects
    stored under the prefix [googl-data-avro/] of the bucket, of which there
    is at least one, with a gateway that does not fail and no deletion
    pending, it runs to its end after ceil(N/31) successful compose calls;
    the output object is not under the prefix, so it is none of the slices,
    and at the end it holds the contents of the listed objects in the order
    of the listing; every other object, the slices among them, is in the
    bucket as before; and the name that the script has printed as the final
    file name is that of the last slice, under the prefix. *)
Theorem main_composes_listing env fuel listed p :
  lists (cloud (world p)) listed_bucket listed_prefix listed ->
  listed <> [] -> (length listed < fuel)%nat ->
  pool (cloud (world p)) = [] ->
  upload_fails env = false -> (forall n, compose_fails env n = false) ->
  (output_path ∉ listed) /\
  exists p' x evs b name,
    main env fuel listed p = (Finished, p') /\
    read_all (bucket (cloud (world p))) listed = Some x /\
    bucket (cloud (world p'))
    = <[output_path := x]> (bucket (cloud (world p))) /\
    events (trace (cloud (world p')))
    = events (trace (cloud (world p))) ++ evs /\
    Z.of_nat (length (composed evs))
    = ceil_div (length listed) default_chunk_size /\
    submitted evs = [] /\
    last listed = Some b /\
    blob_name b = listed_prefix +:+ name /\
    stdout p'
    = stdout p ++ ["final file name:" +:+ blob_name b;
                   "count of source files: " +:+ pretty (length listed)].
Proof.
  intros [Hnd Hlist] Hne Hfuel Hidle Hup Hgw.
  assert (Hout : output_path ∉ listed).
  { intros Hin. apply Hlist in Hin as [_ Hp].
    by destruct (listed_under_prefix _ Hp). }
  split; [done|].
  destruct (last listed) as [b|] eqn:Hlast.
  2:{ apply last_None in Hlast. done. }
  assert (b ∈ listed) as Hb.
  { apply last_Some in Hlast as [l' ->]. apply elem_of_app. right. by left. }
  apply Hlist in Hb as [_ Hp].
  destruct (listed_under_prefix _ Hp) as [_ [name ->]].
  destruct (compose_keep_returns env fuel output_path
              {| heap := heap (world p) ++ [listed]; cloud := cloud (world p) |}
              (length (heap (world p))) listed)
    as (w2 & x & evs & Hrun & _ & Hx & Hbk & _ & Hev & Hc & Hs); try done.
  { cbn [heap]. by rewrite lookup_app_r, Nat.sub_diag. }
  { intros s Hs. by apply Hlist in Hs as [? _]. }
  rewrite main_run. cbn zeta. rewrite Hlast, blob_name_listed, Hrun.
  eexists _, x, evs, _, name. split; [done|].
  cbn [world stdout cloud] in *. do 3 (split; [done|]).
  split; [by rewrite Hc, length_map, chunks_length|].
  split; [done|]. split; [done|]. by rewrite blob_name_listed.
Qed.

(** * The properties on sample runs *)


Lemma accumulator_content_witness :
  heap three_slices !! 0%nat = Some ["a"; "b"; "c"] /\
  ("out" ∉ ["a"; "b"; "c"]) /\
  exists w' x,
    SingleAccumulator.compose calm 4 "out" 0 three_slices = (Ok "out", w') /\
    read_all (bucket (cloud three_slices)) ["a"; "b"; "c"] = Some x /\
    bucket (cloud w') !! "out" = Some x.
Proof.
  split; [reflexivity|]. split; [compute_done|].
  destruct (accumulator_content calm three_slices 0 ["a"; "b"; "c"] "out" 31 4)
    as [_ Hcontent]; [reflexivity|lia|simpl; lia|].
  destruct Hcontent as (_ & _ & Hret); [compute_done|apply not_elem_of_nil|].
  apply Hret.
  - reflexivity.
  - intros n. reflexivity.
  - compute_done.
  - apply Forall_forall. compute_done.
  - intros b Hb. by apply elem_of_nil in Hb.
Defined.

Lemma compose_inputs_bounded_witness :
  heap three_slices !! 0%nat = Some ["a"; "b"; "c"] /\
  exists r w',
    SingleAccumulator.compose lazy_pool 4 "out" 0 three_slices = (r, w') /\
    r <> Raise InvalidInputCount.
Proof.
  split; [reflexivity|].
  destruct (compose_inputs_bounded lazy_pool three_slices 0 ["a"; "b"; "c"]
              "out" 2 4)
    as [_ (cs & w1 & r & w' & evs & _ & Hrun & _ & Hr & _)];
    [reflexivity|lia|simpl; lia|].
  exists r, w'. split; [exact Hrun|exact Hr].
Defined.


Lemma cleanup_after_compose_witness :
  heap three_slices !! 0%nat = Some ["a"; "b"; "c"] /\
  exists w' evs,
    SingleAccumulator.compose calm 4 "out" 0 three_slices = (Ok "out", w') /\
    events (trace (cloud w')) = events (trace (cloud three_slices)) ++ evs /\
    concat (dispatches evs) = ["a"; "b"; "c"].
Proof.
  split; [reflexivity|].
  destruct (cleanup_after_compose calm three_slices 0 ["a"; "b"; "c"] "out" 4)
    as (cs & w1 & r & w' & evs & _ & Hrun & Hev &
        (rest & _ & _ & _ & _ & Hall & _) & _ & _ & Hret);
    [reflexivity|simpl; lia|].
  assert (Hr : r = Ok "out").
  { apply Hret.
    - reflexivity.
    - intros n. reflexivity.
    - compute_done.
    - compute_done.
    - apply Forall_forall. compute_done.
    - intros b Hb. exfalso. revert Hb. apply not_elem_of_nil. }
  subst r. exists w', evs. split; [exact Hrun|]. split; [exact Hev|].
  exact (proj2 (Hall "out" eq_refl)).
Defined.

Lemma cleanup_spares_accumulator_witness :
  heap three_slices !! 0%nat = Some ["a"; "b"; "c"] /\
  ("out" ∉ ["a"; "b"; "c"]) /\
  exists r w' evs,
    SingleAccumulator.compose calm 4 "out" 0 three_slices = (r, w') /\
    events (trace (cloud w')) = events (trace (cloud three_slices)) ++ evs /\
    "out" ∉ submitted evs.
Proof.
  split; [reflexivity|]. split; [compute_done|].
  destruct (cleanup_spares_accumulator calm three_slices 0 ["a"; "b"; "c"]
              "out" 4)
    as (cs & w1 & r & w' & evs & _ & Hrun & Hev & _ & Hspare);
    [reflexivity|simpl; lia|].
  exists r, w', evs. split; [exact Hrun|]. split; [exact Hev|].
  apply Hspare. compute_done.
Defined.

Lemma chunker_pure_and_total_witness :
  heap three_slices !! 0%nat = Some ["a"; "b"; "c"] /\
  (exists cs w1,
     collect 4 (generate_composition_chunks 0 2) three_slices = (Ok cs, w1) /\
     Z.of_nat (length cs) = ceil_div 3 2) /\
  fst (collect 9 (generate_composition_chunks 0 0) three_slices) = OutOfFuel.
Proof.
  split; [reflexivity|].
  destruct (chunker_pure_and_total three_slices 0 ["a"; "b"; "c"])
    as (_ & Htotal & _ & Hdiv); [reflexivity|].
  split.
  - apply Htotal; [lia|simpl; lia].
  - apply Hdiv; [lia|discriminate].
Defined.

Lemma compose_calls_spaced_witness :
  heap three_slices !! 0%nat = Some ["a"; "b"; "c"] /\
  exists w',
    SingleAccumulator.compose_loop slow_gateway 4 "out"
      (generate_composition_chunks 0 2)
      (snd (lift (upload_empty slow_gateway "out") three_slices))
    = (Ok tt, w') /\
    compose_times (trace (cloud w')) = [0; 6010]%N /\
    dispatch_times (trace (cloud w')) = [5000; 6010]%N /\
    (5000 + 1000 <= 6010)%N.
Proof.
  split; [reflexivity|].
  set (w := snd (lift (upload_empty slow_gateway "out") three_slices)).
  destruct (compose_calls_spaced slow_gateway w 0 ["a"; "b"; "c"] "out" 2 4)
    as [(r & w' & ts & rs & Hrun & Hts & Hrs & _ & _ & Hw & _) _];
    [reflexivity|lia|simpl; lia|].
  assert (Hr : fst (SingleAccumulator.compose_loop slow_gateway 4 "out"
                      (generate_composition_chunks 0 2) w) = Ok tt)
    by (vm_compute; reflexivity).
  assert (Hct : compose_times (trace (cloud (snd
                  (SingleAccumulator.compose_loop slow_gateway 4 "out"
                     (generate_composition_chunks 0 2) w)))) = [0; 6010]%N)
    by (vm_compute; reflexivity).
  assert (Hdt : dispatch_times (trace (cloud (snd
                  (SingleAccumulator.compose_loop slow_gateway 4 "out"
                     (generate_composition_chunks 0 2) w)))) = [5000; 6010]%N)
    by (vm_compute; reflexivity).
  rewrite Hrun in Hr, Hct, Hdt. cbn [fst snd] in Hr, Hct, Hdt. subst r.
  rewrite Hct in Hts. rewrite Hdt in Hrs.
  change (compose_times (trace (cloud w))) with (@nil N) in Hts.
  change (dispatch_times (trace (cloud w))) with (@nil N) in Hrs.
  cbn [app] in Hts, Hrs. subst ts rs.
  exists w'. split; [exact Hrun|]. split; [exact Hct|]. split; [exact Hdt|].
  apply (Hw 0%nat 5000%N 6010%N); reflexivity.
Defined.

Lemma implementations_agree_witness :
  heap three_slices !! 0%nat = Some ["a"; "b"; "c"] /\
  pool (cloud three_slices) = [] /\
  NoDup ["out"; "a"; "b"; "c"] /\
  exists w1 w2,
    SingleAccumulator.compose calm 4 "out" 0 three_slices = (Ok "out", w1) /\
    ListFiles.compose calm 4 "out" 0 three_slices = (Ok "out", w2) /\
    compose_calls (events (trace (cloud w1)))
    = compose_calls (events (trace (cloud w2))) /\
    bucket (cloud w1) !! "out" = bucket (cloud w2) !! "out".
Proof.
  split; [reflexivity|]. split; [reflexivity|].
  assert (Hnd : NoDup ["out"; "a"; "b"; "c"]) by compute_done.
  split; [exact Hnd|].
  destruct (implementations_agree calm three_slices 0 ["a"; "b"; "c"] "out" 4)
    as (r1 & w1 & evs1 & r2 & w2 & evs2 & Hrun1 & Hev1 & Hrun2 & Hev2 & _ &
        _ & _ & _ & Hsame & Hlock); [reflexivity|simpl; lia|reflexivity|].
  assert (Hr : fst (SingleAccumulator.compose calm 4 "out" 0 three_slices)
               = Ok "out") by (vm_compute; reflexivity).
  rewrite Hrun1 in Hr. cbn [fst] in Hr. subst r1.
  destruct (Hsame "out" eq_refl) as (-> & Hcalls & _).
  destruct (Hlock Hnd) as (_ & _ & Hb).
  exists w1, w2. split; [exact Hrun1|]. split; [exact Hrun2|].
  split; [|exact Hb]. rewrite Hev1, Hev2. exact Hcalls.
Defined.

Lemma slices_not_mutated_witness :
  heap three_slices !! 0%nat = Some ["a"; "b"; "c"] /\
  exists r w',
    SingleAccumulator.compose calm 4 "out" 0 three_slices = (r, w') /\
    heap w' !! 0%nat = Some ["a"; "b"; "c"].
Proof.
  split; [reflexivity|].
  destruct (slices_not_mutated calm three_slices 0 ["a"; "b"; "c"] "out" 4)
    as (_ & _ & r & w' & Hrun & Hl & _); [reflexivity|simpl; lia|].
  exists r, w'. split; [exact Hrun|exact Hl].
Defined.

(** * The further properties on sample runs *)

Lemma chunk_segments_witness :
  heap three_slices !! 0%nat = Some ["a"; "b"; "c"] /\
  exists cs w1 c,
    collect 4 (generate_composition_chunks 0 2) three_slices = (Ok cs, w1) /\
    cs !! 1%nat = Some c /\ c !! 0%nat = Some "c".
Proof.
  split; [reflexivity|].
  destruct (chunk_segments three_slices 0 ["a"; "b"; "c"] 2 4)
    as (cs & w1 & Hc & _ & Hs & _); [reflexivity|lia|simpl; lia|].
  destruct (Hs 2%nat "c" eq_refl) as (c & Hcs & Hc0).
  exists cs, w1, c. split; [exact Hc|]. split; [exact Hcs|exact Hc0].
Defined.

Lemma generator_reads_list_twice_witness :
  heap three_slices !! 0%nat = Some ["a"; "b"; "c"] /\
  exists c1 g1 w1,
    next (generate_composition_chunks 0 2) three_slices
    = (Ok (Some (c1, g1)), w1) /\
    heap w1 !! c1 = Some ["a"; "b"] /\
    exists w2,
      collect 6 g1 {| heap := <[0%nat := ["a"; "b"; "x"; "y"; "z"]]> (heap w1);
                      cloud := cloud w1 |}
      = (Ok [["x"; "y"]; ["z"]], w2).
Proof.
  split; [reflexivity|].
  destruct (generator_reads_list_twice three_slices 0 ["a"; "b"; "c"] 2)
    as (c1 & g1 & w1 & Hn & Hc1 & Hrest & _); [reflexivity|lia|discriminate|].
  exists c1, g1, w1. split; [exact Hn|]. split; [exact Hc1|].
  destruct (Hrest ["a"; "b"; "x"; "y"; "z"] 6%nat) as [w2 Hw2].
  - simpl. lia.
  - exists w2. exact Hw2.
Defined.

Lemma chunker_nonpositive_size_witness :
  heap three_slices !! 0%nat = Some ["a"; "b"; "c"] /\
  (exists c g' w',
     next_after 0 (generate_composition_chunks 0 (-1)) three_slices
     = (Ok (Some (c, g')), w') /\
     heap w' !! c = Some ["a"; "b"]) /\
  (exists c g' w',
     next_after 7 (generate_composition_chunks 0 (-1)) three_slices
     = (Ok (Some (c, g')), w') /\
     heap w' !! c = Some []).
Proof.
  split; [reflexivity|]. split.
  - destruct (chunker_nonpositive_size three_slices 0 ["a"; "b"; "c"] (-1) 0)
      as (c & g' & w' & Hrun & _ & Hneg & _); [reflexivity|lia|discriminate|].
    exists c, g', w'. split; [exact Hrun|]. apply Hneg; [reflexivity|lia].
  - destruct (chunker_nonpositive_size three_slices 0 ["a"; "b"; "c"] (-1) 7)
      as (c & g' & w' & Hrun & _ & _ & Hlater); [reflexivity|lia|discriminate|].
    exists c, g', w'. split; [exact Hrun|]. apply Hlater. discriminate.
Defined.

Lemma delete_objects_submits_witness :
  heap three_slices !! 0%nat = Some ["a"; "b"; "c"] /\
  exists w' evs,
    SingleAccumulator.delete_objects_concurrent lazy_pool 0 three_slices
    = (Ok tt, w') /\
    events (trace (cloud w')) = events (trace (cloud three_slices)) ++ evs /\
    submitted evs = ["a"; "b"; "c"].
Proof.
  split; [reflexivity|].
  destruct (delete_objects_submits lazy_pool three_slices 0 ["a"; "b"; "c"])
    as (w' & evs & Hrun & _ & Hev & Hs & _); [reflexivity|].
  exists w', evs. split; [exact Hrun|]. split; [exact Hev|exact Hs].
Defined.

Lemma delete_objects_effect_witness :
  heap three_slices !! 0%nat = Some ["a"; "b"; "c"] /\
  exists w',
    SingleAccumulator.delete_objects_concurrent calm 0 three_slices
    = (Ok tt, w') /\
    (clock (cloud three_slices) + 15 <= clock (cloud w'))%N /\
    (bucket (cloud w') !! "a" = None \/ "a" ∈ pool (cloud w')).
Proof.
  split; [reflexivity|].
  destruct (delete_objects_effect calm three_slices 0 ["a"; "b"; "c"])
    as (w' & Hrun & Hck & _ & _ & _ & Hgone); [reflexivity|].
  exists w'. split; [exact Hrun|]. split; [exact Hck|].
  apply Hgone. compute_done.
Defined.

Lemma delete_objects_paced_witness :
  heap three_slices !! 0%nat = Some ["a"; "b"; "c"] /\
  exists w' t1 t2 t3,
    SingleAccumulator.delete_objects_concurrent lazy_pool 0 three_slices
    = (Ok tt, w') /\
    submit_times (trace (cloud w')) = [t1; t2; t3] /\
    (t1 + 5 <= t2)%N /\ (t2 + 5 <= t3)%N.
Proof.
  split; [reflexivity|].
  destruct (delete_objects_paced lazy_pool three_slices 0 ["a"; "b"; "c"])
    as (w' & ts & Hrun & Hts & Hlen & Hsp & _); [reflexivity|].
  destruct ts as [|t1 [|t2 [|t3 [|t4 ts]]]]; try discriminate Hlen.
  exists w', t1, t2, t3. split; [exact Hrun|]. split; [exact Hts|].
  split; [apply (Hsp 0%nat); reflexivity|apply (Hsp 1%nat); reflexivity].
Defined.

Lemma compose_duration_witness :
  heap three_slices !! 0%nat = Some ["a"; "b"; "c"] /\
  exists w',
    SingleAccumulator.compose calm 4 "out" 0 three_slices = (Ok "out", w') /\
    0 + 1000 * 1 + 5 * 3 <= Z.of_N (clock (cloud w')).
Proof.
  split; [reflexivity|].
  destruct (compose_duration calm three_slices 0 ["a"; "b"; "c"] "out" 4)
    as (r & w' & evs & Hrun & _ & _ & Hret); [reflexivity|simpl; lia|].
  assert (Hr : fst (SingleAccumulator.compose calm 4 "out" 0 three_slices)
               = Ok "out") by (vm_compute; reflexivity).
  rewrite Hrun in Hr. cbn [fst] in Hr. subst r.
  exists w'. split; [exact Hrun|]. exact (Hret "out" eq_refl).
Defined.

Lemma slices_deleted_or_pending_witness :
  heap three_slices !! 0%nat = Some ["a"; "b"; "c"] /\
  exists w',
    SingleAccumulator.compose lazy_pool 4 "out" 0 three_slices
    = (Ok "out", w') /\
    (bucket (cloud w') !! "b" = None \/ "b" ∈ pool (cloud w')).
Proof.
  split; [reflexivity|].
  destruct (slices_deleted_or_pending lazy_pool three_slices 0
              ["a"; "b"; "c"] "out" 4)
    as (r & w' & evs & Hrun & _ & _ & Hret); [reflexivity|simpl; lia|].
  assert (Hr : fst (SingleAccumulator.compose lazy_pool 4 "out" 0 three_slices)
               = Ok "out") by (vm_compute; reflexivity).
  rewrite Hrun in Hr. cbn [fst] in Hr. subst r.
  exists w'. split; [exact Hrun|].
  apply (Hret "out" eq_refl); [compute_done|discriminate].
Defined.

Lemma compose_touches_only_witness :
  heap three_slices !! 0%nat = Some ["a"; "b"; "c"] /\
  exists r w',
    SingleAccumulator.compose first_call_fails 4 "out" 0 three_slices
    = (r, w') /\
    forall b v, b <> "out" ->
      bucket (cloud w') !! b = Some v ->
      bucket (cloud three_slices) !! b = Some v.
Proof.
  split; [reflexivity|].
  destruct (compose_touches_only first_call_fails three_slices 0
              ["a"; "b"; "c"] "out" 4)
    as (r & w' & evs & Hrun & _ & _ & Hsub & _); [reflexivity|simpl; lia|].
  exists r, w'. split; [exact Hrun|exact Hsub].
Defined.

Lemma missing_slice_raises_witness :
  heap one_missing !! 0%nat = Some ["a"; "z"] /\
  bucket (cloud one_missing) !! "z" = None /\
  exists w',
    SingleAccumulator.compose calm 3 "out" 0 one_missing
    = (Raise NotFound, w') /\
    bucket (cloud w') !! "z" = None.
Proof.
  split; [reflexivity|]. split; [reflexivity|].
  destruct (missing_slice_raises calm one_missing 0 ["a"; "z"] "out" 3 "z")
    as (e & w' & Hrun & Hgone & He);
    [reflexivity|simpl; lia|compute_done|discriminate|reflexivity|].
  rewrite (He eq_refl (fun _ => eq_refl)) in Hrun.
  exists w'. split; [exact Hrun|exact Hgone].
Defined.

Lemma upload_failure_aborts_witness :
  upload_fails upload_refused = true /\
  exists w',
    SingleAccumulator.compose upload_refused 4 "out" 0 three_slices
    = (Raise UploadFailed, w') /\
    ListFiles.compose upload_refused 4 "out" 0 three_slices
    = (Raise UploadFailed, w') /\
    bucket (cloud w') !! "out" = None.
Proof.
  split; [reflexivity|].
  destruct (upload_failure_aborts upload_refused three_slices 0 "out" 4)
    as (w' & Hrun1 & Hrun2 & _ & _ & _ & Hkeep); [reflexivity|].
  exists w'. split; [exact Hrun1|]. split; [exact Hrun2|].
  rewrite Hkeep; [reflexivity|apply not_elem_of_nil].
Defined.

Lemma compose_twice_loses_result_witness :
  heap three_slices !! 0%nat = Some ["a"; "b"; "c"] /\
  ("out" ∉ ["a"; "b"; "c"]) /\
  exists w1 e w2,
    SingleAccumulator.compose calm 4 "out" 0 three_slices = (Ok "out", w1) /\
    bucket (cloud w1) !! "out" = Some [x61; x62; x63] /\
    pool (cloud w1) = [] /\
    SingleAccumulator.compose calm 4 "out" 0 w1 = (Raise e, w2) /\
    bucket (cloud w2) !! "out" = Some [].
Proof.
  split; [reflexivity|].
  assert (Hdest : "out" ∉ ["a"; "b"; "c"]) by compute_done.
  split; [exact Hdest|].
  set (w1 := snd (SingleAccumulator.compose calm 4 "out" 0 three_slices)).
  assert (Hrun1 : SingleAccumulator.compose calm 4 "out" 0 three_slices
                  = (Ok "out", w1)) by (vm_compute; reflexivity).
  assert (Hidle : pool (cloud w1) = []) by (vm_compute; reflexivity).
  destruct (compose_twice_loses_result calm calm three_slices 0
              ["a"; "b"; "c"] "out" 4 "out" w1)
    as (e & w2 & evs & Hrun2 & _ & _ & _ & Hb);
    [reflexivity|simpl; lia|discriminate|exact Hdest|exact Hrun1|exact Hidle|
     reflexivity|].
  exists w1, e, w2. split; [exact Hrun1|].
  split; [vm_compute; reflexivity|]. split; [exact Hidle|].
  split; [exact Hrun2|exact Hb].
Defined.

Lemma compose_deletions_paced_witness :
  heap three_slices !! 0%nat = Some ["a"; "b"; "c"] /\
  exists w' t1 t2 t3,
    SingleAccumulator.compose lazy_pool 4 "out" 0 three_slices
    = (Ok "out", w') /\
    submit_times (trace (cloud w')) = [t1; t2; t3] /\
    (t1 + 5 <= t2)%N /\ (t2 + 5 <= t3)%N.
Proof.
  split; [reflexivity|].
  destruct (compose_deletions_paced lazy_pool three_slices 0 ["a"; "b"; "c"]
              "out" 4)
    as (r & w' & ts & Hrun & Hts & Hsp & Hlen); [reflexivity|simpl; lia|].
  assert (Hr : fst (SingleAccumulator.compose lazy_pool 4 "out" 0 three_slices)
               = Ok "out") by (vm_compute; reflexivity).
  rewrite Hrun in Hr. cbn [fst] in Hr. subst r.
  specialize (Hlen "out" eq_refl).
  destruct ts as [|t1 [|t2 [|t3 [|t4 ts]]]]; try discriminate Hlen.
  exists w', t1, t2, t3. split; [exact Hrun|]. split; [exact Hts|].
  split; [apply (Hsp 0%nat); reflexivity|apply (Hsp 1%nat); reflexivity].
Defined.

Lemma compose_keeps_slices_witness :
  heap three_slices !! 0%nat = Some ["a"; "b"; "c"] /\
  pool (cloud three_slices) = [] /\
  exists r w',
    ListFiles.compose first_call_fails 4 "out" 0 three_slices = (r, w') /\
    bucket (cloud w') !! "a" = Some [x61].
Proof.
  split; [reflexivity|]. split; [reflexivity|].
  destruct (compose_keeps_slices first_call_fails three_slices 0
              ["a"; "b"; "c"] "out" 4)
    as (r & w' & evs & Hrun & _ & _ & _ & Hsame & _);
    [reflexivity|simpl; lia|reflexivity|].
  exists r, w'. split; [exact Hrun|]. rewrite Hsame; [reflexivity|discriminate].
Defined.

Lemma compose_keep_content_witness :
  heap repeated63 !! 0%nat = Some (replicate 63 "s") /\
  pool (cloud repeated63) = [] /\
  exists w',
    ListFiles.compose calm 64 "out" 0 repeated63 = (Ok "out", w') /\
    bucket (cloud w') !! "out" = Some (replicate 63 x73).
Proof.
  split; [reflexivity|]. split; [reflexivity|].
  destruct (compose_keep_content calm repeated63 0 (replicate 63 "s") "out" 64)
    as (w' & x & evs & Hrun & Hx & Hb & _);
    [reflexivity|simpl; lia|reflexivity| |reflexivity|reflexivity| |].
  - intros Hin. apply elem_of_replicate in Hin as [Heq _]. discriminate.
  - intros s Hs. apply elem_of_replicate in Hs as [-> _]. by eexists.
  - exists w'. split; [exact Hrun|]. rewrite Hb, lookup_insert_eq.
    rewrite <- Hx. vm_compute. reflexivity.
Defined.

Lemma compose_keep_twice_witness :
  heap three_slices !! 0%nat = Some ["a"; "b"; "c"] /\
  exists w1 w2,
    ListFiles.compose calm 4 "out" 0 three_slices = (Ok "out", w1) /\
    ListFiles.compose lazy_pool 4 "out" 0 w1 = (Ok "out", w2) /\
    bucket (cloud w2) = bucket (cloud w1).
Proof.
  split; [reflexivity|].
  set (w1 := snd (ListFiles.compose calm 4 "out" 0 three_slices)).
  assert (Hrun1 : ListFiles.compose calm 4 "out" 0 three_slices
                  = (Ok "out", w1)) by (vm_compute; reflexivity).
  destruct (compose_keep_twice calm lazy_pool three_slices 0
              ["a"; "b"; "c"] "out" 4 "out" w1)
    as (w2 & Hrun2 & Hb);
    [reflexivity|simpl; lia|reflexivity|compute_done|exact Hrun1|reflexivity|
     reflexivity|].
  exists w1, w2. split; [exact Hrun1|]. split; [exact Hrun2|exact Hb].
Defined.

Lemma main_prints_and_composes_witness :
  last data_lake_listing
  = Some (blob_path listed_bucket "googl-data-avro/part-1") /\
  exists p',
    main calm 3 data_lake_listing data_lake = (Finished, p') /\
    stdout p' = ["final file name:googl-data-avro/part-1";
                 "count of source files: 2"].
Proof.
  split; [reflexivity|].
  destruct (main_prints_and_composes calm 3 data_lake_listing data_lake
              "googl-data-avro/part-1")
    as (r0 & w' & Hrun & Hmain); [reflexivity|].
  assert (Hr : fst (ListFiles.compose calm 3 output_path
                      (length (heap (world data_lake)))
                      {| heap := heap (world data_lake) ++ [data_lake_listing];
                         cloud := cloud (world data_lake) |})
               = Ok output_path) by (vm_compute; reflexivity).
  rewrite Hrun in Hr. cbn [fst] in Hr. subst r0.
  eexists. split; [exact Hmain|]. vm_compute. reflexivity.
Defined.

Lemma data_lake_lists :
  lists (cloud (world data_lake)) listed_bucket listed_prefix
    data_lake_listing.
Proof.
  split; [compute_done|]. intros b. split.
  - intros Hb. unfold data_lake_listing in Hb.
    rewrite !elem_of_cons, elem_of_nil in Hb.
    destruct Hb as [->|[->|[]]]; (split; [by eexists|reflexivity]).
  - intros [[v Hv] Hp]. cbn in Hv.
    apply lookup_insert_Some in Hv as [[<- _]|[_ Hv]]; [compute_done|].
    apply lookup_insert_Some in Hv as [[<- _]|[_ Hv]]; [compute_done|].
    apply lookup_singleton_Some in Hv as [<- _]. revert Hp. by vm_compute.
Defined.

Lemma main_composes_listing_witness :
  lists (cloud (world data_lake)) listed_bucket listed_prefix
    data_lake_listing /\
  exists p',
    main calm 3 data_lake_listing data_lake = (Finished, p') /\
    bucket (cloud (world p')) !! output_path = Some [x30; x31] /\
    bucket (cloud (world p'))
      !! "gs://analytics-data-lake/googl-data-avro/part-0" = Some [x30] /\
    stdout p' = ["final file name:googl-data-avro/part-1";
                 "count of source files: 2"].
Proof.
  split; [exact data_lake_lists|].
  destruct (main_composes_listing calm 3 data_lake_listing data_lake)
    as (_ & p' & x & evs & b & name & Hmain & Hx & Hb & _ & _ & _ & Hlast &
        _ & Hout);
    [exact data_lake_lists|discriminate|simpl; lia|reflexivity|reflexivity|
     reflexivity|].
  exists p'. split; [exact Hmain|]. rewrite Hb. split; [|split].
  - rewrite lookup_insert_eq, <- Hx. vm_compute. reflexivity.
  - vm_compute. reflexivity.
  - change (last data_lake_listing)
      with (Some "gs://analytics-data-lake/googl-data-avro/part-1") in Hlast.
    injection Hlast as <-. rewrite Hout. vm_compute. reflexivity.
Defined.

(** * Inputs on which the properties as first stated fail *)

(** Stated for every slice list, the property of the content of the
    accumulator fails when the destination is one of the slices: the upload
    of the empty accumulator has overwritten the slice before the compose
    call reads it, so the accumulator ends up empty; and once the pool runs
    the deletion of that slice, the accumulator is gone. *)
Lemma accumulator_content_counterexample :
  heap aliased !! 0%nat = Some ["out"] /\
  read_all (bucket (cloud aliased)) ["out"] = Some [x44] /\
  (exists w',
     SingleAccumulator.compose lazy_pool 2 "out" 0 aliased = (Ok "out", w') /\
     bucket (cloud w') !! "out" = Some []) /\
  (exists w',
     SingleAccumulator.compose calm 2 "out" 0 aliased = (Ok "out", w') /\
     bucket (cloud w') !! "out" = None).
Proof.
  split; [reflexivity|]. split; [reflexivity|].
  split; (eexists; split; [vm_compute; reflexivity|]); vm_compute; reflexivity.
Qed.


(** Stated for every slice list, the exclusion of the accumulator from the
    cleanup fails when the destination is one of the slices: the batch holds
    the accumulator, its deletion is submitted, and once the pool has run it
    the accumulator is gone. *)
Lemma cleanup_spares_accumulator_counterexample :
  heap aliased !! 0%nat = Some ["out"] /\
  exists w',
    SingleAccumulator.compose calm 2 "out" 0 aliased = (Ok "out", w') /\
    dispatches (events (trace (cloud w'))) = [["out"]] /\
    submitted (events (trace (cloud w'))) = ["out"] /\
    bucket (cloud w') !! "out" = None.
Proof.
  split; [reflexivity|].
  eexists. split; [vm_compute; reflexivity|].
  repeat split; vm_compute; reflexivity.
Qed.

(** Stated for every slice list, the agreement of the two implementations
    on their compose calls fails when a slice of an earlier chunk comes again
    in a later one: the implementation that deletes has lost it by then, its
    second compose call raises, and it stops after two calls where the other
    makes three. *)
Lemma implementations_agree_counterexample :
  heap repeated63 !! 0%nat = Some (replicate 63 "s") /\
  exists w1 w2,
    SingleAccumulator.compose calm 64 "out" 0 repeated63
    = (Raise NotFound, w1) /\
    ListFiles.compose calm 64 "out" 0 repeated63 = (Ok "out", w2) /\
    length (compose_calls (events (trace (cloud w1)))) = 2%nat /\
    length (compose_calls (events (trace (cloud w2)))) = 3%nat.
Proof.
  split; [reflexivity|].
  eexists _, _. split; [vm_compute; reflexivity|].
  split; [vm_compute; reflexivity|].
  split; vm_compute; reflexivity.
Qed.


(** Stated for every run, the dispatch of every slice in exactly one batch
    fails on a run that raises: on 63 distinct slices, when the gateway
    errors the second compose call, the first chunk is the only batch, and
    the slices [s31] to [s62] of the two other chunks are in no batch. *)
Lemma cleanup_after_compose_counterexample :
  heap sixty_three !! 0%nat = Some (numbered 63) /\
  NoDup (numbered 63) /\
  "s31" ∈ numbered 63 /\ "s62" ∈ numbered 63 /\
  exists w',
    SingleAccumulator.compose (second_call_fails true) 64 "out" 0 sixty_three
    = (Raise ComposeFailed, w') /\
    dispatches (events (trace (cloud w'))) = [numbered 31] /\
    submitted (events (trace (cloud w'))) = numbered 31 /\
    ("s31" ∉ numbered 31) /\ ("s62" ∉ numbered 31).
Proof.
  split; [reflexivity|]. split; [compute_done|].
  split; [compute_done|]. split; [compute_done|].
  eexists. split; [vm_compute; reflexivity|].
  split; [vm_compute; reflexivity|]. split; [vm_compute; reflexivity|].
  split; compute_done.
Qed.
